(** * ipycolorbar / chromabar: a shallow embedding of the widget helpers

    The development follows the TypeScript sources:

    - [common.ts] (the helpers [createGradient], [generateSvgID],
      [ensureCheckerPattern], [checkType], [scaleIsOrdinal], [makeAxisScale]),
    - [editor/handle.ts] (the [colorHandle] renderer and its accessors),
    - the [chromabar] test-suite (expected output of the colorbar renderer).

    JavaScript numbers are modelled by exact numbers ([N] for counters, [Q]
    for coordinates); the rounding and the overflow of IEEE doubles are
    outside the model.  The
    objects of the external toolkit (d3 scales, d3 selections on a DOM tree)
    are modelled in their own modules, as far as the sources use them. *)

From Stdlib Require Import QArith Qfield Qround Lia.
From Stdlib Require PrimFloat.
From stdpp Require Import gmap strings list pretty.

Set Default Proof Using "Type".
Open Scope string_scope.
Open Scope list_scope.

(* ===================================================================== *)
(** * Module-level table of SVG ids ([const svgIDs = {}]) *)
(* ===================================================================== *)

Module SvgIds.

(** Values that can be read from a property of the [svgIDs] object.  The
    object is created by the literal [{}], so a property that is not an own
    property is looked up on [Object.prototype]. *)
Inductive jsval :=
| JUndefined
| JNum (n : N)                 (* a counter stored by [generateSvgID] *)
| JStr (s : string)
| JObjectPrototype             (* the object [Object.prototype] itself *)
| JNative (name : string).     (* a built-in function of [Object.prototype] *)

(** The properties every object literal inherits. *)
Definition Object_prototype (key : string) : option jsval :=
  if String.eqb key "__proto__" then Some JObjectPrototype
  else if String.eqb key "constructor" then Some (JNative "Object")
  else if existsb (String.eqb key)
            ["hasOwnProperty"; "isPrototypeOf"; "propertyIsEnumerable";
             "toLocaleString"; "toString"; "valueOf";
             "__defineGetter__"; "__defineSetter__";
             "__lookupGetter__"; "__lookupSetter__"]
       then Some (JNative key)
  else None.

(** Source text of a built-in function (the text is engine dependent; this
    is the one of V8). *)
Definition native_source (name : string) : string :=
  "function " +:+ name +:+ "() { [native code] }".

(** [String(v)], as used by [+] on a string operand and by template literals. *)
Definition to_string (v : jsval) : string :=
  match v with
  | JUndefined => "undefined"
  | JNum n => pretty n
  | JStr s => s
  | JObjectPrototype => "[object Object]"
  | JNative name => native_source name
  end.

(** The own properties of [svgIDs]. *)
Abbreviation table := (gmap string jsval).

(** [svgIDs[key]]: own property first, then the prototype. *)
Definition get (svgIDs : table) (key : string) : jsval :=
  match svgIDs !! key with
  | Some v => v
  | None => default JUndefined (Object_prototype key)
  end.

(** [svgIDs[key] = v] for a number or string [v] (the only values the
    source assigns).  [__proto__] is an accessor of [Object.prototype] whose
    setter ignores every value that is neither an object nor [null]; every
    other key becomes (or overwrites) an own property. *)
Definition set (svgIDs : table) (key : string) (v : jsval) : table :=
  if String.eqb key "__proto__" then svgIDs else <[key := v]> svgIDs.

(** [(x || 0) + 1]. *)
Definition truthy (v : jsval) : bool :=
  match v with
  | JUndefined => false
  | JNum n => negb (N.eqb n 0)
  | JStr s => negb (String.eqb s "")
  | JObjectPrototype | JNative _ => true
  end.

Definition or_zero_plus_one (x : jsval) : jsval :=
  match (if truthy x then x else JNum 0) with
  | JNum n => JNum (n + 1)
  | v => JStr (to_string v +:+ "1")
  end.

(** [export function generateSvgID(prefix: string = '')]:
<<
  svgIDs[prefix] = (svgIDs[prefix] || 0) + 1;
  return `${prefix}-${svgIDs[prefix]}`;
>> *)
Definition generateSvgID (prefix : string) (svgIDs : table) : string * table :=
  let svgIDs' := set svgIDs prefix (or_zero_plus_one (get svgIDs prefix)) in
  (prefix +:+ "-" +:+ to_string (get svgIDs' prefix), svgIDs').

(** The call [generateSvgID()] with the default argument. *)
Definition generateSvgID_default : table -> string * table := generateSvgID "".

(** A sequence of calls, in program order, from a given table: the ids
    returned and the final table. *)
Fixpoint calls (prefixes : list string) (svgIDs : table) : list string * table :=
  match prefixes with
  | [] => ([], svgIDs)
  | p :: ps =>
      let '(id, t1) := generateSvgID p svgIDs in
      let '(ids, t2) := calls ps t1 in
      (id :: ids, t2)
  end.

(** A prefix is plain when it is not the name of an inherited property. *)
Definition plain (prefix : string) : Prop := Object_prototype prefix = None.

Definition count_prefix (p : string) (ps : list string) : N :=
  N.of_nat (length (filter (λ q, q = p) ps)).

(** The counter of a prefix: the number stored for it, [0] if none. *)
Definition counter_is (t : table) (p : string) (n : N) : Prop :=
  (n = 0%N ∧ t !! p = None) ∨ t !! p = Some (JNum n).

End SvgIds.

(* ===================================================================== *)
(** * The scales of the toolkit (d3-scale), as far as [common.ts] uses them *)
(* ===================================================================== *)

Module D3.

(** Values passed to and returned by scales. *)
Inductive value :=
| VUndefined
| VNaN
| VNum (q : Q)
| VStr (s : string)
| VDate (ms : Z).      (* a [Date] object, by its time stamp in whole milliseconds *)

(** Results of arithmetic that may be [NaN]. *)
Inductive num := NaN | Fin (q : Q).

Definition of_num (n : num) : value :=
  match n with NaN => VNaN | Fin q => VNum q end.

(** The two ways a call can fail: the [TypeError] of JavaScript (calling a
    method the object does not have), and inputs this model of the toolkit
    does not cover (colour and string interpolation, coercion of strings to
    numbers, infinite numbers). *)
Inductive error := TypeError | Unmodelled.

(** The continuous scales of the model: [scaleLinear()], [scaleTime()] and
    [scalePow().exponent(-1)], the power scale whose transform and inverse
    transform stay within the rational numbers. *)
Inductive kind := Linear | Time | Reciprocal.

(** The interpolator factory of a continuous scale: [interpolate], the
    default, [interpolateRound] (set by [scale.interpolate] or by
    [scale.rangeRound]), or [interpolateRgb], an interpolator for colours
    (set by [scale.interpolate]). *)
Inductive interpolator := Value | Round | Rgb.

(** A scale object.  A continuous scale has its kind, its interpolator, its
    [clamp] setting, a domain and a range; an ordinal scale has a domain, a
    range and its [unknown] setting, [None] for the default ([scaleImplicit]);
    a band scale has a domain and the two ends of its range; a sequential
    scale has a domain but no [range] and no [invert] method; an identity
    scale ([scaleIdentity()]) has one list of numbers that is its domain and
    its range. *)
Inductive scale :=
| Continuous (k : kind) (interp : interpolator) (clamp : bool)
    (domain : list Q) (range : list value)
| Ordinal (domain : list value) (range : list value) (unknown : option value)
| Band (domain : list value) (r0 r1 : Q)
| Sequential (x0 x1 : Q)
| Identity (domain : list Q).

Definition has_range (s : scale) : bool :=
  match s with Sequential _ _ => false | _ => true end.

Definition has_invert (s : scale) : bool :=
  match s with Continuous _ _ _ _ _ | Identity _ => true | _ => false end.

(** ** Pure parts: coercion, interpolation, piecewise maps *)

(** [+x] for the values the model covers. *)
Definition number (x : value) : error + Q :=
  match x with
  | VNum q => inr q
  | VDate ms => inr (inject_Z ms)
  | _ => inl Unmodelled
  end.

(** [new Date(q)]: a date keeps the whole milliseconds of [q], rounded
    towards zero. *)
Definition whole_ms (q : Q) : Z := Z.quot (Qnum q) (Z.pos (Qden q)).

Definition date (q : Q) : value := VDate (whole_ms q).

(** The coercion of a domain value by the domain setter of a continuous
    scale: [+x], and for a time scale
    [t instanceof Date ? +t : +new Date(+t)]. *)
Definition coerce (k : kind) (x : value) : error + Q :=
  match k, x with
  | Time, VNum q => inr (inject_Z (whole_ms q))
  | _, _ => number x
  end.

(** [x === q] for a number literal [q]. *)
Definition strict_eq_num (x : value) (q : Q) : bool :=
  match x with VNum p => Qeq_bool p q | _ => false end.

Definition instanceof_Date (x : value) : bool :=
  match x with VDate _ => true | _ => false end.

(** Keys of an ordinal domain.  The toolkit keys a value by its string form;
    the model takes two values to have the same key when they are the same
    value of the same type, so it covers the domains in which different
    values have different string forms. *)
Definition same_key (a b : value) : bool :=
  match a, b with
  | VUndefined, VUndefined | VNaN, VNaN => true
  | VNum p, VNum q => Qeq_bool p q
  | VDate p, VDate q => Z.eqb p q
  | VStr s, VStr t => String.eqb s t
  | _, _ => false
  end.

Fixpoint index_of (d : value) (domain : list value) : option nat :=
  match domain with
  | [] => None
  | e :: domain' =>
      if same_key e d then Some 0 else S <$> index_of d domain'
  end.

(** The domain setter of ordinal and band scales keeps the first value of
    every key. *)
Fixpoint dedup_keys (seen : list value) (vs : list value) : list value :=
  match vs with
  | [] => []
  | v :: vs' =>
      match index_of v seen with
      | Some _ => dedup_keys seen vs'
      | None => v :: dedup_keys (seen ++ [v]) vs'
      end
  end.

(** [interpolateNumber(a, b)(t) = a * (1 - t) + b * t]. *)
Definition interpolateNumber (a b t : num) : num :=
  match a, b, t with
  | Fin a, Fin b, Fin t => Fin (a * (1 - t) + b * t)
  | _, _, _ => NaN
  end.

(** [Math.round(q)], and [interpolateRound(a, b)(t)
    = Math.round(a * (1 - t) + b * t)]. *)
Definition round (q : Q) : Q := inject_Z (Qfloor (q + (1 # 2))).

Definition interpolateRound (a b t : num) : num :=
  match interpolateNumber a b t with
  | Fin q => Fin (round q)
  | NaN => NaN
  end.

(** [normalize(a, b)]: [x => (x - a) / (b - a)], the constant [0.5] on a
    degenerate interval, [NaN] when a bound is missing. *)
Definition normalize (a b : num) (x : Q) : num :=
  match a, b with
  | Fin a, Fin b =>
      if Qeq_bool (b - a) 0 then Fin (1 # 2) else Fin ((x - a) / (b - a))
  | _, _ => NaN
  end.

(** The default interpolator factory [interpolate(a, b)] dispatches on the
    type of [b]. *)
Definition to_num (a : value) : error + num :=
  match a with
  | VUndefined | VNaN => inr NaN
  | VNum q => inr (Fin q)
  | VDate ms => inr (Fin (inject_Z ms))
  | VStr _ => inl Unmodelled
  end.

Definition interpolate (a b : value) : error + (num → value) :=
  match b with
  | VUndefined => inr (λ _, VUndefined)
  | VNum _ | VNaN =>
      match to_num a, to_num b with
      | inr a', inr b' => inr (λ t, of_num (interpolateNumber a' b' t))
      | _, _ => inl Unmodelled
      end
  | VStr _ | VDate _ => inl Unmodelled
  end.

(** [interpolateNumber] used as a factory (by [invert]). *)
Definition interpolate_number (a b : value) : error + (num → value) :=
  match to_num a, to_num b with
  | inr a', inr b' => inr (λ t, of_num (interpolateNumber a' b' t))
  | _, _ => inl Unmodelled
  end.

(** [interpolateRound] as a factory: it coerces both ends to numbers. *)
Definition interpolate_round (a b : value) : error + (num → value) :=
  match to_num a, to_num b with
  | inr a', inr b' => inr (λ t, of_num (interpolateRound a' b' t))
  | _, _ => inl Unmodelled
  end.

(** [interpolateRgb(a, b)] for two numbers: a number is no colour, so both
    ends are read as the colour without channels, and the interpolator
    returns the text [rgb(0, 0, 0)] of that colour whatever [t] is.  It
    returns the same between two ends that are this text, which is read as
    black.  Other ends are not covered. *)
Definition no_colour : string := "rgb(0, 0, 0)".

Definition interpolate_rgb (a b : value) : error + (num → value) :=
  match a, b with
  | VNum _, VNum _ => inr (λ _, VStr no_colour)
  | VStr s, VStr s' =>
      if String.eqb s no_colour && String.eqb s' no_colour
      then inr (λ _, VStr no_colour) else inl Unmodelled
  | _, _ => inl Unmodelled
  end.

Definition factory (i : interpolator) : value → value → error + (num → value) :=
  match i with
  | Value => interpolate
  | Round => interpolate_round
  | Rgb => interpolate_rgb
  end.

(** The interpolators that give a number between two numbers. *)
Definition numeric (i : interpolator) : bool :=
  match i with Rgb => false | _ => true end.

(** The transform of a continuous scale, applied to the domain and to the
    argument of a call: the identity, and for the power scale
    [x => x < 0 ? -Math.pow(-x, -1) : Math.pow(x, -1)], which is infinite at
    zero.  With the exponent [-1] the inverse transform is the same
    function. *)
Definition transform (k : kind) (x : Q) : error + Q :=
  match k with
  | Reciprocal =>
      if Qeq_bool x 0 then inl Unmodelled
      else if Qle_bool 0 x then inr (/ x) else inr (- / - x)
  | _ => inr x
  end.

(** [clamper(domain)]: [x => Math.max(a, Math.min(b, x))] for the first and
    the last value of the domain, taken in ascending order. *)
Definition clamper (domain : list Q) (x : Q) : error + Q :=
  match head domain, last domain with
  | Some a, Some b =>
      let lo := if Qle_bool a b then a else b in
      let hi := if Qle_bool a b then b else a in
      let y := if Qle_bool x hi then x else hi in
      inr (if Qle_bool lo y then y else lo)
  | _, _ => inl Unmodelled
  end.

Definition clamped (c : bool) (domain : list Q) (x : Q) : error + Q :=
  if c then clamper domain x else inr x.

Definition at_num (l : list Q) (i : nat) : num :=
  match l !! i with Some q => Fin q | None => NaN end.

Definition at_val (l : list value) (i : nat) : value :=
  default VUndefined (l !! i).

(** [a < b] on possibly missing numbers. *)
Definition num_ltb (a b : num) : bool :=
  match a, b with
  | Fin a, Fin b => negb (Qle_bool b a)
  | _, _ => false
  end.

(** [bimap(domain, range, interpolate)]. *)
Definition bimap (domain : list Q) (range : list value)
    (interp : value → value → error + (num → value)) (x : Q) : error + value :=
  let d0 := at_num domain 0 in
  let d1 := at_num domain 1 in
  let r0 := at_val range 0 in
  let r1 := at_val range 1 in
  if num_ltb d1 d0
  then match interp r1 r0 with
       | inr r => inr (r (normalize d1 d0 x))
       | inl e => inl e
       end
  else match interp r0 r1 with
       | inr r => inr (r (normalize d0 d1 x))
       | inl e => inl e
       end.

(** [bisectRight(a, x, lo, hi)] of d3-array:
<<
  while (lo < hi) {
    var mid = lo + hi >>> 1;
    if (compare(a[mid], x) > 0) hi = mid; else lo = mid + 1;
  }
  return lo;
>>
    Every iteration shrinks [hi - lo], which bounds the number of
    iterations. *)
Fixpoint bisect_loop (steps : nat) (a : list Q) (x : Q) (lo hi : nat) : nat :=
  match steps with
  | O => lo
  | S steps' =>
      if (lo <? hi)%nat then
        let mid := ((lo + hi) / 2)%nat in
        if num_ltb (Fin x) (at_num a mid)
        then bisect_loop steps' a x lo mid
        else bisect_loop steps' a x (mid + 1) hi
      else lo
  end.

Definition bisectRight (a : list Q) (x : Q) (lo hi : nat) : nat :=
  bisect_loop (hi - lo) a x lo hi.

(** [polymap(domain, range, interpolate)]. *)
Definition polymap (domain : list Q) (range : list value)
    (interp : value → value → error + (num → value)) (x : Q) : error + value :=
  let j := (Nat.min (length domain) (length range) - 1)%nat in
  let reversed := num_ltb (at_num domain j) (at_num domain 0) in
  let domain := if reversed then reverse domain else domain in
  let range := if reversed then reverse range else range in
  let i := (bisectRight domain x 1 j - 1)%nat in
  match interp (at_val range i) (at_val range (i + 1)) with
  | inr r => inr (r (normalize (at_num domain i) (at_num domain (i + 1)) x))
  | inl e => inl e
  end.

(** [piecewise = min(domain.length, range.length) > 2 ? polymap : bimap]. *)
Definition piecewise (domain : list Q) (range : list value) :=
  if (2 <? Nat.min (length domain) (length range))%nat
  then polymap domain range else bimap domain range.

(** ** Notions used to state properties of scales *)

(** Weakly ascending lists of numbers, as a test and by indices; a domain is
    monotonous when it is weakly ascending or weakly descending. *)
Fixpoint ascendingb (l : list Q) : bool :=
  match l with
  | a :: (b :: _) as l' => Qle_bool a b && ascendingb l'
  | _ => true
  end.

Definition ascending (l : list Q) : Prop :=
  ∀ i j a b, (i <= j)%nat → l !! i = Some a → l !! j = Some b → (a <= b)%Q.

Definition monotonous (ds : list Q) : Prop :=
  ascendingb ds = true ∨ ascendingb (reverse ds) = true.

(** A number of whole milliseconds, as a time scale holds them in its
    domain. *)
Definition whole (q : Q) : bool := Pos.eqb (Qden q) 1.

(** The domain of a scale that maps numbers or dates by interpolation (an
    identity scale does not interpolate). *)
Definition numeric_domain (sc : scale) : option (list Q) :=
  match sc with
  | Continuous Time _ _ ds _ => if forallb whole ds then Some ds else None
  | Continuous _ _ _ ds _ => Some ds
  | Sequential x0 x1 => Some [x0; x1]
  | _ => None
  end.

(** What a numeric interpolator makes of an interpolated number. *)
Definition rounded (i : interpolator) (q : Q) : Q :=
  match i with Round => round q | _ => q end.

(** A list that the domain setter leaves alone: no value has a key seen
    before. *)
Fixpoint fresh_keys (seen l : list value) : Prop :=
  match l with
  | [] => True
  | v :: l' => index_of v seen = None ∧ fresh_keys (seen ++ [v]) l'
  end.

(** Invariant of ordinal and band scales: their domain setter and the
    implicit extension by a call keep one value per key. *)
Definition well_formed (sc : scale) : Prop :=
  match sc with
  | Ordinal ds _ _ | Band ds _ _ => dedup_keys [] ds = ds
  | _ => True
  end.

(** ** Scale objects in a store

    Scales are mutable objects: a setter changes the object and returns it.
    The store holds the objects; a reference is an index into it. *)

Abbreviation ref := nat.
Abbreviation heap := (list scale).

(** Computations on the store that may fail; the store is kept on failure. *)
Definition M (A : Type) : Type := heap → (error + A) * heap.

Definition ret {A} (a : A) : M A := λ h, (inr a, h).
Definition throw {A} (e : error) : M A := λ h, (inl e, h).
Definition bind {A B} (m : M A) (k : A → M B) : M B :=
  λ h, match m h with
       | (inr a, h') => k a h'
       | (inl e, h') => (inl e, h')
       end.
Definition lift {A} (r : error + A) : M A := λ h, (r, h).

Notation "'let*' x ':=' m 'in' k" := (bind m (λ x, k))
  (at level 10, x name, m at level 100, k at level 200, only parsing).

Fixpoint mapM {A B} (f : A → M B) (l : list A) : M (list B) :=
  match l with
  | [] => ret []
  | a :: l' => let* b := f a in let* bs := mapM f l' in ret (b :: bs)
  end.

Fixpoint map_err {A B} (f : A → error + B) (l : list A) : error + list B :=
  match l with
  | [] => inr []
  | a :: l' =>
      match f a, map_err f l' with
      | inr b, inr bs => inr (b :: bs)
      | inl e, _ | _, inl e => inl e
      end
  end.

Definition alloc (s : scale) : M ref := λ h, (inr (length h), h ++ [s]).

(** Using a reference that holds no object is a [TypeError]. *)
Definition read (r : ref) : M scale :=
  λ h, match h !! r with Some s => (inr s, h) | None => (inl TypeError, h) end.

Definition write (r : ref) (s : scale) : M ref := λ h, (inr r, <[r := s]> h).

(** [scaleLinear()] and [scaleBand()] with their defaults. *)
Definition scaleLinear : M ref :=
  alloc (Continuous Linear Value false [0%Q; 1%Q] [VNum 0; VNum 1]).
Definition scaleBand : M ref := alloc (Band [] 0 1).

(** [scale.copy()]: a new object with the state of [scale]. *)
Definition copy (r : ref) : M ref := let* s := read r in alloc s.

(** [scale.domain()]; a time scale returns dates. *)
Definition domain_value (k : kind) (d : Q) : value :=
  match k with Time => date d | _ => VNum d end.

Definition domain_of (s : scale) : list value :=
  match s with
  | Continuous k _ _ ds _ => domain_value k <$> ds
  | Ordinal ds _ _ | Band ds _ _ => ds
  | Sequential x0 x1 => [VNum x0; VNum x1]
  | Identity ds => VNum <$> ds
  end.
Definition get_domain (r : ref) : M (list value) :=
  let* s := read r in ret (domain_of s).

(** [scale.domain(vs)], returning the scale. *)
Definition with_domain (s : scale) (vs : list value) : error + scale :=
  match s with
  | Continuous k i c _ rg =>
      match map_err (coerce k) vs with
      | inr ds => inr (Continuous k i c ds rg)
      | inl e => inl e
      end
  | Ordinal _ rg u => inr (Ordinal (dedup_keys [] vs) rg u)
  | Band _ r0 r1 => inr (Band (dedup_keys [] vs) r0 r1)
  | Sequential _ _ =>
      match map_err number (take 2 vs) with
      | inr [x0; x1] => inr (Sequential x0 x1)
      | inr _ => inl Unmodelled
      | inl e => inl e
      end
  | Identity _ =>
      match map_err number vs with
      | inr ds => inr (Identity ds)
      | inl e => inl e
      end
  end.
Definition set_domain (r : ref) (vs : list value) : M ref :=
  let* s := read r in let* s' := lift (with_domain s vs) in write r s'.

(** [scale.range(vs)], returning the scale; a sequential scale has no such
    method, and for an identity scale it is the domain setter. *)
Definition with_range (s : scale) (vs : list value) : error + scale :=
  match s with
  | Continuous k i c ds _ => inr (Continuous k i c ds vs)
  | Ordinal ds _ u => inr (Ordinal ds vs u)
  | Band ds _ _ =>
      match map_err number (take 2 vs) with
      | inr [r0; r1] => inr (Band ds r0 r1)
      | inr _ => inl Unmodelled
      | inl e => inl e
      end
  | Sequential _ _ => inl TypeError
  | Identity _ => with_domain s vs
  end.
Definition set_range (r : ref) (vs : list value) : M ref :=
  let* s := read r in let* s' := lift (with_range s vs) in write r s'.

(** [scale.range()]. *)
Definition range_of (s : scale) : error + list value :=
  match s with
  | Continuous _ _ _ _ rg | Ordinal _ rg _ => inr rg
  | Band _ r0 r1 => inr [VNum r0; VNum r1]
  | Sequential _ _ => inl TypeError
  | Identity ds => inr (VNum <$> ds)
  end.
Definition get_range (r : ref) : M (list value) :=
  let* s := read r in lift (range_of s).

(** [scale(x)].  A continuous scale clamps and transforms its argument and
    maps it piecewise from the transformed domain to the range.  An ordinal
    scale returns its [unknown] value for a value outside its domain; with
    the default, implicit [unknown] it appends the value to its domain
    instead.  A band scale is an ordinal scale with [unknown] undefined.  An
    identity scale returns its argument as a number. *)
Definition range_cycle (rg : list value) (i : nat) : value :=
  match rg with
  | [] => VUndefined
  | _ => at_val rg (i mod length rg)
  end.

Definition band_position (ds : list value) (r0 r1 : Q) (i : nat) : Q :=
  let n := length ds in
  let reversed := negb (Qle_bool r0 r1) in
  let start := if reversed then r1 else r0 in
  let stop := if reversed then r0 else r1 in
  let step := ((stop - start) / inject_Z (Z.of_nat (Nat.max 1 n)))%Q in
  let start' :=
    (start + (stop - start - step * inject_Z (Z.of_nat n)) * (1 # 2))%Q in
  let k := if reversed then (n - 1 - i)%nat else i in
  (start' + step * inject_Z (Z.of_nat k))%Q.

Definition call (r : ref) (x : value) : M value :=
  let* s := read r in
  match s with
  | Continuous k i c ds rg =>
      let* x0 := lift (number x) in
      let* x1 := lift (clamped c ds x0) in
      let* x2 := lift (transform k x1) in
      let* tds := lift (map_err (transform k) ds) in
      lift (piecewise tds rg (factory i) x2)
  | Ordinal ds rg unknown =>
      match index_of x ds with
      | Some i => ret (range_cycle rg i)
      | None =>
          match unknown with
          | Some u => ret u
          | None =>
              let* _ := write r (Ordinal (ds ++ [x]) rg None) in
              ret (range_cycle rg (length ds))
          end
      end
  | Band ds r0 r1 =>
      match index_of x ds with
      | Some i => ret (VNum (band_position ds r0 r1 i))
      | None => ret VUndefined
      end
  | Sequential _ _ => throw Unmodelled
  | Identity _ => let* x0 := lift (number x) in ret (VNum x0)
  end.

(** [scale.invert(y)]; only continuous and identity scales have the method.
    For a continuous scale it is [clamp(untransform(piecewise(range,
    domain.map(transform), interpolateNumber)(y)))], and [new Date] of it
    for a time scale; for an identity scale it is the scale itself. *)
Definition invert (r : ref) (y : value) : M value :=
  let* s := read r in
  match s with
  | Continuous k i c ds rg =>
      let* y' := lift (number y) in
      let* rq := lift (map_err number rg) in
      let* tds := lift (map_err (transform k) ds) in
      let* v := lift (piecewise rq (VNum <$> tds) interpolate_number y') in
      match v with
      | VNum q =>
          let* u := lift (transform k q) in
          let* u' := lift (clamped c ds u) in
          ret (match k with Time => date u' | _ => VNum u' end)
      | _ => match k with Time => throw Unmodelled | _ => ret v end
      end
  | Identity _ => let* y0 := lift (number y) in ret (VNum y0)
  | _ => throw TypeError
  end.

(** An operation, started on any extension of the store [h0], leaves the
    objects of [h0] as they are, and its result satisfies [post]. *)
Definition keeps {A} (h0 : heap) (m : M A) (post : A → Prop) : Prop :=
  ∀ l, ∃ l', snd (m (h0 ++ l)) = h0 ++ l'
             ∧ ∀ a, fst (m (h0 ++ l)) = inr a → post a.

(** A reference to an object created after [h0]. *)
Definition new_in (h0 : heap) (r : ref) : Prop := (length h0 <= r)%nat.

(** An operation keeps the store well formed. *)
Definition preserves {A} (m : M A) : Prop :=
  ∀ h, Forall well_formed h → Forall well_formed (snd (m h)).

(** ** The arithmetic of the code

    The numbers of the code are IEEE doubles.  The model computes with exact
    rational numbers: it leaves out the rounding of the doubles and their
    overflow.  The two functions that interpolate are given here on doubles
    as well, to show where the overflow changes the outcome. *)
Module Double.
Import PrimFloat.
Local Open Scope float_scope.

(** [normalize(a, b)]:
    [(b -= (a = +a)) ? x => (x - a) / b : constant(isNaN(b) ? NaN : 0.5)]. *)
Definition normalize (a b x : float) : float :=
  let b' := b - a in
  if is_nan b' then nan
  else if eqb b' 0 then 0.5
  else (x - a) / b'.

Definition interpolateNumber (a b t : float) : float := a * (1 - t) + b * t.

(** The largest power of two among the doubles. *)
Definition two_1023 : float := 0x1p1023.

(** The pixel that the two-point scale from [-2^1023, 2^1023] to [0, 100]
    has for the last value of its domain. *)
Definition last_pixel : float :=
  interpolateNumber 0 100 (normalize (- two_1023) two_1023 two_1023).

End Double.

End D3.

(* ===================================================================== *)
(** * [common.ts]: scale-type inference and the axis scale *)
(* ===================================================================== *)

Module Common.
Import D3.

(** [function checkType(scale: any)]:
<<
  if (scale.range === undefined) { return 'sequential' }
  const s = scale.copy();
  if (s.domain([1, 2]).range([1, 2])(1.5) === 1) return 'ordinal';
  else if (s.domain([1, 2]).range([1, 2]).invert(1.5) === 1.5) return 'linear';
  else if (s.domain([1, 2]).range([1, 2]).invert(1.5) instanceof Date) return 'time';
  else return 'not supported';
>> *)
Definition one_two : list value := [VNum 1; VNum 2].

Definition checkType (scale : ref) : M string :=
  let* sc := read scale in
  if negb (has_range sc) then ret "sequential" else
  let* s := copy scale in
  let* s1 := set_domain s one_two in
  let* s2 := set_range s1 one_two in
  let* v := call s2 (VNum (3 # 2)) in
  if strict_eq_num v 1 then ret "ordinal" else
  let* s3 := set_domain s one_two in
  let* s4 := set_range s3 one_two in
  let* w := invert s4 (VNum (3 # 2)) in
  if strict_eq_num w (3 # 2) then ret "linear" else
  let* s5 := set_domain s one_two in
  let* s6 := set_range s5 one_two in
  let* u := invert s6 (VNum (3 # 2)) in
  if instanceof_Date u then ret "time" else ret "not supported".

(** [export function scaleIsOrdinal(candidate)]:
    [return checkType(candidate) === 'ordinal';] *)
Definition scaleIsOrdinal (candidate : ref) : M bool :=
  let* t := checkType candidate in ret (String.eqb t "ordinal").

(** [export function makeAxisScale(scale: ColorScale, extent: number[])]:
<<
  const domain = scale.domain();
  if (scaleIsOrdinal(scale)) {
    return (scaleBand() as any).domain(scale.domain()).range(extent);
  }
  let ctor;
  if (typeof scale.range === 'function' && typeof scale.invert === 'function') {
    ctor = scale.copy;
  } else {
    ctor = () => { return (scaleLinear() as any).domain(domain) };
  }
  const transformer = ctor()
    .domain([domain[0], domain[domain.length -1]] as any)
    .range(extent) as ColorbarAxisScale;
  return ctor()
    .range(domain.map((v) => transformer(v))) as ColorbarAxisScale;
>> *)
Definition makeAxisScale (scale : ref) (extent : list Q) : M ref :=
  let* domain := get_domain scale in
  let* ordinal := scaleIsOrdinal scale in
  if ordinal then
    let* b := scaleBand in
    let* d := get_domain scale in
    let* b1 := set_domain b d in
    set_range b1 (VNum <$> extent)
  else
    let* sc := read scale in
    let ctor : M ref :=
      if has_range sc && has_invert sc then copy scale
      else (let* l := scaleLinear in set_domain l domain) in
    let* t0 := ctor in
    let* t1 := set_domain t0 [at_val domain 0; at_val domain (length domain - 1)] in
    let* transformer := set_range t1 (VNum <$> extent) in
    let* r0 := ctor in
    let* pixels := mapM (λ v, call transformer v) domain in
    set_range r0 pixels.

(** ** Notions used to state properties of the inference *)

(** A single probe on a fresh copy: [scale.copy().domain([1, 2]).range([1, 2])(1.5)]
    and the same with [.invert(1.5)]. *)
Definition probe_call (scale : ref) : M value :=
  let* s := copy scale in
  let* s1 := set_domain s one_two in
  let* s2 := set_range s1 one_two in
  call s2 (VNum (3 # 2)).

Definition probe_invert (scale : ref) : M value :=
  let* s := copy scale in
  let* s1 := set_domain s one_two in
  let* s2 := set_range s1 one_two in
  invert s2 (VNum (3 # 2)).

(** The object [checkType] leaves in the store, and its answer, by the kind
    of the scale. *)
Definition probe_of (sc : scale) : list scale :=
  match sc with
  | Continuous k i c _ _ => [Continuous k i c [1; 2]%Q one_two]
  | Ordinal _ _ None => [Ordinal [VNum 1; VNum 2; VNum (3 # 2)] one_two None]
  | Ordinal _ _ (Some u) => [Ordinal one_two one_two (Some u)]
  | Band _ _ _ => [Band one_two 1 2]
  | Sequential _ _ => []
  | Identity _ => [Identity [1; 2]%Q]
  end.

Definition type_of (sc : scale) : error + string :=
  match sc with
  | Continuous Linear _ _ _ _ => inr "linear"
  | Continuous Time _ _ _ _ => inr "time"
  | Continuous Reciprocal _ _ _ _ => inr "not supported"
  | Ordinal _ _ None => inr "ordinal"
  | Ordinal _ _ (Some u) => if strict_eq_num u 1 then inr "ordinal" else inl TypeError
  | Band _ _ _ => inl TypeError
  | Sequential _ _ => inr "sequential"
  | Identity _ => inr "linear"
  end.

(** Kind and interpolator of the scale that [ctor()] creates in
    [makeAxisScale]: those of the colour scale when it is copied, those of
    [scaleLinear()] otherwise. *)
Definition axis_kind (sc : scale) : kind :=
  match sc with Continuous k _ _ _ _ => k | _ => Linear end.

Definition axis_interpolator (sc : scale) : interpolator :=
  match sc with Continuous _ i _ _ _ => i | _ => Value end.

(** The pixel computed by the transformer of [makeAxisScale], the two-point
    scale from the ends [d0], [dl] of the (transformed) domain to the extent
    [p0], [p1], before its interpolator rounds it. *)
Definition transformer_pixel (d0 dl p0 p1 d : Q) : Q :=
  if num_ltb (Fin dl) (Fin d0)
  then (p1 * (1 - (d - dl) / (d0 - dl)) + p0 * ((d - dl) / (d0 - dl)))%Q
  else (p0 * (1 - (d - d0) / (dl - d0)) + p1 * ((d - d0) / (dl - d0)))%Q.

(** The same after the interpolator [i] of the transformer. *)
Definition pixel (i : interpolator) (d0 dl p0 p1 d : Q) : Q :=
  rounded i (transformer_pixel d0 dl p0 p1 d).

(** A number between two others, in either order. *)
Definition between (a x b : Q) : Prop := (a <= x <= b)%Q ∨ (b <= x <= a)%Q.

End Common.

(* ===================================================================== *)
(** * The document tree and the selections of the toolkit (d3-selection) *)
(* ===================================================================== *)

Module Dom.

(** An element: tag, attributes in document order, the datum bound to it by
    a data join ([__data__], [None] when unset or [null]), and children. *)
#[local] Set Warnings "-register-all".
Inductive node (D : Type) : Type :=
| Node (tag : string) (attrs : list (string * string)) (datum : option D)
       (children : list (node D)).
Arguments Node {D} tag attrs datum children.

(** Position of a descendant: the child indices on the way down. *)
Abbreviation path := (list nat).

Section WithDatum.
Context {D : Type}.

Definition tag (n : node D) : string := match n with Node t _ _ _ => t end.
Definition attrs (n : node D) : list (string * string) :=
  match n with Node _ a _ _ => a end.
Definition datum (n : node D) : option D := match n with Node _ _ d _ => d end.
Definition children (n : node D) : list (node D) :=
  match n with Node _ _ _ cs => cs end.

(** [element.getAttribute(name)]. *)
Fixpoint lookup_attr (name : string) (a : list (string * string)) : option string :=
  match a with
  | [] => None
  | (k, v) :: a' => if String.eqb k name then Some v else lookup_attr name a'
  end.
Definition getAttribute (name : string) (n : node D) : option string :=
  lookup_attr name (attrs n).

(** [element.setAttribute(name, value)]: an existing attribute keeps its
    place. *)
Fixpoint insert_attr (name value : string) (a : list (string * string)) :
    list (string * string) :=
  match a with
  | [] => [(name, value)]
  | (k, v) :: a' =>
      if String.eqb k name then (k, value) :: a'
      else (k, v) :: insert_attr name value a'
  end.
Definition setAttribute (name value : string) (n : node D) : node D :=
  Node (tag n) (insert_attr name value (attrs n)) (datum n) (children n).

(** [element.removeAttribute(name)]. *)
Definition removeAttribute (name : string) (n : node D) : node D :=
  Node (tag n) (filter (λ kv, kv.1 ≠ name) (attrs n)) (datum n) (children n).

(** [selection.attr(name, value)] on one element: a [null] value removes the
    attribute. *)
Definition attr (name : string) (value : option string) (n : node D) : node D :=
  match value with
  | Some v => setAttribute name v n
  | None => removeAttribute name n
  end.

Definition set_datum (d : option D) (n : node D) : node D :=
  Node (tag n) (attrs n) d (children n).

(** [parent.appendChild(child)]. *)
Definition appendChild (child : node D) (parent : node D) : node D :=
  Node (tag parent) (attrs parent) (datum parent) (children parent ++ [child]).

(** A new element, as made by [append(tag)] on an enter selection: it
    takes the datum of the join. *)
Definition element (t : string) (d : option D) : node D := Node t [] d [].

(** ** Addressing descendants *)

Fixpoint get (p : path) (n : node D) : option (node D) :=
  match p with
  | [] => Some n
  | i :: p' =>
      match children n !! i with
      | Some c => get p' c
      | None => None
      end
  end.

(** Change the element at a path (nothing happens when there is none). *)
Fixpoint update (p : path) (f : node D → node D) (n : node D) : node D :=
  match p with
  | [] => f n
  | i :: p' => Node (tag n) (attrs n) (datum n) (alter (update p' f) i (children n))
  end.

(** [element.remove()] for the element at a path. *)
Fixpoint remove (p : path) (n : node D) : node D :=
  match p with
  | [] => n
  | [i] => Node (tag n) (attrs n) (datum n) (delete i (children n))
  | i :: p' => Node (tag n) (attrs n) (datum n) (alter (remove p') i (children n))
  end.

(** The proper descendants of an element in document order, with their
    paths. *)
Definition below (i : nat) (l : list (path * node D)) : list (path * node D) :=
  (λ pm, (i :: pm.1, pm.2)) <$> l.

Fixpoint descendants (n : node D) : list (path * node D) :=
  match n with
  | Node _ _ _ cs =>
      (fix from (i : nat) (cs : list (node D)) : list (path * node D) :=
         match cs with
         | [] => []
         | c :: cs' => ([i], c) :: below i (descendants c) ++ from (S i) cs'
         end) 0%nat cs
  end.

(** The descendants of the children [cs], the first child having index [i]. *)
Fixpoint descendants_from (i : nat) (cs : list (node D)) : list (path * node D) :=
  match cs with
  | [] => []
  | c :: cs' => ([i], c) :: below i (descendants c) ++ descendants_from (S i) cs'
  end.

(** ** Selectors *)

(** The selectors of the sources: a tag, possibly with a class
    (['defs'], ['pattern.checkerPattern'], ['polygon.border'], ...). *)
Record selector := Selector { sel_tag : string; sel_class : option string }.

(** The class list of an element: the words of its [class] attribute. *)
Definition classes (n : node D) : list string :=
  match getAttribute "class" n with
  | Some c => String.words c
  | None => []
  end.

Definition matches (s : selector) (n : node D) : bool :=
  String.eqb (tag n) (sel_tag s)
  && match sel_class s with
     | Some c => existsb (String.eqb c) (classes n)
     | None => true
     end.

(** [element.querySelectorAll(selector)], which [selection.selectAll] calls
    for each element of a selection. *)
Definition selectAll (s : selector) (n : node D) : list (path * node D) :=
  filter (λ pm, matches s pm.2 = true) (descendants n).

(** Remove the elements at the given paths, the last in document order
    first (so that the paths of the others stay valid). *)
Definition remove_all (ps : list path) (n : node D) : node D :=
  foldr remove n ps.

(** The number of descendants a selector matches, and the number of matches
    in a subtree, its root included. *)
Definition count (s : selector) (n : node D) : nat := length (selectAll s n).
Definition weight (s : selector) (c : node D) : nat :=
  ((if matches s c then 1 else 0) + count s c)%nat.

(** The idiom of the sources for one element [parent] of a selection:
<<
  let x = parent.selectAll(selector).data([d]);
  x = x.merge(x.enter().append(tag) ... );
  x.exit().remove();
>>
    The join binds the datum [d] to the first matching descendant, or, when
    there is none, appends a new element (to which [init], the calls chained
    after [append], is applied).  The merged selection has no exit
    selection, so the last statement removes nothing.  Returned are the new
    tree and the path of the joined element. *)
Definition join_one (s : selector) (t : string) (d : option D)
    (init : node D → node D) (parent : node D) : node D * path :=
  match head (selectAll s parent) with
  | Some (p, _) => (update p (set_datum d) parent, p)
  | None => (appendChild (init (element t d)) parent, [length (children parent)])
  end.

End WithDatum.
End Dom.

(* ===================================================================== *)
(** * [common.ts]: the checker pattern *)
(* ===================================================================== *)

Module Pattern.
Import Dom.
Abbreviation table := SvgIds.table.

Section WithDatum.
Context {D : Type}.

Definition defs_selector : selector := Selector "defs" None.
Definition pattern_selector : selector := Selector "pattern" (Some "checkerPattern").

(** The element built by
<<
  patterns.enter().append('pattern')
    .attr('id', () => generateSvgID('checkerPattern'))
    .attr('class', 'checkerPattern')
    .attr('viewBox', '0,0,10,10')
    .attr('width', 10)
    .attr('height', 10)
    .attr('patternUnits', 'userSpaceOnUse');
  newPatterns.append('path').attr('d', 'M0,0v10h10V0').attr('fill', '#555')
  newPatterns.append('path').attr('d', 'M0,5h10V0h-5v10H0').attr('fill', '#fff');
>>
    for the generated [id]. *)
Definition new_pattern (id : string) : node D :=
  let pattern :=
    attr "patternUnits" (Some "userSpaceOnUse")
      (attr "height" (Some "10")
         (attr "width" (Some "10")
            (attr "viewBox" (Some "0,0,10,10")
               (attr "class" (Some "checkerPattern")
                  (attr "id" (Some id) (element "pattern" None)))))) in
  let path1 :=
    attr "fill" (Some "#555")
      (attr "d" (Some "M0,0v10h10V0") (element "path" (datum pattern))) in
  let path2 :=
    attr "fill" (Some "#fff")
      (attr "d" (Some "M0,5h10V0h-5v10H0") (element "path" (datum pattern))) in
  appendChild path2 (appendChild path1 pattern).

(** The first three statements, for one element of the selection:
<<
  let defs = selection.selectAll('defs').data([null]);
  defs = defs.merge(defs.enter().append('defs'));
  defs.exit().remove();
>>
    The join binds [null] to the first [defs] descendant, or makes one. *)
Definition ensure_defs (svg : node D) : node D * path :=
  join_one defs_selector "defs" None (λ defs, defs) svg.

(** The rest of the function for one element of the selection:
<<
  let patterns = defs.selectAll('pattern.checkerPattern').data([null]);
  patterns.exit().remove();
  let newPatterns = patterns.enter().append('pattern') ...
  return patterns.merge(newPatterns).attr('id');
>>
    Returned are the new tree, the new table of ids and the [id] attribute
    of the pattern. *)
Definition ensure_pattern (svg : node D) (svgIDs : table) :
    node D * table * option string :=
  let '(svg1, defs) := ensure_defs svg in
  let patterns :=
    match get defs svg1 with
    | Some d => selectAll pattern_selector d
    | None => []
    end in
  let svg2 := update defs (remove_all ((tail patterns).*1)) svg1 in
  match head patterns with
  | Some (q, _) =>
      let svg3 := update defs (update q (set_datum None)) svg2 in
      (svg3, svgIDs, from_option (getAttribute "id") None (get (defs ++ q) svg3))
  | None =>
      let '(id, svgIDs') := SvgIds.generateSvgID "checkerPattern" svgIDs in
      let svg3 := update defs (appendChild (new_pattern id)) svg2 in
      (svg3, svgIDs', Some id)
  end.

(** The element has no checker pattern yet: its first [defs] descendant, if
    there is one, holds no [pattern.checkerPattern]. *)
Definition no_checker_pattern (svg : node D) : Prop :=
  match head (selectAll defs_selector svg) with
  | Some (_, d) => selectAll pattern_selector d = []
  | None => True
  end.

(** What the function returns: the [id] attribute of the first pattern, or
    [null]; on an empty selection [attr('id')] throws a [TypeError]. *)
Inductive returned := Id (id : option string) | Throws.

(** [export function ensureCheckerPattern(selection): string], on the
    elements of the selection in order. *)
Fixpoint ensure_patterns (selection : list (node D)) (svgIDs : table) :
    list (node D * option string) * table :=
  match selection with
  | [] => ([], svgIDs)
  | svg :: rest =>
      let '(svg', t1, id) := ensure_pattern svg svgIDs in
      let '(done, t2) := ensure_patterns rest t1 in
      ((svg', id) :: done, t2)
  end.

Definition ensureCheckerPattern (selection : list (node D)) (svgIDs : table) :
    returned * list (node D) * table :=
  let '(done, svgIDs') := ensure_patterns selection svgIDs in
  (match head done with Some (_, id) => Id id | None => Throws end,
   done.*1, svgIDs').

End WithDatum.
End Pattern.

(* ===================================================================== *)
(** * [common.ts]: the linear gradient *)
(* ===================================================================== *)

Module Gradient.
Import Dom.

(** The selector [`linearGradient#${id}`] is a type selector with an id
    selector when the text of [id] is a CSS identifier.  The model covers
    the identifiers that are written without escapes and start with a letter
    or an underscore, followed by letters, digits, dashes and underscores.
    With another text the selector reads differently or is a syntax error;
    for those the model gives no result. *)
Definition is_letter (c : Ascii.ascii) : bool :=
  let n := Ascii.nat_of_ascii c in
  ((65 <=? n)%nat && (n <=? 90)%nat) || ((97 <=? n)%nat && (n <=? 122)%nat).

Definition is_digit (c : Ascii.ascii) : bool :=
  let n := Ascii.nat_of_ascii c in (48 <=? n)%nat && (n <=? 57)%nat.

(** The codes of the underscore and of the dash are 95 and 45. *)
Definition ident_start (c : Ascii.ascii) : bool :=
  is_letter c || (Ascii.nat_of_ascii c =? 95)%nat.

Definition ident_char (c : Ascii.ascii) : bool :=
  ident_start c || is_digit c || (Ascii.nat_of_ascii c =? 45)%nat.

Definition css_identifier (s : string) : bool :=
  match s with
  | EmptyString => false
  | String c s' => ident_start c && forallb ident_char (String.list_ascii_of_string s')
  end.

Section WithDatum.
Context {D : Type}.

(** [querySelectorAll] for a selector given by its test on elements, and
    the join idiom of [join_one] for such a selector. *)
Definition select_by (test : node D → bool) (n : node D) : list (path * node D) :=
  filter (λ pm, test pm.2 = true) (descendants n).

Definition join_by (test : node D → bool) (t : string) (d : option D)
    (init : node D → node D) (parent : node D) : node D * path :=
  match head (select_by test parent) with
  | Some (p, _) => (update p (set_datum d) parent, p)
  | None => (appendChild (init (element t d)) parent, [length (children parent)])
  end.

(** The test of [linearGradient#id]. *)
Definition gradient_matches (id : string) (n : node D) : bool :=
  String.eqb (tag n) "linearGradient"
  && bool_decide (getAttribute "id" n = Some id).

(** The function for one element of the selection:
<<
  let defs = selection.selectAll('defs').data([null]);
  defs = defs.merge(defs.enter().append('defs'));
  defs.exit().remove();
  let gradient = defs.selectAll(`linearGradient#${id}`).data([null]);
  gradient = gradient.merge(gradient.enter().append('linearGradient')
    .attr('id', id));
  gradient.exit().remove();
  return gradient;
>>
    The first three statements are those of [ensureCheckerPattern].  Returned
    are the new tree and the path of the gradient element in it. *)
Definition create_gradient (id : string) (svg : node D) : node D * path :=
  let '(svg1, defs) := Pattern.ensure_defs svg in
  let join :=
    join_by (gradient_matches id) "linearGradient" None (attr "id" (Some id)) in
  (update defs (λ d, (join d).1) svg1,
   defs ++ from_option (λ d, (join d).2) [] (get defs svg1)).

(** [export function createGradient(selection, id)], on the elements of the
    selection in order. *)
Definition createGradient (selection : list (node D)) (id : string) :
    option (list (node D * path)) :=
  if css_identifier id then Some (create_gradient id <$> selection) else None.

End WithDatum.
End Gradient.


(* ===================================================================== *)
(** * [editor/handle.ts]: the colour handle *)
(* ===================================================================== *)

Module Handle.
Import Dom.

(** [export function constant<T>(d: T): T { return d; }] *)
Definition constant {T : Type} (d : T) : T := d.

(** The value of [color]: an accessor from the datum (which may be [null])
    to a colour (or [null]), or a colour. *)
Inductive color_value (D : Type) :=
| ColorFn (f : option D → option string)
| ColorStr (c : string).
Arguments ColorFn {D} f.
Arguments ColorStr {D} c.

(** The variables a handle closes over. *)
Record state (D : Type) := State {
  st_width : Q;
  st_height : Q;
  st_borderThickness : Q;
  st_color : color_value D;
}.
Arguments State {D}.
Arguments st_width {D}.
Arguments st_height {D}.
Arguments st_borderThickness {D}.
Arguments st_color {D}.

(** The variables of a new handle:
<<
  let width = 10;
  let height = 15;
  let borderThickness = 1;
  let color = constant as (data: Datum) => string;
>>
    The cast takes the data to be strings. *)
Definition initial : state string := State 10 15 1 (ColorFn constant).

Definition borderColor : string := "currentColor".
Definition triangleFill : string := "rgb(128, 128, 128)".

Definition border_selector : selector := Selector "polygon" (Some "border").
Definition triangle_selector : selector := Selector "polygon" (Some "triangle").
Definition bbox_selector : selector := Selector "polygon" (Some "bbox").
Definition box_selector : selector := Selector "polygon" (Some "box").

Section Render.
Context {D : Type}.
(** The conversion of a number to a string in template literals and
    attribute values. *)
Variable fmt : Q → string.

(** [selection.attr('fill', color)] on one element: an accessor is called
    with the datum of the element. *)
Definition attr_color (name : string) (c : color_value D) (n : node D) : node D :=
  match c with
  | ColorFn f => attr name (f (datum n)) n
  | ColorStr v => attr name (Some v) n
  end.

(** The body of [colorHandle(selection)] for one element of the selection. *)
Definition render_one (st : state D) (container : node D) : node D :=
  let h := st_height st in
  let w := st_width st in
  let c := (w / 2)%Q in
  (* border *)
  let '(n1, border) :=
    join_one border_selector "polygon" None
      (λ e, attr "fill" (Some "transparent")
              (attr "stroke-linejoin" (Some "round")
                 (attr "stroke" (Some borderColor)
                    (attr "class" (Some "border") e))))
      container in
  let n2 :=
    update border
      (λ e, attr "points"
              (Some ("0 0, " +:+ fmt c +:+ " " +:+ fmt c +:+ ", "
                     +:+ fmt c +:+ " " +:+ fmt (c + h) +:+ ", "
                     +:+ fmt (- c) +:+ " " +:+ fmt (c + h) +:+ ", "
                     +:+ fmt (- c) +:+ " " +:+ fmt c))
              (attr "stroke-width" (Some (fmt (2 * st_borderThickness st))) e))
      n1 in
  (* triangle *)
  let '(n3, triangle) :=
    join_one triangle_selector "polygon" None
      (λ e, attr "fill" (Some triangleFill)
              (attr "stroke-width" (Some "0")
                 (attr "class" (Some "triangle") e)))
      n2 in
  let n4 :=
    update triangle
      (attr "points"
         (Some ("0 0, " +:+ fmt c +:+ " " +:+ fmt c +:+ ", "
                +:+ fmt (- c) +:+ " " +:+ fmt c)))
      n3 in
  let boxPoints :=
    "0 0, " +:+ fmt w +:+ " 0, " +:+ fmt w +:+ " " +:+ fmt h
    +:+ ", 0 " +:+ fmt h in
  let translate := "translate(" +:+ fmt (- c) +:+ ", " +:+ fmt c +:+ ")" in
  (* bbox *)
  let '(n5, bbox) :=
    join_one bbox_selector "polygon" None
      (λ e, attr "fill" (Some "url(#checkerPattern)")
              (attr "stroke-width" (Some "0")
                 (attr "class" (Some "bbox") e)))
      n4 in
  let n6 :=
    update bbox
      (λ e, attr "transform" (Some translate) (attr "points" (Some boxPoints) e))
      n5 in
  (* box: [.data(d => [d])] joins with the datum of the container *)
  let '(n7, box) :=
    join_one box_selector "polygon" (datum container)
      (λ e, attr "stroke-width" (Some "0") (attr "class" (Some "box") e))
      n6 in
  update box
    (λ e, attr "transform" (Some translate)
            (attr "points" (Some boxPoints)
               (attr_color "fill" (st_color st) e)))
    n7.

(** No polygon of a handle is in the element yet. *)
Definition fresh_container (n : node D) : Prop :=
  selectAll border_selector n = [] ∧ selectAll triangle_selector n = []
  ∧ selectAll bbox_selector n = [] ∧ selectAll box_selector n = [].

(** A polygon of a handle: a [polygon] without children whose class list is
    [cls]. *)
Definition handle_polygon (cls : string) (e : node D) : Prop :=
  tag e = "polygon" ∧ classes e = [cls] ∧ children e = [].

(** The element holds the polygons of a handle, rendered into it earlier
    (its last four children) when it held none. *)
Definition rendered_container (n : node D) : Prop :=
  ∃ n0 border triangle bbox box,
    fresh_container n0
    ∧ children n = children n0 ++ [border; triangle; bbox; box]
    ∧ handle_polygon "border" border ∧ handle_polygon "triangle" triangle
    ∧ handle_polygon "bbox" bbox ∧ handle_polygon "box" box.

(** The handle called on a selection. *)
Definition render (st : state D) (selection : list (node D)) : list (node D) :=
  render_one st <$> selection.

End Render.

(** ** Handles as objects

    [colorHandle()] returns a new function object with its own variables;
    the store holds the variables of the handles made so far. *)
Abbreviation handles D := (list (state D)).

Definition colorHandle (hs : handles string) : nat * handles string :=
  (length hs, hs ++ [initial]).

(** What a property call returns: the handle itself, or a value. *)
Inductive reply (D : Type) :=
| Chained (handle : nat)
| ColorValue (c : color_value D)
| NumberValue (q : Q)
| NoSuchHandle.
Arguments Chained {D} handle.
Arguments ColorValue {D} c.
Arguments NumberValue {D} q.
Arguments NoSuchHandle {D}.

Section Properties.
Context {D : Type}.

(** The common shape of the four properties:
    [return arguments.length ? (x = _, colorHandle) : x;]
    An absent argument is [None]. *)
Definition property {A} (read : state D → reply D) (write : A → state D → state D)
    (arg : option A) (handle : nat) (hs : handles D) : reply D * handles D :=
  match hs !! handle with
  | None => (NoSuchHandle, hs)
  | Some st =>
      match arg with
      | Some v => (Chained handle, <[handle := write v st]> hs)
      | None => (read st, hs)
      end
  end.

Definition color :=
  property (λ st, ColorValue (st_color st))
    (λ v st, State (st_width st) (st_height st) (st_borderThickness st) v).

Definition height :=
  property (λ st, NumberValue (st_height st))
    (λ v st, State (st_width st) v (st_borderThickness st) (st_color st)).

Definition width :=
  property (λ st, NumberValue (st_width st))
    (λ v st, State v (st_height st) (st_borderThickness st) (st_color st)).

Definition borderThickness :=
  property (λ st, NumberValue (st_borderThickness st))
    (λ v st, State (st_width st) (st_height st) v (st_color st)).

End Properties.
End Handle.

(** ** The settings of the four polygons

    The attributes a polygon of each class gets when it is created (the
    calls chained after [append]) and those set on every call of the handle,
    as [colorHandle] writes them. *)
Module HandleParts.
Import Dom Handle.

Section Parts.
Context {D : Type}.
Variable fmt : Q → string.

Definition border_enter (e : node D) : node D :=
  attr "fill" (Some "transparent")
    (attr "stroke-linejoin" (Some "round")
       (attr "stroke" (Some borderColor) (attr "class" (Some "border") e))).

Definition triangle_enter (e : node D) : node D :=
  attr "fill" (Some triangleFill)
    (attr "stroke-width" (Some "0") (attr "class" (Some "triangle") e)).

Definition bbox_enter (e : node D) : node D :=
  attr "fill" (Some "url(#checkerPattern)")
    (attr "stroke-width" (Some "0") (attr "class" (Some "bbox") e)).

Definition box_enter (e : node D) : node D :=
  attr "stroke-width" (Some "0") (attr "class" (Some "box") e).

(** [`0 0, ${w} 0, ${w} ${h}, 0 ${h}`] and [`translate(${-c}, ${c})`]. *)
Definition boxPoints (st : state D) : string :=
  "0 0, " +:+ fmt (st_width st) +:+ " 0, " +:+ fmt (st_width st) +:+ " "
  +:+ fmt (st_height st) +:+ ", 0 " +:+ fmt (st_height st).

Definition translate (st : state D) : string :=
  "translate(" +:+ fmt (- (st_width st / 2)) +:+ ", "
  +:+ fmt (st_width st / 2) +:+ ")".

Definition border_update (st : state D) (e : node D) : node D :=
  let c := (st_width st / 2)%Q in
  let h := st_height st in
  attr "points"
    (Some ("0 0, " +:+ fmt c +:+ " " +:+ fmt c +:+ ", "
           +:+ fmt c +:+ " " +:+ fmt (c + h) +:+ ", "
           +:+ fmt (- c) +:+ " " +:+ fmt (c + h) +:+ ", "
           +:+ fmt (- c) +:+ " " +:+ fmt c))
    (attr "stroke-width" (Some (fmt (2 * st_borderThickness st))) e).

Definition triangle_update (st : state D) (e : node D) : node D :=
  let c := (st_width st / 2)%Q in
  attr "points"
    (Some ("0 0, " +:+ fmt c +:+ " " +:+ fmt c +:+ ", "
           +:+ fmt (- c) +:+ " " +:+ fmt c)) e.

Definition bbox_update (st : state D) (e : node D) : node D :=
  attr "transform" (Some (translate st)) (attr "points" (Some (boxPoints st)) e).

Definition box_update (st : state D) (e : node D) : node D :=
  attr "transform" (Some (translate st))
    (attr "points" (Some (boxPoints st))
       (attr_color "fill" (st_color st) e)).

End Parts.
End HandleParts.

(* ===================================================================== *)
(** * The colorbar renderer ([chromabar]), from its test-suite *)
(* ===================================================================== *)

Module Colorbar.

(** [export type Orientation = 'horizontal' | 'vertical';] *)
Inductive Orientation := horizontal | vertical.

(** A [rect] element of the bar, by the attributes the tests compare. *)
Record rect := Rect {
  fill : string;
  x : Z;
  y : Z;
  width : Z;
  height : Z;
}.

(** The gradient rects the test ['should produce the expected results']
    expects, in document order (vertical bar, [barLength(10)], default
    breadth 30). *)
Definition expected_vertical : list rect :=
  [ Rect "rgb(255, 0, 0)" 0 10 30 1;
    Rect "rgb(230, 0, 26)" 0 9 30 2;
    Rect "rgb(204, 0, 51)" 0 8 30 2;
    Rect "rgb(179, 0, 77)" 0 7 30 2;
    Rect "rgb(153, 0, 102)" 0 6 30 2;
    Rect "rgb(128, 0, 128)" 0 5 30 2;
    Rect "rgb(102, 0, 153)" 0 4 30 2;
    Rect "rgb(77, 0, 179)" 0 3 30 2;
    Rect "rgb(51, 0, 204)" 0 2 30 2;
    Rect "rgb(26, 0, 230)" 0 1 30 2;
    Rect "rgb(0, 0, 255)" 0 0 30 2 ]%Z.

(** The same for the test ['should produce the expected results when
    horizontal'] ([barLength(10)], [breadth(8)]); the test with the axis on
    the left side expects the same rects. *)
Definition expected_horizontal : list rect :=
  [ Rect "rgb(255, 0, 0)" 0 0 2 8;
    Rect "rgb(230, 0, 26)" 1 0 2 8;
    Rect "rgb(204, 0, 51)" 2 0 2 8;
    Rect "rgb(179, 0, 77)" 3 0 2 8;
    Rect "rgb(153, 0, 102)" 4 0 2 8;
    Rect "rgb(128, 0, 128)" 5 0 2 8;
    Rect "rgb(102, 0, 153)" 6 0 2 8;
    Rect "rgb(77, 0, 179)" 7 0 2 8;
    Rect "rgb(51, 0, 204)" 8 0 2 8;
    Rect "rgb(26, 0, 230)" 9 0 2 8;
    Rect "rgb(0, 0, 255)" 10 0 1 8 ]%Z.

(** The border rects of the two tests: [x], [y], [width], [height]. *)
Definition expected_border_vertical : rect := Rect "transparent" 0 0 30 11.
Definition expected_border_horizontal : rect := Rect "transparent" 0 0 11 8.

(** The colours of the eleven steps in both tests. *)
Definition expected_fills : list string :=
  [ "rgb(255, 0, 0)"; "rgb(230, 0, 26)"; "rgb(204, 0, 51)"; "rgb(179, 0, 77)";
    "rgb(153, 0, 102)"; "rgb(128, 0, 128)"; "rgb(102, 0, 153)";
    "rgb(77, 0, 179)"; "rgb(51, 0, 204)"; "rgb(26, 0, 230)"; "rgb(0, 0, 255)" ].

(** Modelled from the spec: the renderer [chromabar] (its source file is not
    among the sources) draws, for a continuous colour scale, one gradient
    rect per step [0 .. barLength] of the bar inside a border rect.  The
    layout generalises the expected output of the test-suite over the bar
    length and the breadth: the rect of step [i] lies at position [i] along
    the bar (counted from the far end when vertical), spans the breadth
    across, and is two units long, but one unit at the last position so
    that it ends with the border.  [colour i] is the colour of step [i]. *)
Definition gradient (o : Orientation) (barLength : nat) (breadth : Z)
    (colour : nat → string) : list rect :=
  (λ i : nat,
     match o with
     | vertical =>
         Rect (colour i) 0 (Z.of_nat (barLength - i)) breadth
           (if (i =? 0)%nat then 1 else 2)
     | horizontal =>
         Rect (colour i) (Z.of_nat i) 0
           (if (i =? barLength)%nat then 1 else 2) breadth
     end) <$> seq 0 (S barLength).

(** Modelled from the spec: the border rect spans the bar length plus one
    along the bar, and the breadth across. *)
Definition border (o : Orientation) (barLength : nat) (breadth : Z) : rect :=
  match o with
  | vertical => Rect "transparent" 0 0 breadth (Z.of_nat (S barLength))
  | horizontal => Rect "transparent" 0 0 (Z.of_nat (S barLength)) breadth
  end.

(** Position and length of a rect along the bar, and its position and size
    across. *)
Definition along (o : Orientation) (r : rect) : Z * Z :=
  match o with vertical => (y r, height r) | horizontal => (x r, width r) end.
Definition across (o : Orientation) (r : rect) : Z * Z :=
  match o with vertical => (x r, width r) | horizontal => (y r, height r) end.

(** The unit cell [k, k + 1) along the bar is covered by the rect. *)
Definition covers (o : Orientation) (r : rect) (k : Z) : Prop :=
  ((along o r).1 <= k < (along o r).1 + (along o r).2)%Z.

(** The rects tile the extent of the border [b] along the bar: every unit
    cell of the extent is covered by exactly one of them, and they cover no
    unit cell outside. *)
Definition tiles (o : Orientation) (rects : list rect) (b : rect) : Prop :=
  ∀ k : Z,
    (covers o b k →
     ∃ i r, rects !! i = Some r ∧ covers o r k
            ∧ ∀ j r', rects !! j = Some r' → covers o r' k → j = i)
    ∧ (∀ r, r ∈ rects → covers o r k → covers o b k).

End Colorbar.

(* ===================================================================== *)
(** * Facts about the id table *)
(* ===================================================================== *)

Section SvgIdsFacts.
Import SvgIds.

Lemma eqb_proto_false p : p ≠ "__proto__" → String.eqb p "__proto__" = false.
Proof. intros H. by apply String.eqb_neq. Qed.

Lemma plain_not_proto p : plain p → p ≠ "__proto__".
Proof. intros H ->. discriminate H. Qed.

(** What one call does to the entry of its own prefix. *)
Lemma generateSvgID_entry p t :
  p ≠ "__proto__" →
  generateSvgID p t =
    (p +:+ "-" +:+ to_string (or_zero_plus_one (get t p)),
     <[p := or_zero_plus_one (get t p)]> t).
Proof.
  intros Hp. unfold generateSvgID, set, get at 1.
  rewrite (eqb_proto_false p Hp). by rewrite lookup_insert_eq.
Qed.

(** A call leaves the entries of all other prefixes alone. *)
Lemma generateSvgID_other p q t :
  p ≠ q → snd (generateSvgID p t) !! q = t !! q.
Proof.
  intros Hpq. unfold generateSvgID, set. simpl.
  destruct (String.eqb p "__proto__"); [done|]. by rewrite lookup_insert_ne.
Qed.

(** The table never gets an own property [__proto__]. *)
Lemma generateSvgID_no_own_proto p t :
  t !! "__proto__" = None → snd (generateSvgID p t) !! "__proto__" = None.
Proof.
  intros Ht. unfold generateSvgID, set. simpl.
  destruct (String.eqb p "__proto__") eqn:E; [done|].
  apply String.eqb_neq in E. by rewrite lookup_insert_ne.
Qed.

Lemma calls_cons p ps t :
  calls (p :: ps) t
  = (fst (generateSvgID p t) :: fst (calls ps (snd (generateSvgID p t))),
     snd (calls ps (snd (generateSvgID p t)))).
Proof.
  change (calls (p :: ps) t) with
    (let '(id, t1) := generateSvgID p t in
     let '(ids, t2) := calls ps t1 in (id :: ids, t2)).
  destruct (generateSvgID p t) as [id t1]. cbn [fst snd].
  by destruct (calls ps t1).
Qed.

Lemma calls_no_own_proto ps t :
  t !! "__proto__" = None → snd (calls ps t) !! "__proto__" = None.
Proof.
  revert t. induction ps as [|p ps IH]; intros t Ht; [done|].
  rewrite calls_cons. cbn [snd]. by apply IH, generateSvgID_no_own_proto.
Qed.

Lemma generateSvgID_counter p t n :
  plain p → counter_is t p n →
  generateSvgID p t = (p +:+ "-" +:+ pretty (n + 1)%N, <[p := JNum (n + 1)]> t).
Proof.
  intros Hp Hn. rewrite generateSvgID_entry by by apply plain_not_proto.
  assert (or_zero_plus_one (get t p) = JNum (n + 1)) as ->; [|done].
  unfold get. destruct Hn as [[-> ->] | ->].
  - unfold plain in Hp. by rewrite Hp.
  - unfold or_zero_plus_one. simpl. destruct (N.eqb_spec n 0) as [->|]; done.
Qed.

Lemma count_prefix_cons_eq p ps :
  count_prefix p (p :: ps) = (count_prefix p ps + 1)%N.
Proof.
  unfold count_prefix. rewrite filter_cons_True by done. simpl length. lia.
Qed.

Lemma count_prefix_cons_ne p q ps :
  q ≠ p → count_prefix p (q :: ps) = count_prefix p ps.
Proof. intros H. unfold count_prefix. by rewrite filter_cons_False. Qed.

(** In any sequence of calls, the call at position [k], if its prefix [p] is
    plain, returns [p-(n + c)] where [n] is the counter of [p] before the
    sequence and [c] the number of calls with [p] up to and including [k]. *)
Lemma calls_nth_from ps : ∀ t p n k,
  plain p → counter_is t p n → ps !! k = Some p →
  fst (calls ps t) !! k
  = Some (p +:+ "-" +:+ pretty (n + count_prefix p (take (S k) ps))%N).
Proof.
  induction ps as [|q ps IH]; intros t p n k Hp Hn Hk; [done|].
  rewrite calls_cons. cbn [fst]. destruct k as [|k].
  - injection Hk as ->. rewrite (generateSvgID_counter p t n Hp Hn).
    cbn [fst lookup list_lookup take]. rewrite count_prefix_cons_eq.
    rewrite take_0. done.
  - cbn [lookup list_lookup take] in *.
    destruct (decide (q = p)) as [->|Hne].
    + rewrite (generateSvgID_counter p t n Hp Hn). cbn [snd].
      rewrite (IH _ p (n + 1)%N k Hp); [|right; apply lookup_insert_eq|done].
      rewrite count_prefix_cons_eq.
      by rewrite <- N.add_assoc, (N.add_comm 1).
    + rewrite (IH _ p n k Hp); [by rewrite count_prefix_cons_ne| |done].
      unfold counter_is. by rewrite generateSvgID_other.
Qed.

(** From the empty table of a freshly loaded module: the n-th call with a
    plain prefix returns that prefix, a dash and n. *)
Lemma calls_nth ps p k :
  plain p → ps !! k = Some p →
  fst (calls ps ∅) !! k
  = Some (p +:+ "-" +:+ pretty (count_prefix p (take (S k) ps))).
Proof.
  intros Hp Hk.
  rewrite (calls_nth_from ps ∅ p 0%N k Hp); [done| |done].
  left. split; [done|]. apply lookup_empty.
Qed.

(** Two ids of the same plain prefix with different counters differ. *)
Lemma id_inj p (n m : N) :
  p +:+ "-" +:+ pretty n = p +:+ "-" +:+ pretty m → n = m.
Proof.
  intros H. apply (inj (String.app p)) in H.
  apply (inj (String.app "-")) in H. by apply (inj pretty) in H.
Qed.

Lemma string_length_app (a b : string) :
  String.length (a +:+ b) = String.length a + String.length b.
Proof. induction a as [|c a IH]; [done|]. cbn. by rewrite <- IH. Qed.

Lemma snoc_one_neq (s : string) : s ≠ s +:+ "1".
Proof.
  intros H. apply (f_equal String.length) in H.
  rewrite string_length_app in H. simpl in H. lia.
Qed.

(** The value stored by a call is never the one stored by the next one. *)
Lemma or_zero_plus_one_step x :
  to_string (or_zero_plus_one x)
  ≠ to_string (or_zero_plus_one (or_zero_plus_one x)).
Proof.
  assert (Hnum : ∀ n, to_string (or_zero_plus_one (JNum n))
                      ≠ to_string (or_zero_plus_one (or_zero_plus_one (JNum n)))).
  { intros n. unfold or_zero_plus_one. cbn [truthy].
    destruct (N.eqb_spec n 0) as [->|Hn]; cbn [negb].
    - vm_compute. discriminate.
    - cbn [truthy]. destruct (N.eqb_spec (n + 1) 0) as [?|_]; [lia|].
      cbn [negb to_string]. intros H. apply (inj pretty) in H. lia. }
  assert (Hstr : ∀ s, s ≠ "" →
            to_string (or_zero_plus_one (JStr s))
            ≠ to_string (or_zero_plus_one (or_zero_plus_one (JStr s)))).
  { intros s Hs. unfold or_zero_plus_one. cbn [truthy].
    destruct (String.eqb_spec s "") as [?|_]; [done|]. cbn [negb truthy to_string].
    destruct (String.eqb_spec (s +:+ "1") "") as [E|_].
    - apply (f_equal String.length) in E. rewrite string_length_app in E.
      simpl in E. lia.
    - cbn [negb to_string]. apply snoc_one_neq. }
  destruct x as [|n|s| |name].
  - apply (Hnum 0%N).
  - apply Hnum.
  - destruct (decide (s = "")) as [->|Hs]; [apply (Hnum 0%N)|by apply Hstr].
  - apply (Hstr "[object Object]"). discriminate.
  - apply (Hstr (native_source name)). discriminate.
Qed.

Lemma generateSvgID_twice_differ p t :
  p ≠ "__proto__" →
  fst (generateSvgID p t) ≠ fst (generateSvgID p (snd (generateSvgID p t))).
Proof.
  intros Hp. rewrite (generateSvgID_entry p t Hp). cbn [fst snd].
  rewrite (generateSvgID_entry p _ Hp). cbn [fst].
  unfold get at 2. rewrite lookup_insert_eq.
  intros H. apply (inj (String.app p)), (inj (String.app "-")) in H.
  by apply or_zero_plus_one_step in H.
Qed.

Lemma generateSvgID_entry_only p t t' :
  t !! p = t' !! p → fst (generateSvgID p t) = fst (generateSvgID p t').
Proof.
  intros H. unfold generateSvgID, set, get. cbn [fst].
  destruct (String.eqb p "__proto__").
  - by rewrite H.
  - rewrite !lookup_insert_eq. by rewrite H.
Qed.

End SvgIdsFacts.

Section SvgIdsClaims.
Import SvgIds.

(** C4 (failing input).  With the prefix [__proto__] the table entry is the
    accessor inherited from [Object.prototype]: the assignment is ignored and
    every call, after any earlier calls, returns the same string
    [__proto__-[object Object]]; two distinct calls do not return distinct
    ids. *)
Theorem generateSvgID_proto_repeats (earlier : list string) :
  let t0 := snd (calls earlier ∅) in
  let '(id1, t1) := generateSvgID "__proto__" t0 in
  let '(id2, _) := generateSvgID "__proto__" t1 in
  id1 = "__proto__-[object Object]" ∧ id2 = id1.
Proof.
  intros t0.
  assert (H0 : t0 !! "__proto__" = None) by by apply calls_no_own_proto.
  unfold generateSvgID, set, get. cbn [String.eqb Ascii.eqb Bool.eqb].
  rewrite H0. by vm_compute.
Qed.

(** C5 (counterexample).  Two calls with equal prefix arguments do not
    return equal results: the second call with prefix [a] returns [a-2],
    the first one [a-1]. *)
Lemma generateSvgID_equal_args_differ :
  ¬ (∀ (prefix : string) (t : table),
       fst (generateSvgID prefix (snd (generateSvgID prefix t)))
       = fst (generateSvgID prefix t)).
Proof. intros H. specialize (H "a" ∅). vm_compute in H. discriminate H. Qed.

(** C5 (amended).  The result of [generateSvgID] is determined by the prefix
    and by the entry of the table [svgIDs] for that prefix, and for a prefix
    that names no inherited property two successive calls return different
    ids. *)
Theorem generateSvgID_state_dependence (prefix : string) (t t' : table) :
  t !! prefix = t' !! prefix →
  fst (generateSvgID prefix t) = fst (generateSvgID prefix t')
  ∧ (plain prefix →
     fst (generateSvgID prefix t)
     ≠ fst (generateSvgID prefix (snd (generateSvgID prefix t)))).
Proof.
  intros H. split; [by apply generateSvgID_entry_only|].
  intros Hp. by apply generateSvgID_twice_differ, plain_not_proto.
Qed.

Lemma generateSvgID_state_dependence_witness :
  (∅ : table) !! "bar" = ({[ "foo" := JNum 3 ]} : table) !! "bar"
  ∧ fst (generateSvgID "bar" ∅) = fst (generateSvgID "bar" {[ "foo" := JNum 3 ]})
  ∧ plain "bar"
  ∧ fst (generateSvgID "bar" ∅)
    ≠ fst (generateSvgID "bar" (snd (generateSvgID "bar" ∅))).
Proof.
  split; [reflexivity|].
  destruct (generateSvgID_state_dependence "bar" ∅ {[ "foo" := JNum 3 ]} eq_refl)
    as [Hsame Hdiffer].
  split; [exact Hsame|]. split; [reflexivity|]. apply Hdiffer. reflexivity.
Defined.

End SvgIdsClaims.

(* ===================================================================== *)
(** * Facts about piecewise maps *)
(* ===================================================================== *)

Section PiecewiseFacts.
Import D3.

Lemma num_ltb_Fin a b : num_ltb (Fin a) (Fin b) = true ↔ (a < b)%Q.
Proof.
  unfold num_ltb. rewrite negb_true_iff. split.
  - intros H. apply Qnot_le_lt. intros Hle. apply Qle_bool_iff in Hle. congruence.
  - intros H. destruct (Qle_bool b a) eqn:E; [|done].
    apply Qle_bool_iff in E. exfalso. by apply (Qlt_not_le a b).
Qed.

Lemma num_ltb_Fin_false a b : num_ltb (Fin a) (Fin b) = false ↔ (b <= a)%Q.
Proof.
  unfold num_ltb. rewrite negb_false_iff. apply Qle_bool_iff.
Qed.

Lemma Qeq_bool_false_neq a b : Qeq_bool a b = false → ¬ (a == b)%Q.
Proof. intros H E. apply Qeq_bool_iff in E. congruence. Qed.

Lemma ascendingb_lookup l : ascendingb l = true →
  ∀ i j a b, (i <= j)%nat → l !! i = Some a → l !! j = Some b → (a <= b)%Q.
Proof.
  induction l as [|c l IH]; intros Hl i j a b Hij Hi Hj; [done|].
  assert (Htl : ascendingb l = true).
  { destruct l; [done|]. cbn in Hl. by apply andb_true_iff in Hl as [_ ?]. }
  assert (Hhd : ∀ k e, l !! k = Some e → (c <= e)%Q).
  { intros k. revert IH Hl Htl. clear. revert c.
    induction k as [|k IHk]; intros c IH Hl Htl e He.
    - destruct l as [|d l]; [done|]. injection He as ->.
      cbn in Hl. apply andb_true_iff in Hl as [H _]. by apply Qle_bool_iff.
    - destruct l as [|d l]; [done|]. cbn in He.
      apply Qle_trans with d.
      + cbn in Hl. apply andb_true_iff in Hl as [H _]. by apply Qle_bool_iff.
      + apply (IH Htl 0%nat (S k) d e); [lia|done|done]. }
  destruct i as [|i], j as [|j]; cbn in Hi, Hj.
  - injection Hi as <-. injection Hj as <-. apply Qle_refl.
  - injection Hi as <-. by apply (Hhd j).
  - lia.
  - apply (IH Htl i j); [lia|done|done].
Qed.

Lemma at_num_lookup (l : list Q) i e : l !! i = Some e → at_num l i = Fin e.
Proof. unfold at_num. by intros ->. Qed.

(** The binary search on an ascending array returns the position right of
    the entries that are at most [x]. *)
Lemma bisect_loop_spec a x : ascending a →
  ∀ steps lo hi, (hi - lo <= steps)%nat → (lo <= hi)%nat → (hi <= length a)%nat →
  let res := bisect_loop steps a x lo hi in
  (lo <= res <= hi)%nat
  ∧ (∀ m e, (lo <= m < res)%nat → a !! m = Some e → (e <= x)%Q)
  ∧ (∀ m e, (res <= m < hi)%nat → a !! m = Some e → (x < e)%Q).
Proof.
  intros Hasc. induction steps as [|steps IH]; intros lo hi Hsteps Hlohi Hhi.
  - cbn. split; [lia|]. split; intros m e Hm; lia.
  - cbn [bisect_loop]. destruct (Nat.ltb_spec lo hi) as [Hlt|Hge].
    2:{ cbn. split; [lia|]. split; intros m e Hm; lia. }
    set (mid := ((lo + hi) / 2)%nat).
    assert (Hmid : (lo <= mid < hi)%nat).
    { unfold mid. split.
      - apply Nat.div_le_lower_bound; lia.
      - apply Nat.Div0.div_lt_upper_bound; lia. }
    destruct (lookup_lt_is_Some_2 a mid) as [am Ham]; [lia|].
    rewrite (at_num_lookup a mid am Ham).
    destruct (num_ltb (Fin x) (Fin am)) eqn:E.
    + apply num_ltb_Fin in E.
      destruct (IH lo mid) as (Hr & Hl & Hu); [lia|lia|lia|].
      split; [lia|]. split; [exact Hl|].
      intros m e Hm He. destruct (Nat.lt_ge_cases m mid) as [Hmm|Hmm].
      * apply (Hu m e); [lia|done].
      * apply Qlt_le_trans with am; [done|]. by apply (Hasc mid m).
    + apply num_ltb_Fin_false in E.
      destruct (IH (mid + 1)%nat hi) as (Hr & Hl & Hu); [lia|lia|lia|].
      split; [lia|]. split; [|exact Hu].
      intros m e Hm He. destruct (Nat.le_gt_cases m mid) as [Hmm|Hmm].
      * apply Qle_trans with am; [|done]. by apply (Hasc m mid).
      * apply (Hl m e); [lia|done].
Qed.

Lemma bisectRight_spec a x lo hi :
  ascending a → (lo <= hi)%nat → (hi <= length a)%nat →
  let res := bisectRight a x lo hi in
  (lo <= res <= hi)%nat
  ∧ (∀ m e, (lo <= m < res)%nat → a !! m = Some e → (e <= x)%Q)
  ∧ (∀ m e, (res <= m < hi)%nat → a !! m = Some e → (x < e)%Q).
Proof. intros Hasc ??. by apply bisect_loop_spec. Qed.

(** *** Piecewise maps at their knots

    When the range of a piecewise map lists the values [f d] of a function
    at the domain values [d], values that the interpolator of the map leaves
    as they are, the map gives [f x] at every domain value [x]. *)

Lemma round_comp u v : (u == v)%Q → (round u == round v)%Q.
Proof. intros E. unfold round. by rewrite E. Qed.

Lemma rounded_comp i u v : (u == v)%Q → (rounded i u == rounded i v)%Q.
Proof. destruct i; [done|apply round_comp|done]. Qed.

Lemma round_whole (z : Z) : round (inject_Z z) = inject_Z z.
Proof.
  unfold round. f_equal.
  assert (H1 : (inject_Z z <= inject_Z z + (1 # 2))%Q).
  { rewrite <- (Qplus_0_r (inject_Z z)) at 1. by apply Qplus_le_r. }
  assert (H2 : (inject_Z z + (1 # 2) < inject_Z (z + 1))%Q).
  { rewrite inject_Z_plus. by apply Qplus_lt_r. }
  apply Qfloor_resp_le in H1. rewrite Qfloor_Z in H1.
  assert (H3 : (Qfloor (inject_Z z + (1 # 2)) < z + 1)%Z).
  { rewrite Zlt_Qlt. apply Qle_lt_trans with (2 := H2). apply Qfloor_le. }
  lia.
Qed.

Lemma rounded_idemp i q : rounded i (rounded i q) = rounded i q.
Proof. destruct i; [done| |done]. cbn. unfold round at 2. apply round_whole. Qed.

Lemma factory_apply (i : interpolator) (qa qb : Q) (t : num) :
  numeric i = true →
  match factory i (VNum qa) (VNum qb) with
  | inr r => inr (r t)
  | inl e => inl e
  end
  = inr (match t with
         | Fin t' => VNum (rounded i (qa * (1 - t') + qb * t'))
         | NaN => VNaN
         end) :> error + value.
Proof. intros Hi. destruct i, t; done. Qed.

Section Knot.
Variables (i : interpolator) (f : Q → Q).
Hypothesis i_numeric : numeric i = true.
Hypothesis f_comp : ∀ u v, (u == v)%Q → (f u == f v)%Q.
Hypothesis f_rounded : ∀ u, (rounded i (f u) == f u)%Q.

Lemma segment_at_knot a b x :
  (x == a ∨ x == b)%Q →
  ∃ q, match factory i (VNum (f a)) (VNum (f b)) with
       | inr r => inr (r (normalize (Fin a) (Fin b) x))
       | inl e => inl e
       end = inr (VNum q) ∧ (q == f x)%Q.
Proof using i_numeric f_comp f_rounded.
  intros Hx. rewrite factory_apply by done. cbn [normalize].
  destruct (Qeq_bool (b - a) 0) eqn:E;
    eexists; (split; [reflexivity|]);
    (apply Qeq_trans with (2 := f_rounded x)); apply rounded_comp.
  - apply Qeq_bool_iff in E.
    assert (Hba : (b == a)%Q).
    { rewrite <- (Qplus_0_l a), <- E. ring. }
    assert (Hxa : (x == a)%Q).
    { destruct Hx as [H|H]; [done|]. by rewrite H. }
    rewrite (f_comp b a Hba), (f_comp x a Hxa). ring.
  - apply Qeq_bool_false_neq in E.
    destruct Hx as [H|H].
    + rewrite (f_comp x a H), H. field. exact E.
    + rewrite (f_comp x b H), H. field. exact E.
Qed.

Lemma at_val_fmap_lookup (qs : list Q) k q :
  qs !! k = Some q → at_val (VNum <$> qs) k = VNum q.
Proof using Type. intros H. unfold at_val. by rewrite list_lookup_fmap, H. Qed.

Lemma segment_pick (a : list Q) x j :
  ascending a → length a = S j → (2 <= j)%nat →
  (∃ m e, a !! m = Some e ∧ (x == e)%Q) →
  let k := (bisectRight a x 1 j - 1)%nat in
  ∃ q, match factory i (at_val (VNum <$> (f <$> a)) k)
               (at_val (VNum <$> (f <$> a)) (k + 1)) with
       | inr r => inr (r (normalize (at_num a k) (at_num a (k + 1)) x))
       | inl e => inl e
       end = inr (VNum q) ∧ (q == f x)%Q.
Proof using i_numeric f_comp f_rounded.
  intros Hasc Hlen Hj (m & e & Hm & Hxe) k.
  destruct (bisectRight_spec a x 1 j Hasc) as (Hres & Hle & Hgt); [lia|lia|].
  fold k in Hres.
  set (res := bisectRight a x 1 j) in *.
  assert (Hk : (k + 1 = res)%nat) by (unfold k; lia).
  destruct (lookup_lt_is_Some_2 a k) as [ak Hak]; [lia|].
  destruct (lookup_lt_is_Some_2 a (k + 1)) as [bk Hbk]; [lia|].
  rewrite (at_val_fmap_lookup (f <$> a) k (f ak)),
    (at_val_fmap_lookup (f <$> a) (k + 1) (f bk))
    by (by rewrite list_lookup_fmap, ?Hak, ?Hbk).
  rewrite (at_num_lookup a k ak Hak), (at_num_lookup a (k + 1) bk Hbk).
  apply segment_at_knot.
  pose proof (lookup_lt_Some _ _ _ Hm) as Hmlt.
  destruct (Nat.le_gt_cases m k) as [Hmk|Hmk].
  - left. rewrite Hxe. apply Qle_antisym; [by apply (Hasc m k)|].
    destruct (decide (k = 0%nat)) as [->|Hne].
    + assert (m = 0%nat) as -> by lia. rewrite Hak in Hm. injection Hm as ->.
      apply Qle_refl.
    + rewrite <- Hxe. apply (Hle k); [lia|done].
  - right. rewrite Hxe. apply Qle_antisym; [|by apply (Hasc (k + 1)%nat m); [lia|..]].
    destruct (decide (res = j)) as [Hrj|Hrj].
    + assert (m = (k + 1)%nat) as -> by lia. rewrite Hbk in Hm. injection Hm as ->.
      apply Qle_refl.
    + exfalso. assert (Hlt : (x < bk)%Q).
      { apply (Hgt res); [lia|by rewrite <- Hk]. }
      apply (Qlt_not_le _ _ Hlt). rewrite Hxe. by apply (Hasc (k + 1)%nat m); [lia|..].
Qed.

Lemma piecewise_at_knot (a : list Q) (a0 al x : Q) :
  (2 <= length a)%nat →
  ascending a ∨ ascending (reverse a) →
  a !! 0%nat = Some a0 → a !! (length a - 1)%nat = Some al →
  ¬ (a0 == al)%Q →
  (∃ m e, a !! m = Some e ∧ (x == e)%Q) →
  ∃ q, piecewise a (VNum <$> (f <$> a)) (factory i) x = inr (VNum q)
       ∧ (q == f x)%Q.
Proof using i_numeric f_comp f_rounded.
  intros Hn Hmono H0 Hl Hne Hx.
  assert (Hrev0 : reverse a !! 0%nat = Some al).
  { rewrite reverse_lookup by lia. by rewrite <- Hl. }
  assert (Hrevl : reverse a !! (length a - 1)%nat = Some a0).
  { rewrite reverse_lookup by lia. rewrite <- H0; f_equal; lia. }
  unfold piecewise. rewrite !length_fmap, Nat.min_id.
  destruct (Nat.ltb_spec 2 (length a)) as [Hn3|Hn2].
  - (* polymap *)
    unfold polymap. rewrite !length_fmap, Nat.min_id.
    rewrite (at_num_lookup a _ al Hl), (at_num_lookup a _ a0 H0).
    destruct (num_ltb (Fin al) (Fin a0)) eqn:E.
    + apply num_ltb_Fin in E. rewrite <- !fmap_reverse.
      apply segment_pick.
      * destruct Hmono as [Ha|Ha]; [|done]. exfalso.
        apply (Qlt_not_le _ _ E). apply (Ha 0%nat (length a - 1)%nat); [lia|done|done].
      * rewrite length_reverse. lia.
      * lia.
      * destruct Hx as (m & e & Hm & Hxe).
        pose proof (lookup_lt_Some _ _ _ Hm) as Hmlt.
        exists (length a - S m)%nat, e. split; [|done].
        rewrite reverse_lookup by lia. rewrite <- Hm. f_equal. lia.
    + apply num_ltb_Fin_false in E.
      assert (Hlt : (a0 < al)%Q).
      { apply Qle_lt_or_eq in E as [?|?]; [done|by exfalso]. }
      apply segment_pick.
      * destruct Hmono as [Ha|Ha]; [done|]. exfalso.
        apply (Qlt_not_le _ _ Hlt).
        apply (Ha 0%nat (length a - 1)%nat); [lia|done|done].
      * lia.
      * lia.
      * done.
  - (* bimap *)
    assert (Hn' : length a = 2%nat) by lia.
    destruct a as [|a0' [|al' [|? ?]]]; try done.
    injection H0 as ->. injection Hl as ->.
    unfold bimap. cbn [at_num at_val fmap list_fmap lookup list_lookup default].
    assert (Hx' : (x == a0 ∨ x == al)%Q).
    { destruct Hx as ([|[|m]] & e & Hm & Hxe); [left|right|done];
        injection Hm as ->; done. }
    destruct (num_ltb (Fin al) (Fin a0)).
    + apply segment_at_knot. tauto.
    + by apply segment_at_knot.
Qed.

End Knot.

End PiecewiseFacts.

(* ===================================================================== *)
(** * Running scale operations on a store *)
(* ===================================================================== *)

Section StoreFacts.
Import D3.

Lemma bind_ok {A B} (m : M A) (k : A → M B) h a h' :
  m h = (inr a, h') → bind m k h = k a h'.
Proof. unfold bind. by intros ->. Qed.

Lemma bind_err {A B} (m : M A) (k : A → M B) h e h' :
  m h = (inl e, h') → bind m k h = (inl e, h').
Proof. unfold bind. by intros ->. Qed.

(** The store is written [h ++ l]: [h] holds the objects that exist when a
    function is entered, [l] the ones it has created since. *)
Lemma read_old (h l : heap) r s :
  h !! r = Some s → read r (h ++ l) = (inr s, h ++ l).
Proof. intros H. unfold read. by rewrite (lookup_app_l_Some _ _ _ _ H). Qed.

Lemma read_new (h l : heap) k s :
  l !! k = Some s → read (length h + k)%nat (h ++ l) = (inr s, h ++ l).
Proof. intros H. unfold read. by rewrite lookup_app_r, Nat.add_comm, Nat.add_sub, H by lia. Qed.

Lemma write_new (h l : heap) k s :
  write (length h + k)%nat s (h ++ l) = (inr (length h + k)%nat, h ++ <[k := s]> l).
Proof. unfold write. by rewrite insert_app_r. Qed.

Lemma alloc_app (h l : heap) s :
  alloc s (h ++ l) = (inr (length h + length l)%nat, h ++ (l ++ [s])).
Proof. unfold alloc. by rewrite length_app, app_assoc. Qed.

Lemma copy_old (h l : heap) r s :
  h !! r = Some s →
  copy r (h ++ l) = (inr (length h + length l)%nat, h ++ (l ++ [s])).
Proof.
  intros H. unfold copy. rewrite (bind_ok _ _ _ _ _ (read_old h l r s H)).
  apply alloc_app.
Qed.

Lemma set_domain_new (h l : heap) k s vs s' :
  l !! k = Some s → with_domain s vs = inr s' →
  set_domain (length h + k)%nat vs (h ++ l)
  = (inr (length h + k)%nat, h ++ <[k := s']> l).
Proof.
  intros Hk Hs. unfold set_domain.
  rewrite (bind_ok _ _ _ _ _ (read_new h l k s Hk)).
  unfold lift, bind. rewrite Hs. apply write_new.
Qed.

Lemma set_range_new (h l : heap) k s vs s' :
  l !! k = Some s → with_range s vs = inr s' →
  set_range (length h + k)%nat vs (h ++ l)
  = (inr (length h + k)%nat, h ++ <[k := s']> l).
Proof.
  intros Hk Hs. unfold set_range.
  rewrite (bind_ok _ _ _ _ _ (read_new h l k s Hk)).
  unfold lift, bind. rewrite Hs. apply write_new.
Qed.

Lemma read_plain (h : heap) r s : h !! r = Some s → read r h = (inr s, h).
Proof. intros H. unfold read. by rewrite H. Qed.

Lemma get_domain_plain (h : heap) r s :
  h !! r = Some s → get_domain r h = (inr (domain_of s), h).
Proof.
  intros H. unfold get_domain. by rewrite (bind_ok _ _ _ _ _ (read_plain h r s H)).
Qed.

Lemma at_val_fmap {A} (f : A → value) (l : list A) i a :
  l !! i = Some a → at_val (f <$> l) i = f a.
Proof. intros H. unfold at_val. by rewrite list_lookup_fmap, H. Qed.

Lemma get_domain_old (h l : heap) r s :
  h !! r = Some s → get_domain r (h ++ l) = (inr (domain_of s), h ++ l).
Proof.
  intros H. unfold get_domain. by rewrite (bind_ok _ _ _ _ _ (read_old h l r s H)).
Qed.

Lemma get_domain_new (h l : heap) k s :
  l !! k = Some s →
  get_domain (length h + k)%nat (h ++ l) = (inr (domain_of s), h ++ l).
Proof.
  intros H. unfold get_domain. by rewrite (bind_ok _ _ _ _ _ (read_new h l k s H)).
Qed.

Lemma get_range_new (h l : heap) k s :
  l !! k = Some s →
  get_range (length h + k)%nat (h ++ l) = (range_of s, h ++ l).
Proof.
  intros H. unfold get_range. by rewrite (bind_ok _ _ _ _ _ (read_new h l k s H)).
Qed.

(** Calling a continuous scale does not change the store. *)
Lemma call_new_continuous (h l : heap) n k i c ds rg x :
  l !! n = Some (Continuous k i c ds rg) →
  call (length h + n)%nat x (h ++ l)
  = (match number x with
     | inr x0 =>
         match clamped c ds x0 with
         | inr x1 =>
             match transform k x1 with
             | inr x2 =>
                 match map_err (transform k) ds with
                 | inr tds => piecewise tds rg (factory i) x2
                 | inl e => inl e
                 end
             | inl e => inl e
             end
         | inl e => inl e
         end
     | inl e => inl e
     end, h ++ l).
Proof.
  intros H. unfold call. rewrite (bind_ok _ _ _ _ _ (read_new h l n _ H)).
  unfold lift, bind. destruct (number x) as [|x0]; [done|].
  destruct (clamped c ds x0) as [|x1]; [done|].
  destruct (transform k x1) as [|x2]; [done|].
  by destruct (map_err (transform k) ds).
Qed.

(** In general the outcome of a call depends on the called object only; an
    ordinal scale may change itself, nothing else changes. *)
Lemma call_new (h l : heap) k s x :
  l !! k = Some s →
  call (length h + k)%nat x (h ++ l)
  = (fst (call 0%nat x [s]),
     h ++ <[k := default s (head (snd (call 0%nat x [s])))]> l).
Proof.
  intros H. unfold call.
  rewrite (bind_ok _ _ _ _ _ (read_new h l k _ H)).
  rewrite (bind_ok _ _ _ _ _ (read_new [] [s] 0 s eq_refl)).
  destruct s as [kd i c ds rg|ds rg u|ds r0 r1|x0 x1|ds].
  - unfold lift, bind. cbn [app].
    destruct (number x) as [e|x']; cbn; [by rewrite list_insert_id|].
    destruct (clamped c ds x'); cbn; [by rewrite list_insert_id|].
    destruct (transform kd _); cbn; [by rewrite list_insert_id|].
    destruct (map_err (transform kd) ds); cbn; [by rewrite list_insert_id|].
    destruct (piecewise _ rg _ _); cbn; by rewrite list_insert_id.
  - destruct (index_of x ds); cbn; [by rewrite list_insert_id|].
    destruct u; cbn; [by rewrite list_insert_id|].
    by rewrite insert_app_r.
  - destruct (index_of x ds); cbn; by rewrite list_insert_id.
  - cbn. by rewrite list_insert_id.
  - unfold lift, bind. cbn [app].
    destruct (number x); cbn; by rewrite list_insert_id.
Qed.

(** [invert] changes no object. *)
Lemma invert_plain (h : heap) r y : snd (invert r y h) = h.
Proof.
  unfold invert, bind, read.
  destruct (h !! r) as [[k i c ds rg| | | |ds]|]; try done.
  2:{ unfold lift. by destruct (number y). }
  unfold lift. destruct (number y); [done|]. destruct (map_err number rg); [done|].
  destruct (map_err (transform k) ds); [done|].
  destruct (piecewise _ _ _ _) as [|v]; [done|].
  destruct v as [| |q'| |]; try (by destruct k).
  destruct (transform k q'); [done|]. by destruct (clamped c ds _).
Qed.

Lemma invert_new (h l : heap) k s y :
  l !! k = Some s →
  invert (length h + k)%nat y (h ++ l) = (fst (invert 0%nat y [s]), h ++ l).
Proof.
  intros H.
  rewrite (surjective_pairing (invert (length h + k)%nat y (h ++ l))), invert_plain.
  f_equal. unfold invert.
  rewrite (bind_ok _ _ _ _ _ (read_new h l k _ H)).
  rewrite (bind_ok _ _ _ _ _ (read_new [] [s] 0 s eq_refl)).
  destruct s as [kd i c ds rg| | | |ds]; try done.
  2:{ unfold lift, bind, ret. cbn [app]. by destruct (number y). }
  unfold lift, bind, ret, throw. cbn [app].
  destruct (number y); [done|]. destruct (map_err number rg); [done|].
  destruct (map_err (transform kd) ds); [done|].
  destruct (piecewise _ _ _ _) as [|v]; [done|].
  destruct v as [| |q'| |]; try (by destruct kd).
  destruct (transform kd q'); [done|]. by destruct (clamped c ds _).
Qed.

End StoreFacts.

(** One step of a computation [let* x := m in k] on a store: the equation
    for [m] is found by the given tactic; an outcome that is not yet a
    value or an error is evaluated. *)
Ltac mstep tac :=
  lazymatch goal with
  | |- D3.bind ?m ?k ?h = _ =>
      let H := fresh "Hstep" in
      eassert (m h = _) as H by tac;
      lazymatch type of H with
      | _ = (inr _, _) => idtac
      | _ = (inl _, _) => idtac
      | _ = (?r, ?h0 ++ ?l) =>
          let v := eval vm_compute in r in
          let w := eval vm_compute in l in
          change (m h = (v, h0 ++ w)) in H
      end;
      first [ rewrite (bind_ok m k h _ _ H) | rewrite (bind_err m k h _ _ H) ];
      clear H; cbv beta;
      cbn [app length Nat.add insert list_insert]
  end.

(** Evaluate a test on a closed value. *)
Ltac mtest :=
  lazymatch goal with
  | |- (if ?b then _ else _) _ = _ =>
      let v := eval vm_compute in b in
      change b with v; cbv iota
  end.

Ltac new_setter := first [eapply set_domain_new | eapply set_range_new]; reflexivity.
Ltac new_call := first [eapply call_new | eapply invert_new]; reflexivity.

(* ===================================================================== *)
(** * Scale-type inference *)
(* ===================================================================== *)

Section CheckTypeFacts.
Import D3 Common.

Lemma checkType_run (h : heap) r sc :
  h !! r = Some sc →
  checkType r h = (type_of sc, h ++ probe_of sc).
Proof.
  intros Hr. rewrite <- (app_nil_r h) at 1. unfold checkType.
  mstep ltac:(exact (read_old h [] r sc Hr)).
  destruct sc as [k i c ds rg|ds rg [u|]|ds r0 r1|x0 x1|ds]; cbn [has_range negb].
  - (* continuous: the answer depends on the kind *)
    mstep ltac:(exact (copy_old h [] r _ Hr)).
    destruct k, i, c;
      repeat first [mstep new_setter | mstep new_call | mtest];
      reflexivity.
  - (* ordinal with an [unknown] value: the value is the answer of the probe *)
    mstep ltac:(exact (copy_old h [] r _ Hr)).
    mstep new_setter. mstep new_setter. mstep new_call.
    cbn [type_of]. destruct (strict_eq_num u 1); [reflexivity|].
    mstep new_setter. mstep new_setter. mstep new_call.
    reflexivity.
  - (* ordinal *)
    mstep ltac:(exact (copy_old h [] r _ Hr)).
    mstep new_setter. mstep new_setter. mstep new_call. mtest.
    reflexivity.
  - (* band: no [invert] method *)
    mstep ltac:(exact (copy_old h [] r _ Hr)).
    mstep new_setter. mstep new_setter. mstep new_call. mtest.
    mstep new_setter. mstep new_setter. mstep new_call.
    reflexivity.
  - reflexivity.
  - (* identity: it inverts as a linear scale does *)
    mstep ltac:(exact (copy_old h [] r _ Hr)).
    mstep new_setter. mstep new_setter. mstep new_call. mtest.
    mstep new_setter. mstep new_setter. mstep new_call. mtest.
    reflexivity.
Qed.

Lemma scaleIsOrdinal_run (h : heap) r sc :
  h !! r = Some sc →
  scaleIsOrdinal r h
  = (match type_of sc with
     | inr t => inr (String.eqb t "ordinal")
     | inl e => inl e
     end, h ++ probe_of sc).
Proof.
  intros Hr. unfold scaleIsOrdinal, bind. rewrite (checkType_run h r sc Hr).
  by destruct (type_of sc).
Qed.

End CheckTypeFacts.

(* ===================================================================== *)
(** * The axis scale of a continuous colour scale *)
(* ===================================================================== *)

Section AxisScaleFacts.
Import D3 Common.

Lemma Qeq_bool_sub_false a b : ¬ (a == b)%Q → Qeq_bool (b - a) 0 = false.
Proof.
  intros H. destruct (Qeq_bool (b - a) 0) eqn:E; [|done].
  apply Qeq_bool_iff in E. exfalso. apply H.
  symmetry. rewrite <- (Qplus_0_l a), <- E. ring.
Qed.

Lemma transformer_piecewise i t0 tl p0 p1 td :
  numeric i = true → ¬ (t0 == tl)%Q →
  piecewise [t0; tl] [VNum p0; VNum p1] (factory i) td
  = inr (VNum (pixel i t0 tl p0 p1 td)).
Proof.
  intros Hi Hne. unfold piecewise, bimap, pixel, transformer_pixel.
  cbn [length Nat.min Nat.ltb Nat.leb at_num at_val lookup list_lookup default].
  unfold id.
  destruct (num_ltb (Fin tl) (Fin t0)); rewrite factory_apply by done;
    cbn [normalize].
  - rewrite Qeq_bool_sub_false; [done|]. intros E. apply Hne. by symmetry.
  - by rewrite Qeq_bool_sub_false.
Qed.

Lemma transformer_pixel_line d0 dl p0 p1 d :
  ¬ (d0 == dl)%Q →
  (transformer_pixel d0 dl p0 p1 d == p0 + (d - d0) * (p1 - p0) / (dl - d0))%Q.
Proof.
  intros Hne.
  assert (H1 : ¬ (dl - d0 == 0)%Q).
  { intros E. apply Hne. symmetry. rewrite <- (Qplus_0_l d0), <- E. ring. }
  assert (H2 : ¬ (d0 - dl == 0)%Q).
  { intros E. apply Hne. rewrite <- (Qplus_0_l dl), <- E. ring. }
  unfold transformer_pixel. destruct (num_ltb (Fin dl) (Fin d0)); field; done.
Qed.

Lemma pixel_comp i d0 dl p0 p1 u v :
  (u == v)%Q → (pixel i d0 dl p0 p1 u == pixel i d0 dl p0 p1 v)%Q.
Proof.
  intros E. apply rounded_comp. unfold transformer_pixel.
  destruct (num_ltb (Fin dl) (Fin d0)); by rewrite E.
Qed.

Lemma pixel_rounded i d0 dl p0 p1 u :
  (rounded i (pixel i d0 dl p0 p1 u) == pixel i d0 dl p0 p1 u)%Q.
Proof. unfold pixel. by rewrite rounded_idemp. Qed.

(** Clamping leaves the numbers between the ends of the domain. *)
Lemma clamper_between ds d0 dl d :
  head ds = Some d0 → last ds = Some dl → between d0 d dl →
  clamper ds d = inr d.
Proof.
  intros H0 Hl Hd. unfold clamper. rewrite H0, Hl. f_equal.
  assert (Hhi : (d <= (if Qle_bool d0 dl then dl else d0))%Q).
  { destruct (Qle_bool d0 dl) eqn:E.
    - apply Qle_bool_iff in E. destruct Hd as [[_ H]|[_ H]]; [done|].
      by apply Qle_trans with d0.
    - destruct Hd as [[_ H]|[_ H]]; [|done].
      apply Qle_trans with dl; [done|]. apply Qlt_le_weak, Qnot_le_lt.
      intros H'. apply Qle_bool_iff in H'. congruence. }
  assert (Hlo : ((if Qle_bool d0 dl then d0 else dl) <= d)%Q).
  { destruct (Qle_bool d0 dl) eqn:E.
    - apply Qle_bool_iff in E. destruct Hd as [[H _]|[H _]]; [done|].
      by apply Qle_trans with dl.
    - destruct Hd as [[H _]|[H _]]; [|done].
      apply Qle_trans with d0; [|done]. apply Qlt_le_weak, Qnot_le_lt.
      intros H'. apply Qle_bool_iff in H'. congruence. }
  apply Qle_bool_iff in Hhi. rewrite Hhi.
  apply Qle_bool_iff in Hlo. by rewrite Hlo.
Qed.

Lemma clamped_between c ds d0 dl d :
  head ds = Some d0 → last ds = Some dl → between d0 d dl →
  clamped c ds d = inr d.
Proof. destruct c; [apply clamper_between|done]. Qed.

(** A time scale holds whole milliseconds: its domain values are dates that
    stand for the numbers of the domain. *)
Lemma whole_inject d : whole d = true → inject_Z (whole_ms d) = d.
Proof.
  destruct d as [n m]. unfold whole, whole_ms, inject_Z. cbn [Qnum Qden].
  intros ->%Pos.eqb_eq. by rewrite Z.quot_1_r.
Qed.

Lemma numeric_domain_values k i c ds rg ds' d :
  numeric_domain (Continuous k i c ds rg) = Some ds' → d ∈ ds →
  ds' = ds
  ∧ number (domain_value k d) = inr d
  ∧ coerce k (domain_value k d) = inr d.
Proof.
  intros Hnum Hd. destruct k; cbn in Hnum.
  - by injection Hnum as <-.
  - destruct (forallb whole ds) eqn:E; [|done]. injection Hnum as <-.
    rewrite forallb_forall in E. apply list_elem_of_In, E in Hd.
    cbn. by rewrite (whole_inject d Hd).
  - by injection Hnum as <-.
Qed.

Lemma map_err_cons_inv {A B} (f : A → error + B) a l bs :
  map_err f (a :: l) = inr bs →
  ∃ b bs', bs = b :: bs' ∧ f a = inr b ∧ map_err f l = inr bs'.
Proof.
  cbn. destruct (f a) as [|b]; [by destruct (map_err f l)|].
  destruct (map_err f l) as [|bs']; [done|]. intros [= <-]. by exists b, bs'.
Qed.

Lemma map_err_lookup {A B} (f : A → error + B) l : ∀ bs n a,
  map_err f l = inr bs → l !! n = Some a →
  ∃ b, bs !! n = Some b ∧ f a = inr b.
Proof.
  induction l as [|a' l IH]; intros bs n a Hm Hn; [done|].
  apply map_err_cons_inv in Hm as (b & bs' & -> & Hb & Hm).
  destruct n as [|n].
  - injection Hn as <-. by exists b.
  - by apply (IH bs' n a).
Qed.

Lemma map_err_length {A B} (f : A → error + B) l : ∀ bs,
  map_err f l = inr bs → length bs = length l.
Proof.
  induction l as [|a l IH]; intros bs Hm.
  - by injection Hm as <-.
  - apply map_err_cons_inv in Hm as (b & bs' & -> & _ & Hm). cbn.
    by rewrite (IH bs' Hm).
Qed.

(** The transformer, called on a value between the ends of its domain. *)
Lemma transformer_call (h l : heap) n k i c d0 dl t0 tl p0 p1 v d td :
  l !! n = Some (Continuous k i c [d0; dl] [VNum p0; VNum p1]) →
  numeric i = true →
  transform k d0 = inr t0 → transform k dl = inr tl → ¬ (t0 == tl)%Q →
  number v = inr d → between d0 d dl → transform k d = inr td →
  call (length h + n)%nat v (h ++ l)
  = (inr (VNum (pixel i t0 tl p0 p1 td)), h ++ l).
Proof.
  intros Hn Hi H0 Hl Hne Hv Hd Htd.
  rewrite (call_new_continuous h l n _ _ _ _ _ v Hn), Hv.
  rewrite (clamped_between c [d0; dl] d0 dl d eq_refl eq_refl Hd), Htd.
  cbn [map_err]. rewrite H0, Hl. by rewrite transformer_piecewise.
Qed.

(** Mapping the domain through the transformer. *)
Lemma mapM_call_transformer (h l : heap) n k i c d0 dl t0 tl p0 p1
    (inj : Q → value) ds tds :
  l !! n = Some (Continuous k i c [d0; dl] [VNum p0; VNum p1]) →
  numeric i = true →
  transform k d0 = inr t0 → transform k dl = inr tl → ¬ (t0 == tl)%Q →
  map_err (transform k) ds = inr tds →
  Forall (λ d, number (inj d) = inr d ∧ between d0 d dl) ds →
  mapM (λ v, call (length h + n)%nat v) (inj <$> ds) (h ++ l)
  = (inr (VNum <$> (pixel i t0 tl p0 p1 <$> tds)), h ++ l).
Proof.
  intros Hn Hi H0 Hl Hne. revert tds.
  induction ds as [|d ds IH]; intros tds Hm Hds.
  - by injection Hm as <-.
  - apply map_err_cons_inv in Hm as (td & tds' & -> & Htd & Hm).
    apply Forall_cons in Hds as [[Hv Hd] Hds].
    cbn [fmap list_fmap mapM].
    erewrite bind_ok; [|by apply (transformer_call h l n k i c d0 dl t0 tl p0 p1 _ d td)].
    fold (fmap (M:=list) inj ds). by rewrite (bind_ok _ _ _ _ _ (IH tds' Hm Hds)).
Qed.

Lemma monotonous_ascending ds :
  monotonous ds → ascending ds ∨ ascending (reverse ds).
Proof. intros [H|H]; [left|right]; exact (ascendingb_lookup _ H). Qed.

(** In a monotonous list every entry lies between the first and the last. *)
Lemma monotonous_between ds d0 dl d :
  monotonous ds → ds !! 0%nat = Some d0 → ds !! (length ds - 1)%nat = Some dl →
  d ∈ ds → between d0 d dl.
Proof.
  intros Hmono H0 Hl Hd. apply list_elem_of_lookup in Hd as [i Hi].
  pose proof (lookup_lt_Some _ _ _ Hi) as Hlt.
  destruct (monotonous_ascending ds Hmono) as [Ha|Ha]; [left|right]; split.
  - apply (Ha 0%nat i); [lia|done|done].
  - apply (Ha i (length ds - 1)%nat); [lia|done|done].
  - apply (Ha 0%nat (length ds - 1 - i)%nat); [lia| |].
    + rewrite reverse_lookup by lia. rewrite <- Hl; f_equal; lia.
    + rewrite reverse_lookup by lia. rewrite <- Hi; f_equal; lia.
  - apply (Ha (length ds - 1 - i)%nat (length ds - 1)%nat); [lia| |].
    + rewrite reverse_lookup by lia. rewrite <- Hi; f_equal; lia.
    + rewrite reverse_lookup by lia. rewrite <- H0; f_equal; lia.
Qed.

(** The store after [makeAxisScale] on a continuous scale: the probe of the
    type inference, the transformer, and the axis scale. *)
Lemma makeAxisScale_continuous_run (h : heap) r k i c ds rg tds d0 dl t0 tl p0 p1 :
  h !! r = Some (Continuous k i c ds rg) →
  numeric i = true →
  numeric_domain (Continuous k i c ds rg) = Some ds →
  monotonous ds →
  ds !! 0%nat = Some d0 → ds !! (length ds - 1)%nat = Some dl →
  map_err (transform k) ds = inr tds →
  tds !! 0%nat = Some t0 → tds !! (length tds - 1)%nat = Some tl →
  ¬ (t0 == tl)%Q →
  makeAxisScale r [p0; p1] h
  = (inr (length h + 2)%nat,
     h ++ [Continuous k i c [1; 2]%Q one_two;
           Continuous k i c [d0; dl] [VNum p0; VNum p1];
           Continuous k i c ds (VNum <$> (pixel i t0 tl p0 p1 <$> tds))]).
Proof.
  intros Hr Hi Hnum Hmono H0 Hl Hm Ht0 Htl Hne.
  assert (Hd0 : d0 ∈ ds) by by apply (list_elem_of_lookup_2 _ 0%nat).
  assert (Hdl : dl ∈ ds) by by apply (list_elem_of_lookup_2 _ _ _ Hl).
  destruct (numeric_domain_values k i c ds rg ds d0 Hnum Hd0) as (_ & _ & Hc0).
  destruct (numeric_domain_values k i c ds rg ds dl Hnum Hdl) as (_ & _ & Hcl).
  destruct (map_err_lookup _ _ _ _ _ Hm H0) as (t0' & Ht0' & HT0).
  rewrite Ht0 in Ht0'. injection Ht0' as <-.
  destruct (map_err_lookup _ _ _ _ _ Hm Hl) as (tl' & Htl' & HTl).
  rewrite <- (map_err_length _ _ _ Hm), Htl in Htl'. injection Htl' as <-.
  assert (Hvals : Forall (λ d, number (domain_value k d) = inr d ∧ between d0 d dl) ds).
  { apply Forall_forall. intros d Hd. split.
    - by destruct (numeric_domain_values k i c ds rg ds d Hnum Hd) as (_ & ? & _).
    - by apply (monotonous_between ds). }
  unfold makeAxisScale.
  mstep ltac:(exact (get_domain_plain h r _ Hr)).
  assert (Hty : ∃ ty, type_of (Continuous k i c ds rg) = inr ty
                      ∧ String.eqb ty "ordinal" = false).
  { destruct k; by eexists. }
  destruct Hty as (ty & Hty & Hord).
  mstep ltac:(rewrite (scaleIsOrdinal_run h r _ Hr), Hty, Hord; reflexivity).
  cbv iota.
  mstep ltac:(exact (read_old h _ r _ Hr)). cbn [has_range has_invert andb].
  mstep ltac:(exact (copy_old h _ r _ Hr)).
  cbn [domain_of]. rewrite length_fmap.
  rewrite (at_val_fmap (domain_value k) ds _ _ H0),
    (at_val_fmap (domain_value k) ds _ _ Hl).
  mstep ltac:(eapply set_domain_new;
              [reflexivity|cbn [with_domain map_err]; rewrite Hc0, Hcl; reflexivity]).
  mstep new_setter.
  mstep ltac:(exact (copy_old h _ r _ Hr)).
  mstep ltac:(eapply (mapM_call_transformer h _ 1); [reflexivity|done..]).
  erewrite set_range_new by reflexivity. reflexivity.
Qed.

(** The same for a scale without [range] method: a linear scale is used. *)
Lemma makeAxisScale_sequential_run (h : heap) r x0 x1 p0 p1 :
  h !! r = Some (Sequential x0 x1) →
  ¬ (x0 == x1)%Q →
  makeAxisScale r [p0; p1] h
  = (inr (length h + 1)%nat,
     h ++ [Continuous Linear Value false [x0; x1] [VNum p0; VNum p1];
           Continuous Linear Value false [x0; x1]
             (VNum <$> (pixel Value x0 x1 p0 p1 <$> [x0; x1]))]).
Proof.
  intros Hr Hne.
  assert (Hvals : Forall (λ d, number (VNum d) = inr d ∧ between x0 d x1) [x0; x1]).
  { assert (Hcase : (x0 <= x1)%Q ∨ (x1 <= x0)%Q).
    { destruct (Qlt_le_dec x0 x1) as [H|H]; [left; by apply Qlt_le_weak|by right]. }
    assert (Hb0 : between x0 x0 x1).
    { destruct Hcase; [left|right]; split; done || apply Qle_refl. }
    assert (Hb1 : between x0 x1 x1).
    { destruct Hcase; [left|right]; split; done || apply Qle_refl. }
    apply Forall_cons_2; [done|]. apply Forall_cons_2; [done|]. apply Forall_nil_2. }
  unfold makeAxisScale.
  mstep ltac:(exact (get_domain_plain h r _ Hr)).
  mstep ltac:(exact (scaleIsOrdinal_run h r _ Hr)). cbv iota.
  mstep ltac:(exact (read_old h _ r _ Hr)). cbn [has_range has_invert andb].
  cbn [domain_of at_val length Nat.sub lookup list_lookup default].
  unfold scaleLinear.
  mstep ltac:(erewrite (bind_ok _ _ _ _ _ (alloc_app h [] _)); new_setter).
  mstep new_setter. mstep new_setter.
  mstep ltac:(erewrite (bind_ok _ _ _ _ _ (alloc_app h _ _)); new_setter).
  mstep ltac:(eapply (mapM_call_transformer h _ 0 Linear Value false x0 x1 x0 x1
                        p0 p1 VNum [x0; x1] [x0; x1]); [reflexivity|done..]).
  erewrite set_range_new by reflexivity. reflexivity.
Qed.

(** A scale that has a [range] but no [invert] method, and is not ordinal,
    never reaches the substitution of a linear scale: the type inference
    calls its missing [invert]. *)
Lemma makeAxisScale_without_invert_throws (h : heap) r ds r0 r1 extent :
  h !! r = Some (Band ds r0 r1) →
  makeAxisScale r extent h = (inl TypeError, h ++ [Band one_two 1 2]).
Proof.
  intros Hr. unfold makeAxisScale.
  mstep ltac:(exact (get_domain_plain h r _ Hr)).
  mstep ltac:(exact (scaleIsOrdinal_run h r _ Hr)). reflexivity.
Qed.

(** The axis scale, called on a value of its domain. *)
Lemma axis_scale_call (h l : heap) n k i c ds tds d0 dl t0 tl p0 p1 d td v :
  l !! n = Some (Continuous k i c ds (VNum <$> (pixel i t0 tl p0 p1 <$> tds))) →
  numeric i = true →
  monotonous ds → ds !! 0%nat = Some d0 → ds !! (length ds - 1)%nat = Some dl →
  map_err (transform k) ds = inr tds → monotonous tds →
  tds !! 0%nat = Some t0 → tds !! (length tds - 1)%nat = Some tl →
  ¬ (t0 == tl)%Q →
  d ∈ ds → number v = inr d → transform k d = inr td →
  ∃ q, call (length h + n)%nat v (h ++ l) = (inr (VNum q), h ++ l)
       ∧ (q == rounded i (p0 + (td - t0) * (p1 - p0) / (tl - t0)))%Q.
Proof.
  intros Hn Hi Hmono H0 Hl Hm Hmono' Ht0 Htl Hne Hd Hv Htd.
  rewrite (call_new_continuous h l n _ _ _ _ _ v Hn), Hv.
  rewrite (clamped_between c ds d0 dl d); cycle 1.
  { by rewrite head_lookup. }
  { rewrite last_lookup. rewrite <- Hl. f_equal. lia. }
  { by apply (monotonous_between ds). }
  rewrite Htd, Hm.
  destruct (piecewise_at_knot i (pixel i t0 tl p0 p1) Hi (pixel_comp i t0 tl p0 p1)
              (pixel_rounded i t0 tl p0 p1) tds t0 tl td) as (q & Hq & Hval).
  - destruct (decide (length tds <= 1)%nat) as [Hle|]; [|lia].
    exfalso. apply Hne. destruct tds as [|a [|b tds]]; cbn in *; [done| |lia].
    injection Ht0 as <-. by injection Htl as <-.
  - by apply monotonous_ascending.
  - done.
  - done.
  - done.
  - apply list_elem_of_lookup in Hd as [m Hdm].
    destruct (map_err_lookup _ _ _ _ _ Hm Hdm) as (td' & Htd' & HT).
    rewrite Htd in HT. injection HT as <-. by exists m, td.
  - exists q. split; [by rewrite Hq|].
    apply Qeq_trans with (1 := Hval). apply rounded_comp.
    by apply transformer_pixel_line.
Qed.

End AxisScaleFacts.

(* ===================================================================== *)
(** * Objects that exist before a call are not changed *)
(* ===================================================================== *)

Section FrameFacts.
Import D3 Common.
Variable h0 : heap.

Lemma keeps_bind {A B} (m : M A) (k : A → M B) (Q : A → Prop) (R : B → Prop) :
  keeps h0 m Q → (∀ a, Q a → keeps h0 (k a) R) → keeps h0 (bind m k) R.
Proof.
  intros Hm Hk l. unfold bind. destruct (Hm l) as (l1 & Hl1 & HQ).
  destruct (m (h0 ++ l)) as [[e|a] h1]; cbn in *; subst h1.
  - exists l1. by split.
  - apply (Hk a); by apply HQ.
Qed.

Lemma keeps_weaken {A} (m : M A) (Q R : A → Prop) :
  keeps h0 m Q → (∀ a, Q a → R a) → keeps h0 m R.
Proof.
  intros Hm HQR l. destruct (Hm l) as (l' & Hl & HQ). exists l'. split; [done|].
  intros a Ha. by apply HQR, HQ.
Qed.

Lemma keeps_ret {A} (a : A) (Q : A → Prop) : Q a → keeps h0 (ret a) Q.
Proof. intros HQ l. exists l. split; [done|]. by intros ? [= <-]. Qed.

Lemma keeps_throw {A} e (Q : A → Prop) : keeps h0 (throw e) Q.
Proof. intros l. exists l. by split. Qed.

Lemma keeps_lift {A} (x : error + A) : keeps h0 (lift x) (λ _, True).
Proof. intros l. exists l. by split. Qed.

Lemma keeps_read r : keeps h0 (read r) (λ _, True).
Proof. intros l. exists l. unfold read. by destruct (_ !! r). Qed.

Lemma keeps_alloc s : keeps h0 (alloc s) (new_in h0).
Proof.
  intros l. exists (l ++ [s]). unfold alloc, new_in. cbn. split.
  - by rewrite app_assoc.
  - intros ? [= <-]. rewrite length_app. lia.
Qed.

Lemma keeps_write r s : new_in h0 r → keeps h0 (write r s) (new_in h0).
Proof.
  intros Hr l. exists (<[r - length h0 := s]> l). unfold write, new_in in *. cbn.
  split; [by apply insert_app_r_alt|]. by intros ? [= <-].
Qed.

Lemma keeps_copy r : keeps h0 (copy r) (new_in h0).
Proof.
  apply keeps_bind with (Q := λ _, True); [apply keeps_read|].
  intros s _. apply keeps_alloc.
Qed.

Lemma keeps_set_domain r vs : new_in h0 r → keeps h0 (set_domain r vs) (new_in h0).
Proof.
  intros Hr. apply keeps_bind with (Q := λ _, True); [apply keeps_read|].
  intros s _. apply keeps_bind with (Q := λ _, True); [apply keeps_lift|].
  intros s' _. by apply keeps_write.
Qed.

Lemma keeps_set_range r vs : new_in h0 r → keeps h0 (set_range r vs) (new_in h0).
Proof.
  intros Hr. apply keeps_bind with (Q := λ _, True); [apply keeps_read|].
  intros s _. apply keeps_bind with (Q := λ _, True); [apply keeps_lift|].
  intros s' _. by apply keeps_write.
Qed.

Lemma keeps_get_domain r : keeps h0 (get_domain r) (λ _, True).
Proof.
  apply keeps_bind with (Q := λ _, True); [apply keeps_read|].
  intros s _. by apply keeps_ret.
Qed.

(** A call may change the called object, so it must be a new one. *)
Lemma keeps_call r x : new_in h0 r → keeps h0 (call r x) (λ _, True).
Proof.
  intros Hr. apply keeps_bind with (Q := λ _, True); [apply keeps_read|].
  intros [k i c ds rg|ds rg u|ds r0 r1|x0 x1|ds] _.
  - repeat (apply keeps_bind with (Q := λ _, True); [apply keeps_lift|]; intros ? _).
    apply keeps_lift.
  - destruct (index_of x ds); [by apply keeps_ret|].
    destruct u; [by apply keeps_ret|].
    apply keeps_bind with (Q := new_in h0); [by apply keeps_write|].
    intros _ _. by apply keeps_ret.
  - destruct (index_of x ds); by apply keeps_ret.
  - apply keeps_throw.
  - apply keeps_bind with (Q := λ _, True); [apply keeps_lift|]. intros x' _.
    by apply keeps_ret.
Qed.

Lemma keeps_invert r y : keeps h0 (invert r y) (λ _, True).
Proof.
  apply keeps_bind with (Q := λ _, True); [apply keeps_read|].
  intros [k i c ds rg|ds rg u|ds r0 r1|x0 x1|ds] _; try apply keeps_throw.
  2:{ apply keeps_bind with (Q := λ _, True); [apply keeps_lift|]. intros y' _.
      by apply keeps_ret. }
  apply keeps_bind with (Q := λ _, True); [apply keeps_lift|]. intros y' _.
  apply keeps_bind with (Q := λ _, True); [apply keeps_lift|]. intros rq _.
  apply keeps_bind with (Q := λ _, True); [apply keeps_lift|]. intros tds _.
  apply keeps_bind with (Q := λ _, True); [apply keeps_lift|]. intros v _.
  destruct v; try (destruct k; (by apply keeps_ret) || apply keeps_throw).
  do 2 (apply keeps_bind with (Q := λ _, True); [apply keeps_lift|]; intros ? _).
  by apply keeps_ret.
Qed.

Lemma keeps_mapM {A B} (f : A → M B) (l : list A) :
  (∀ a, keeps h0 (f a) (λ _, True)) → keeps h0 (mapM f l) (λ _, True).
Proof.
  intros Hf. induction l as [|a l IH]; cbn [mapM]; [by apply keeps_ret|].
  apply keeps_bind with (Q := λ _, True); [done|]. intros b _.
  apply keeps_bind with (Q := λ _, True); [done|]. intros bs _. by apply keeps_ret.
Qed.

Lemma keeps_checkType scale : keeps h0 (checkType scale) (λ _, True).
Proof.
  unfold checkType.
  apply keeps_bind with (Q := λ _, True); [apply keeps_read|]. intros sc _.
  destruct (negb (has_range sc)); [by apply keeps_ret|].
  apply keeps_bind with (Q := new_in h0); [apply keeps_copy|]. intros s Hs.
  apply keeps_bind with (Q := new_in h0); [by apply keeps_set_domain|]. intros s1 Hs1.
  apply keeps_bind with (Q := new_in h0); [by apply keeps_set_range|]. intros s2 Hs2.
  apply keeps_bind with (Q := λ _, True); [by apply keeps_call|]. intros v _.
  destruct (strict_eq_num v 1); [by apply keeps_ret|].
  apply keeps_bind with (Q := new_in h0); [by apply keeps_set_domain|]. intros s3 Hs3.
  apply keeps_bind with (Q := new_in h0); [by apply keeps_set_range|]. intros s4 Hs4.
  apply keeps_bind with (Q := λ _, True); [by apply keeps_invert|]. intros w _.
  destruct (strict_eq_num w (3 # 2)); [by apply keeps_ret|].
  apply keeps_bind with (Q := new_in h0); [by apply keeps_set_domain|]. intros s5 Hs5.
  apply keeps_bind with (Q := new_in h0); [by apply keeps_set_range|]. intros s6 Hs6.
  apply keeps_bind with (Q := λ _, True); [by apply keeps_invert|]. intros u _.
  destruct (instanceof_Date u); by apply keeps_ret.
Qed.

Lemma keeps_scaleIsOrdinal scale : keeps h0 (scaleIsOrdinal scale) (λ _, True).
Proof.
  apply keeps_bind with (Q := λ _, True); [apply keeps_checkType|].
  intros t _. by apply keeps_ret.
Qed.

Lemma keeps_makeAxisScale scale extent :
  keeps h0 (makeAxisScale scale extent) (new_in h0).
Proof.
  unfold makeAxisScale.
  apply keeps_bind with (Q := λ _, True); [apply keeps_get_domain|]. intros domain _.
  apply keeps_bind with (Q := λ _, True); [apply keeps_scaleIsOrdinal|].
  intros [] _.
  - apply keeps_bind with (Q := new_in h0); [apply keeps_alloc|]. intros b Hb.
    apply keeps_bind with (Q := λ _, True); [apply keeps_get_domain|]. intros d _.
    apply keeps_bind with (Q := new_in h0); [by apply keeps_set_domain|].
    intros b1 Hb1. by apply keeps_set_range.
  - apply keeps_bind with (Q := λ _, True); [apply keeps_read|]. intros sc _.
    assert (Hctor : keeps h0
              (if has_range sc && has_invert sc then copy scale
               else let* l := scaleLinear in set_domain l domain) (new_in h0)).
    { destruct (has_range sc && has_invert sc); [apply keeps_copy|].
      apply keeps_bind with (Q := new_in h0); [apply keeps_alloc|].
      intros l Hl. by apply keeps_set_domain. }
    apply keeps_bind with (Q := new_in h0); [done|]. intros t0 Ht0.
    apply keeps_bind with (Q := new_in h0); [by apply keeps_set_domain|]. intros t1 Ht1.
    apply keeps_bind with (Q := new_in h0); [by apply keeps_set_range|].
    intros transformer Htr.
    apply keeps_bind with (Q := new_in h0); [done|]. intros r0 Hr0.
    apply keeps_bind with (Q := λ _, True).
    { apply keeps_mapM. intros v. by apply keeps_call. }
    intros pixels _. by apply keeps_set_range.
Qed.

(** What is kept is found where it was. *)
Lemma keeps_lookup {A} (m : M A) (Q : A → Prop) r s :
  keeps h0 m Q → h0 !! r = Some s → snd (m h0) !! r = Some s.
Proof.
  intros Hm Hr. destruct (Hm []) as (l' & Hl & _). rewrite app_nil_r in Hl.
  rewrite Hl. by apply lookup_app_l_Some.
Qed.

End FrameFacts.

(* ===================================================================== *)
(** * Claims about scale-type inference *)
(* ===================================================================== *)

Section CheckTypeClaims.
Import D3 Common.

Lemma probe_call_run (h : heap) r sc :
  h !! r = Some sc → has_range sc = true →
  probe_call r h
  = (fst (probe_call 0%nat [sc]), h ++ drop 1 (snd (probe_call 0%nat [sc]))).
Proof.
  intros Hr Hrange. rewrite <- (app_nil_r h) at 1. unfold probe_call at 1.
  mstep ltac:(exact (copy_old h [] r _ Hr)).
  destruct sc as [k i c ds rg|ds rg [u|]|ds r0 r1|x0 x1|ds]; [| | | |done|].
  1: destruct k, i, c.
  all: mstep new_setter; mstep new_setter;
    erewrite call_new by reflexivity; reflexivity.
Qed.

Lemma probe_invert_run (h : heap) r sc :
  h !! r = Some sc → has_range sc = true →
  probe_invert r h
  = (fst (probe_invert 0%nat [sc]), h ++ drop 1 (snd (probe_invert 0%nat [sc]))).
Proof.
  intros Hr Hrange. rewrite <- (app_nil_r h) at 1. unfold probe_invert at 1.
  mstep ltac:(exact (copy_old h [] r _ Hr)).
  destruct sc as [k i c ds rg|ds rg [u|]|ds r0 r1|x0 x1|ds]; [| | | |done|].
  1: destruct k, i, c.
  all: mstep new_setter; mstep new_setter;
    erewrite invert_new by reflexivity; reflexivity.
Qed.

(** C2 (counterexample).  A scale without [range] method is classified
    [sequential], which is none of ordinal, linear and time; a power scale
    with exponent -1 is classified [not supported]; and for a band scale,
    which has no [invert] method, the inference returns nothing. *)
Lemma checkType_sequential_counterexample :
  fst (checkType 0%nat [Sequential 0 1]) = inr "sequential"
  ∧ ¬ (fst (checkType 0%nat [Sequential 0 1])
       ∈ [inr "ordinal"; inr "linear"; inr "time"])
  ∧ fst (checkType 0%nat [Continuous Reciprocal Value false [1; 2]%Q [VNum 0; VNum 1]])
    = inr "not supported"
  ∧ fst (checkType 0%nat [Band [VStr "a"; VStr "b"] 0 1]) = inl TypeError.
Proof.
  split; [reflexivity|]. split; [|split; reflexivity].
  change (fst (checkType 0%nat [Sequential 0 1])) with (@inr error string "sequential").
  rewrite !elem_of_cons, elem_of_nil. intros [H|[H|[H|[]]]]; discriminate H.
Qed.

(** C2 (amended).  [checkType] answers [sequential] for a scale without
    [range] method; otherwise it decides by independent probes of the scale
    with domain [1,2] and range [1,2]: [ordinal] when the scale maps 1.5
    to 1, else [linear] when [invert(1.5)] is 1.5, else [time] when
    [invert(1.5)] is a [Date], else [not supported].  (When a probe throws,
    so does [checkType].) *)
Theorem checkType_classifies (h : heap) r sc :
  h !! r = Some sc →
  fst (checkType r h) =
    if negb (has_range sc) then inr "sequential" else
    match fst (probe_call r h) with
    | inl e => inl e
    | inr v =>
        if strict_eq_num v 1 then inr "ordinal" else
        match fst (probe_invert r h) with
        | inl e => inl e
        | inr w =>
            if strict_eq_num w (3 # 2) then inr "linear"
            else if instanceof_Date w then inr "time"
            else inr "not supported"
        end
    end.
Proof.
  intros Hr. rewrite (checkType_run h r sc Hr). cbn [fst].
  destruct (has_range sc) eqn:Hrange; cbn [negb].
  - rewrite (probe_call_run h r sc Hr Hrange), (probe_invert_run h r sc Hr Hrange).
    cbn [fst]. destruct sc as [k i c ds rg|ds rg [u|]|ds r0 r1|x0 x1|ds].
    + by destruct k, i, c.
    + change (fst (probe_call 0%nat [Ordinal ds rg (Some u)])) with (@inr error _ u).
      cbn [type_of]. by destruct (strict_eq_num u 1).
    + done.
    + done.
    + done.
    + done.
  - by destruct sc.
Qed.

Lemma checkType_classifies_witness :
  fst (checkType 0%nat [Ordinal [VStr "a"; VStr "b"] [VStr "red"; VStr "blue"] None])
  = inr "ordinal".
Proof.
  by rewrite (checkType_classifies
                [Ordinal [VStr "a"; VStr "b"] [VStr "red"; VStr "blue"] None] 0%nat
                (Ordinal [VStr "a"; VStr "b"] [VStr "red"; VStr "blue"] None) eq_refl).
Defined.

(** C6.  [checkType], and with it [scaleIsOrdinal] and [makeAxisScale],
    changes no object that exists when it is called (the probes act on a
    copy): in particular the given scale keeps its state, and so its domain
    and its range. *)
Theorem checkType_frame (h : heap) (scale r0 : ref) (s0 : D3.scale) (extent : list Q) :
  h !! r0 = Some s0 →
  snd (checkType scale h) !! r0 = Some s0
  ∧ snd (scaleIsOrdinal scale h) !! r0 = Some s0
  ∧ snd (makeAxisScale scale extent h) !! r0 = Some s0
  ∧ fst (get_domain r0 (snd (checkType scale h))) = fst (get_domain r0 h)
  ∧ fst (get_range r0 (snd (checkType scale h))) = fst (get_range r0 h).
Proof.
  intros H0.
  pose proof (keeps_lookup h _ _ r0 s0 (keeps_checkType h scale) H0) as Hc.
  split; [done|]. split; [|split].
  - exact (keeps_lookup h _ _ r0 s0 (keeps_scaleIsOrdinal h scale) H0).
  - exact (keeps_lookup h _ _ r0 s0 (keeps_makeAxisScale h scale extent) H0).
  - unfold get_domain, get_range, bind, read. by rewrite Hc, H0.
Qed.

Lemma checkType_frame_witness :
  let h := [Ordinal [VStr "a"; VStr "b"] [VStr "red"; VStr "blue"] None] in
  snd (checkType 0%nat h) !! 0%nat = h !! 0%nat
  ∧ snd (checkType 0%nat h) ≠ h.
Proof.
  intros h. split; [|by vm_compute].
  by destruct (checkType_frame h 0%nat 0%nat _ [] eq_refl) as (-> & _).
Defined.

End CheckTypeClaims.

(* ===================================================================== *)
(** * Ordinal colour scales: the band scale *)
(* ===================================================================== *)

Section BandFacts.
Import D3 Common.

Lemma dedup_keys_length seen l : (length (dedup_keys seen l) <= length l)%nat.
Proof.
  revert seen. induction l as [|v l IH]; intros seen; [done|]. cbn.
  destruct (index_of v seen); cbn; [|specialize (IH (seen ++ [v]))]; [|lia].
  specialize (IH seen). lia.
Qed.

Lemma dedup_keys_fixed seen l : dedup_keys seen l = l ↔ fresh_keys seen l.
Proof.
  revert seen. induction l as [|v l IH]; intros seen; [done|]. cbn.
  destruct (index_of v seen) eqn:E.
  - split; [|by intros [? _]]. intros H. exfalso.
    pose proof (dedup_keys_length seen l) as Hlen. rewrite H in Hlen.
    cbn in Hlen. lia.
  - rewrite <- IH. split; [intros [= H]; by rewrite H | intros [_ ->]; done].
Qed.

Lemma dedup_keys_fresh seen l : fresh_keys seen (dedup_keys seen l).
Proof.
  revert seen. induction l as [|v l IH]; intros seen; [done|]. cbn.
  destruct (index_of v seen) eqn:E; [apply IH|]. cbn. split; [done|apply IH].
Qed.

(** The domain setter is idempotent. *)
Lemma dedup_keys_idemp l : dedup_keys [] (dedup_keys [] l) = dedup_keys [] l.
Proof. apply dedup_keys_fixed, dedup_keys_fresh. Qed.

Lemma index_of_app_None x l1 l2 :
  index_of x (l1 ++ l2) = None → index_of x l1 = None ∧ index_of x l2 = None.
Proof.
  induction l1 as [|e l1 IH]; cbn; [done|].
  destruct (same_key e x); [done|].
  destruct (index_of x (l1 ++ l2)); [done|]. intros _.
  destruct IH as [-> ->]; done.
Qed.

(** The implicit extension of an ordinal domain keeps it duplicate free. *)
Lemma fresh_keys_snoc seen ds x :
  fresh_keys seen ds → index_of x (seen ++ ds) = None →
  fresh_keys seen (ds ++ [x]).
Proof.
  revert seen. induction ds as [|v ds IH]; intros seen Hds Hx; cbn.
  - rewrite app_nil_r in Hx. done.
  - destruct Hds as [Hv Hds]. split; [done|].
    apply IH; [done|]. by rewrite <- app_assoc.
Qed.

(** Every operation on scales keeps the store well formed. *)
Lemma preserves_bind {A B} (m : M A) (k : A → M B) :
  preserves m → (∀ a, preserves (k a)) → preserves (bind m k).
Proof.
  intros Hm Hk h Hh. unfold bind. specialize (Hm h Hh).
  destruct (m h) as [[e|a] h']; [done|]. by apply Hk.
Qed.

Lemma preserves_pure {A} (m : M A) :
  (∀ h, snd (m h) = h) → preserves m.
Proof. intros H h Hh. by rewrite H. Qed.

Lemma preserves_write r s : well_formed s → preserves (write r s).
Proof.
  intros Hs h Hh. unfold write. cbn.
  destruct (decide (r < length h)%nat) as [Hlt|Hge].
  - apply Forall_insert; done.
  - by rewrite list_insert_ge by lia.
Qed.

Lemma preserves_alloc s : well_formed s → preserves (alloc s).
Proof. intros Hs h Hh. unfold alloc. cbn. apply Forall_app. by split; [|constructor]. Qed.

Lemma with_domain_well_formed s vs s' :
  with_domain s vs = inr s' → well_formed s'.
Proof.
  destruct s as [k i c ds rg|ds rg u|ds r0 r1|x0 x1|ds]; cbn.
  - destruct (map_err (coerce k) vs); [done|]. by intros [= <-].
  - intros [= <-]. apply dedup_keys_idemp.
  - intros [= <-]. apply dedup_keys_idemp.
  - destruct (map_err number (take 2 vs)) as [|[|? [|? [|]]]]; try done.
    by intros [= <-].
  - destruct (map_err number vs); [done|]. by intros [= <-].
Qed.

Lemma with_range_well_formed s vs s' :
  well_formed s → with_range s vs = inr s' → well_formed s'.
Proof.
  destruct s as [k i c ds rg|ds rg u|ds r0 r1|x0 x1|ds]; cbn; intros Hs.
  - by intros [= <-].
  - by intros [= <-].
  - destruct (map_err number (take 2 vs)) as [|[|? [|? [|]]]]; try done.
    by intros [= <-].
  - done.
  - destruct (map_err number vs); [done|]. by intros [= <-].
Qed.

Lemma read_well_formed r h s :
  Forall well_formed h → read r h = (inr s, h) → well_formed s.
Proof.
  intros Hh. unfold read. destruct (h !! r) as [s'|] eqn:E; [|done].
  intros [= <-]. by apply (Forall_lookup_1 _ _ _ _ Hh E).
Qed.

Lemma preserves_read_then {A} r (k : scale → M A) :
  (∀ s, well_formed s → preserves (k s)) → preserves (bind (read r) k).
Proof.
  intros Hk h Hh. unfold bind, read.
  destruct (h !! r) as [s|] eqn:E; [|done].
  apply Hk; [|done]. by apply (Forall_lookup_1 _ _ _ _ Hh E).
Qed.

Lemma preserves_lift_then {A B} (x : error + A) (k : A → M B) :
  (∀ a, x = inr a → preserves (k a)) → preserves (bind (lift x) k).
Proof.
  intros Hk h Hh. unfold bind, lift. destruct x as [e|a]; [done|]. by apply Hk.
Qed.

Lemma preserves_copy r : preserves (copy r).
Proof. apply preserves_read_then. intros s Hs. by apply preserves_alloc. Qed.

Lemma preserves_set_domain r vs : preserves (set_domain r vs).
Proof.
  apply preserves_read_then. intros s Hs. apply preserves_lift_then.
  intros s' Hs'. apply preserves_write. by apply (with_domain_well_formed s vs).
Qed.

Lemma preserves_set_range r vs : preserves (set_range r vs).
Proof.
  apply preserves_read_then. intros s Hs. apply preserves_lift_then.
  intros s' Hs'. apply preserves_write. by apply (with_range_well_formed s vs).
Qed.

Lemma preserves_call r x : preserves (call r x).
Proof.
  apply preserves_read_then. intros [k i c ds rg|ds rg u|ds r0 r1|x0 x1|ds] Hs.
  5:{ apply preserves_lift_then. intros ? _. by apply preserves_pure. }
  - repeat (apply preserves_lift_then; intros ? _). by apply preserves_pure.
  - destruct (index_of x ds) eqn:E; [by apply preserves_pure|].
    destruct u; [by apply preserves_pure|].
    apply preserves_bind; [|intros ?; by apply preserves_pure].
    apply preserves_write. cbn in *. apply dedup_keys_fixed.
    apply fresh_keys_snoc; [by apply dedup_keys_fixed|done].
  - destruct (index_of x ds); by apply preserves_pure.
  - by apply preserves_pure.
Qed.

Lemma preserves_invert r y : preserves (invert r y).
Proof.
  apply preserves_pure. intros h. apply invert_plain.
Qed.

Lemma preserves_checkType r : preserves (checkType r).
Proof.
  unfold checkType. apply preserves_read_then. intros sc _.
  destruct (negb (has_range sc)); [by apply preserves_pure|].
  repeat first
    [ apply preserves_copy | apply preserves_set_domain
    | apply preserves_set_range | apply preserves_call | apply preserves_invert
    | apply preserves_bind; [|intros ?]
    | match goal with |- preserves (if ?b then _ else _) => destruct b end
    | by apply preserves_pure ].
Qed.

Lemma preserves_mapM {A B} (f : A → M B) l :
  (∀ a, preserves (f a)) → preserves (mapM f l).
Proof.
  intros Hf. induction l as [|a l IH]; cbn [mapM]; [by apply preserves_pure|].
  apply preserves_bind; [done|intros b].
  apply preserves_bind; [done|intros bs]. by apply preserves_pure.
Qed.

Lemma preserves_makeAxisScale r extent : preserves (makeAxisScale r extent).
Proof.
  unfold makeAxisScale, scaleIsOrdinal, get_domain, scaleBand, scaleLinear.
  repeat first
    [ apply preserves_copy | apply preserves_set_domain
    | apply preserves_set_range | apply preserves_call | apply preserves_checkType
    | apply preserves_mapM; intros ?
    | apply preserves_alloc; done
    | apply preserves_read_then; intros ? _
    | apply preserves_bind; [|intros ?]
    | match goal with |- preserves (if ?b then _ else _) => destruct b end
    | by apply preserves_pure ].
Qed.

End BandFacts.

(* ===================================================================== *)
(** * Claims about [makeAxisScale] *)
(* ===================================================================== *)

Section AxisScaleClaims.
Import D3 Common.

(** C3.  For a colour scale classified as ordinal and an extent [p0, p1],
    [makeAxisScale] returns a band scale whose domain is the domain of the
    colour scale and whose range is the extent.  (The store is well formed:
    its ordinal domains hold one value per key, as the toolkit keeps
    them.) *)
Theorem makeAxisScale_ordinal_band (h : heap) (scale : ref) (p0 p1 : Q) :
  Forall well_formed h →
  fst (scaleIsOrdinal scale h) = inr true →
  ∃ (r' : ref) (h' : heap) (ds : list value),
    makeAxisScale scale [p0; p1] h = (inr r', h')
    ∧ h' !! r' = Some (Band ds p0 p1)
    ∧ fst (get_domain r' h') = fst (get_domain scale h)
    ∧ fst (get_range r' h') = inr (VNum <$> [p0; p1]).
Proof.
  intros Hwf Hord.
  destruct (h !! scale) as [sc|] eqn:Hr.
  2:{ unfold scaleIsOrdinal, checkType, bind, read in Hord. by rewrite Hr in Hord. }
  pose proof (scaleIsOrdinal_run h scale sc Hr) as Hrun.
  rewrite Hrun in Hord. cbn [fst] in Hord.
  assert (∃ ds rg u p, sc = Ordinal ds rg u ∧ probe_of sc = [p]
                       ∧ type_of sc = inr "ordinal")
    as (ds & rg & u & p & -> & Hp & Hty).
  { destruct sc as [k i c ds rg|ds rg [u|]|ds r0 r1|x0 x1|ds]; try done.
    - by destruct k.
    - cbn in Hord |- *. destruct (strict_eq_num u 1); [|done]. by eexists _, _, _, _.
    - by eexists _, _, _, _. }
  rewrite Hp, Hty in Hrun. cbn [String.eqb Ascii.eqb Bool.eqb] in Hrun.
  pose proof (Forall_lookup_1 _ _ _ _ Hwf Hr) as Hds. cbn in Hds.
  exists (length h + 1)%nat, (h ++ [p; Band ds p0 p1]), ds.
  split; [|split; [|split]].
  - unfold makeAxisScale.
    mstep ltac:(exact (get_domain_plain h scale _ Hr)).
    mstep ltac:(exact Hrun). cbv iota.
    unfold scaleBand. mstep ltac:(exact (alloc_app h _ _)).
    mstep ltac:(exact (get_domain_old h _ scale _ Hr)). cbn [domain_of].
    mstep ltac:(eapply set_domain_new; [reflexivity|cbn; by rewrite Hds]).
    erewrite set_range_new by reflexivity. reflexivity.
  - by rewrite (lookup_app_r h _ (length h + 1)), Nat.add_comm, Nat.add_sub by lia.
  - erewrite get_domain_new by reflexivity.
    by rewrite (get_domain_plain h scale _ Hr).
  - by erewrite get_range_new by reflexivity.
Qed.

Lemma makeAxisScale_ordinal_band_witness :
  let h := [Ordinal [VStr "a"; VStr "b"] [VStr "red"; VStr "blue"] None] in
  ∃ (r' : ref) (h' : heap) (ds : list value),
    makeAxisScale 0%nat [0; 100]%Q h = (inr r', h')
    ∧ h' !! r' = Some (Band ds 0 100)
    ∧ fst (get_domain r' h') = fst (get_domain 0%nat h)
    ∧ fst (get_range r' h') = inr (VNum <$> [0; 100]%Q).
Proof.
  intros h. apply (makeAxisScale_ordinal_band h 0%nat 0 100).
  - repeat constructor.
  - reflexivity.
Defined.




End AxisScaleClaims.

(* ===================================================================== *)
(** * Facts about document trees *)
(* ===================================================================== *)

Section DomFacts.
Import Dom.
Context {D : Type}.
Implicit Types (n m c : node D) (cs : list (node D)) (p q : path) (s : selector).

(** Induction on trees: the children satisfy the property. *)
Lemma node_induction (P : node D → Prop) :
  (∀ t a d cs, Forall P cs → P (Node t a d cs)) → ∀ n, P n.
Proof.
  intros H. fix IH 1. intros [t a d cs]. apply H.
  induction cs as [|c cs IHcs]; constructor; [apply IH|apply IHcs].
Qed.

Lemma descendants_eq t a d cs :
  descendants (Node t a d cs) = descendants_from 0 cs.
Proof.
  cbn. generalize 0%nat. induction cs as [|c cs IH]; intros i; [done|].
  cbn. by rewrite IH.
Qed.

Lemma descendants_children n : descendants n = descendants_from 0 (children n).
Proof. destruct n. apply descendants_eq. Qed.

Lemma descendants_from_app i cs1 cs2 :
  descendants_from i (cs1 ++ cs2)
  = descendants_from i cs1 ++ descendants_from (i + length cs1) cs2.
Proof.
  revert i. induction cs1 as [|c cs1 IH]; intros i; cbn.
  - by rewrite Nat.add_0_r.
  - replace (i + S (length cs1))%nat with (S i + length cs1)%nat by lia.
    by rewrite IH, <- !app_assoc.
Qed.

Lemma filter_below s i (l : list (path * node D)) :
  filter (λ pm, matches s pm.2 = true) (below i l)
  = below i (filter (λ pm, matches s pm.2 = true) l).
Proof.
  unfold below. induction l as [|[p m] l IH]; [done|].
  rewrite fmap_cons, !filter_cons. cbn [fst snd].
  case_decide; by rewrite ?fmap_cons, IH.
Qed.

(** Descendants do not depend on the tag, attributes and datum of the
    root. *)
Lemma selectAll_children s n n' :
  children n = children n' → selectAll s n = selectAll s n'.
Proof. intros H. unfold selectAll. by rewrite !descendants_children, H. Qed.

Lemma selectAll_set_datum s d n : selectAll s (set_datum d n) = selectAll s n.
Proof. by apply selectAll_children. Qed.

(** The matches after a child is appended: the old ones, then those of the
    new child. *)
Lemma selectAll_appendChild s c n :
  selectAll s (appendChild c n)
  = selectAll s n
    ++ filter (λ pm, matches s pm.2 = true)
         (descendants_from (length (children n)) [c]).
Proof.
  unfold selectAll. rewrite !descendants_children. cbn [appendChild children].
  by rewrite descendants_from_app, filter_app.
Qed.

(** Paths of descendants are not empty and lead to the descendant. *)
Lemma descendants_from_path i cs p m :
  (p, m) ∈ descendants_from i cs →
  Forall (λ c, ∀ p m, (p, m) ∈ descendants c → p ≠ [] ∧ get p c = Some m) cs →
  ∃ j p', p = (i + j)%nat :: p' ∧ ∃ c, cs !! j = Some c ∧ get p' c = Some m.
Proof.
  revert i. induction cs as [|c cs IH]; intros i Hin Hcs; [by apply elem_of_nil in Hin|].
  apply Forall_cons in Hcs as [Hc Hcs]. cbn in Hin.
  apply elem_of_cons in Hin as [Hin|Hin].
  - injection Hin as -> ->. exists 0%nat, []. rewrite Nat.add_0_r. eauto.
  - apply elem_of_app in Hin as [Hin|Hin].
    + unfold below in Hin. apply list_elem_of_fmap in Hin as ([p' m'] & [= -> ->] & Hin).
      destruct (Hc _ _ Hin) as [_ Hget]. cbn in *.
      exists 0%nat, p'. rewrite Nat.add_0_r. eauto.
    + destruct (IH (S i) Hin Hcs) as (j & p' & -> & c' & Hj & Hget).
      exists (S j), p'. split; [f_equal; lia|]. eauto.
Qed.

Lemma descendants_path n : ∀ p m,
  (p, m) ∈ descendants n → p ≠ [] ∧ get p n = Some m.
Proof.
  induction n as [t a d cs IH] using node_induction. intros p m Hin.
  rewrite descendants_eq in Hin.
  destruct (descendants_from_path 0 cs p m Hin IH) as (j & p' & -> & c & Hj & Hget).
  split; [done|]. cbn. by rewrite Hj.
Qed.

Lemma selectAll_path s n p m :
  (p, m) ∈ selectAll s n → p ≠ [] ∧ get p n = Some m ∧ matches s m = true.
Proof.
  unfold selectAll. intros [Hm Hin]%list_elem_of_filter.
  destruct (descendants_path n p m Hin). done.
Qed.

Lemma matches_shell s n n' :
  tag n = tag n' → attrs n = attrs n' → matches s n = matches s n'.
Proof. intros Ht Ha. unfold matches, classes, getAttribute. by rewrite Ht, Ha. Qed.

Lemma update_shell p f n :
  p ≠ [] → tag (update p f n) = tag n ∧ attrs (update p f n) = attrs n.
Proof. by destruct p. Qed.

Lemma matches_update s p f n : p ≠ [] → matches s (update p f n) = matches s n.
Proof. intros Hp. apply matches_shell; by apply update_shell. Qed.

Lemma selectAll_from_cons s i c cs :
  filter (λ pm, matches s pm.2 = true) (descendants_from i (c :: cs))
  = (if matches s c then [([i], c)] else [])
    ++ below i (selectAll s c)
    ++ filter (λ pm, matches s pm.2 = true) (descendants_from (S i) cs).
Proof.
  cbn [descendants_from].
  rewrite filter_cons, filter_app, filter_below.
  cbn [snd].
  unfold selectAll. destruct (matches s c); by case_decide.
Qed.

(** Changing the first match, so that it still matches, keeps it the first
    match. *)
Lemma selectAll_update_head s f : ∀ n p m,
  head (selectAll s n) = Some (p, m) →
  matches s (f m) = true →
  head (selectAll s (update p f n)) = Some (p, f m).
Proof.
  induction n as [t a d cs IH] using node_induction. intros p m Hhd Hf.
  unfold selectAll in Hhd. rewrite descendants_eq in Hhd.
  enough (∃ j p', p = (0 + j)%nat :: p'
            ∧ head (filter (λ pm, matches s pm.2 = true)
                      (descendants_from 0 (alter (update p' f) j cs)))
              = Some (p, f m)) as (j & p' & -> & H).
  { unfold selectAll. cbn [update tag attrs datum children Nat.add].
    by rewrite descendants_eq. }
  revert Hhd. generalize 0%nat as i. clear t a d.
  induction cs as [|c cs IHcs]; intros i Hhd; [done|].
  apply Forall_cons in IH as [IHc IH]. specialize (IHcs IH).
  rewrite selectAll_from_cons in Hhd.
  destruct (matches s c) eqn:Hc.
  - injection Hhd as <- <-. exists 0%nat, []. rewrite Nat.add_0_r. split; [done|].
    cbn [alter list_alter update]. rewrite selectAll_from_cons. by rewrite Hf.
  - cbn [app] in Hhd. destruct (selectAll s c) as [|[p0 m0] rest] eqn:Hsel.
    + cbn [below fmap list_fmap app] in Hhd.
      destruct (IHcs (S i) Hhd) as (j & p' & -> & H).
      exists (S j), p'. split; [f_equal; lia|].
      cbn [alter list_alter]. rewrite selectAll_from_cons, Hc, Hsel. cbn [below fmap list_fmap app].
      by rewrite H.
    + cbn in Hhd. injection Hhd as <- <-.
      assert (Hp0 : p0 ≠ []).
      { apply (selectAll_path s c p0 m0). rewrite Hsel. by left. }
      exists 0%nat, p0. rewrite Nat.add_0_r. split; [done|].
      cbn [alter list_alter]. rewrite selectAll_from_cons.
      rewrite (matches_update s p0 f c Hp0), Hc. cbn [app].
      specialize (IHc p0 m0 eq_refl Hf).
      destruct (selectAll s (update p0 f c)) as [|[p1 m1] rest']; [done|].
      injection IHc as -> ->. done.
Qed.

(** ** Reading and changing at a path *)

Lemma get_update p f : ∀ n m,
  get p n = Some m → get p (update p f n) = Some (f m).
Proof.
  induction p as [|i p IH]; intros n m Hget; cbn in *; [by injection Hget as ->|].
  destruct n as [t a d cs]. cbn in *. rewrite list_lookup_alter_eq.
  destruct (cs !! i) as [c|]; [|done]. cbn. by apply IH.
Qed.

Lemma get_app p q n : get (p ++ q) n = get p n ≫= get q.
Proof.
  revert n. induction p as [|i p IH]; intros n; [done|]. cbn.
  destruct (children n !! i); [apply IH|done].
Qed.

Lemma alter_fixed {A} (g : A → A) i (l : list A) :
  (∀ x, l !! i = Some x → g x = x) → alter g i l = l.
Proof.
  revert i. induction l as [|x l IH]; intros [|i] H; cbn; [done|done| |].
  - by rewrite (H x eq_refl).
  - f_equal. apply IH. intros y Hy. by apply H.
Qed.

Lemma alter_agree {A} (g g' : A → A) i (l : list A) :
  (∀ x, l !! i = Some x → g x = g' x) → alter g i l = alter g' i l.
Proof.
  revert i. induction l as [|x l IH]; intros [|i] H; cbn; [done|done| |].
  - by rewrite (H x eq_refl).
  - f_equal. apply IH. intros y Hy. by apply H.
Qed.

(** A change that leaves the element at the path alone leaves the tree
    alone. *)
Lemma update_fixed p f : ∀ n m, get p n = Some m → f m = m → update p f n = n.
Proof.
  induction p as [|i p IH]; intros n m Hget Hf; cbn in *; [by injection Hget as ->|].
  destruct n as [t a d cs]. cbn in *. f_equal. apply alter_fixed.
  intros c Hc. rewrite Hc in Hget. by apply (IH c m).
Qed.

Lemma update_agree p f g : ∀ n m,
  get p n = Some m → f m = g m → update p f n = update p g n.
Proof.
  induction p as [|i p IH]; intros n m Hget Hf; cbn in *; [by injection Hget as ->|].
  destruct n as [t a d cs]. cbn in *. f_equal. apply alter_agree.
  intros c Hc. rewrite Hc in Hget. by apply (IH c m).
Qed.

Lemma update_update p f g : ∀ n, update p f (update p g n) = update p (f ∘ g) n.
Proof.
  induction p as [|i p IH]; intros n; [done|]. destruct n as [t a d cs]. cbn.
  f_equal. rewrite list_alter_alter_eq. apply alter_agree. intros c _. apply IH.
Qed.

Lemma update_app p q f n : update (p ++ q) f n = update p (update q f) n.
Proof.
  revert n. induction p as [|i p IH]; intros n; [done|]. destruct n as [t a d cs].
  cbn. f_equal. apply alter_agree. intros c _. apply IH.
Qed.

(** ** Counting matches *)

Lemma count_from s i cs :
  length (filter (λ pm, matches s pm.2 = true) (descendants_from i cs))
  = sum_list (weight s <$> cs).
Proof.
  revert i. induction cs as [|c cs IH]; intros i; [done|].
  rewrite selectAll_from_cons, !length_app, IH. unfold below. rewrite length_fmap.
  rewrite fmap_cons. change (sum_list (weight s c :: (weight s <$> cs)))
    with (weight s c + sum_list (weight s <$> cs))%nat.
  assert (weight s c = (if matches s c then 1 else 0) + length (selectAll s c))%nat
    as -> by done.
  destruct (matches s c); cbn [length]; lia.
Qed.

Lemma count_children s n : count s n = sum_list (weight s <$> children n).
Proof. unfold count, selectAll. rewrite descendants_children. apply count_from. Qed.

Lemma sum_list_alter (w : node D → nat) g i cs c :
  cs !! i = Some c →
  (sum_list (w <$> alter g i cs) + w c = sum_list (w <$> cs) + w (g c))%nat.
Proof.
  revert i. induction cs as [|x cs IH]; intros [|i] H; cbn in *; try done.
  - injection H as ->. lia.
  - specialize (IH i H). lia.
Qed.

(** Changing a descendant, whose own match is kept, changes the number of
    matches by the matches below it. *)
Lemma count_update s f p : ∀ n m,
  p ≠ [] → get p n = Some m → matches s (f m) = matches s m →
  (count s (update p f n) + count s m = count s n + count s (f m))%nat.
Proof.
  induction p as [|i p IH]; intros n m Hp Hget Hf; [done|].
  destruct n as [t a d cs]. cbn in Hget.
  destruct (cs !! i) as [c|] eqn:Hc; [|done].
  rewrite (count_children s (update (i :: p) f (Node t a d cs))),
    (count_children s (Node t a d cs)).
  cbn [update children tag attrs datum].
  pose proof (sum_list_alter (weight s) (update p f) i cs c Hc) as Hsum.
  destruct (decide (p = [])) as [->|Hp'].
  - cbn in Hget. injection Hget as ->.
    change (update [] f m) with (f m) in Hsum.
    revert Hsum. generalize (sum_list (weight s <$> alter (update [] f) i cs)).
    generalize (sum_list (weight s <$> cs)). unfold weight. rewrite Hf. lia.
  - specialize (IH c m Hp' Hget Hf).
    revert Hsum. generalize (sum_list (weight s <$> alter (update p f) i cs)).
    generalize (sum_list (weight s <$> cs)). unfold weight.
    rewrite (matches_update s p f c Hp'). lia.
Qed.

Lemma count_set_datum s d n : count s (set_datum d n) = count s n.
Proof. unfold count. by rewrite selectAll_set_datum. Qed.

(** ** Attributes *)

Lemma lookup_insert_attr_eq k v a : lookup_attr k (insert_attr k v a) = Some v.
Proof.
  induction a as [|[k' v'] a IH]; cbn; [by rewrite String.eqb_refl|].
  destruct (String.eqb k' k) eqn:E; cbn; by rewrite E.
Qed.

Lemma lookup_insert_attr_ne k k' v a :
  k ≠ k' → lookup_attr k (insert_attr k' v a) = lookup_attr k a.
Proof.
  intros Hne. induction a as [|[k0 v0] a IH]; cbn.
  - destruct (String.eqb_spec k' k); [by subst|done].
  - destruct (String.eqb_spec k0 k') as [->|]; cbn.
    + destruct (String.eqb_spec k' k); [by subst|done].
    + by rewrite IH.
Qed.

Lemma lookup_remove_attr_eq k a :
  lookup_attr k (filter (λ kv, kv.1 ≠ k) a) = None.
Proof.
  induction a as [|[k' v'] a IH]; [done|]. rewrite filter_cons. cbn.
  case_decide as Hk; [|done]. cbn. by destruct (String.eqb_spec k' k).
Qed.

Lemma lookup_remove_attr_ne k k' a :
  k ≠ k' → lookup_attr k (filter (λ kv, kv.1 ≠ k') a) = lookup_attr k a.
Proof.
  intros Hne. induction a as [|[k0 v0] a IH]; [done|]. rewrite filter_cons. cbn.
  case_decide as Hk; cbn.
  - by rewrite IH.
  - subst k0. destruct (String.eqb_spec k' k); [by subst|done].
Qed.

(** Reading an attribute after [selection.attr]. *)
Lemma getAttribute_attr_eq k v n : getAttribute k (attr k v n) = v.
Proof.
  unfold getAttribute. destruct v; cbn.
  - apply lookup_insert_attr_eq.
  - apply lookup_remove_attr_eq.
Qed.

Lemma getAttribute_attr_ne k k' v n :
  k ≠ k' → getAttribute k (attr k' v n) = getAttribute k n.
Proof.
  intros Hne. unfold getAttribute. destruct v; cbn.
  - by apply lookup_insert_attr_ne.
  - by apply lookup_remove_attr_ne.
Qed.

Lemma tag_attr k v n : tag (attr k v n) = tag n.
Proof. by destruct v. Qed.

Lemma datum_attr k v n : datum (attr k v n) = datum n.
Proof. by destruct v. Qed.

Lemma children_attr k v n : children (attr k v n) = children n.
Proof. by destruct v. Qed.

Lemma classes_attr k v n : k ≠ "class" → classes (attr k v n) = classes n.
Proof. intros Hk. unfold classes. by rewrite getAttribute_attr_ne. Qed.

Lemma matches_attr s k v n : k ≠ "class" → matches s (attr k v n) = matches s n.
Proof. intros Hk. unfold matches. by rewrite tag_attr, classes_attr. Qed.

End DomFacts.

(* ===================================================================== *)
(** * The checker pattern *)
(* ===================================================================== *)

Section PatternFacts.
Import Dom Pattern.
Context {D : Type}.
Implicit Types (n m c svg : node D) (p q : path) (s : selector).

Lemma count_appendChild s c n : count s (appendChild c n) = (count s n + weight s c)%nat.
Proof.
  rewrite !count_children. cbn [appendChild children].
  rewrite fmap_app, sum_list_with_app.
  change (sum_list (weight s <$> [c])) with (weight s c + 0)%nat. unfold id. lia.
Qed.

Lemma selectAll_appendChild_leaf s c n :
  selectAll s c = [] →
  selectAll s (appendChild c n)
  = selectAll s n ++ (if matches s c then [([length (children n)], c)] else []).
Proof.
  intros Hc. rewrite selectAll_appendChild, selectAll_from_cons, Hc.
  cbn. by rewrite app_nil_r.
Qed.

Lemma head_elem_of {A} (l : list A) x : head l = Some x → x ∈ l.
Proof. destruct l; [done|]. intros [= ->]. by left. Qed.

(** After the first three statements the first [defs] is the one returned,
    it carries the datum [null], and nothing else was touched. *)
Lemma ensure_defs_first svg :
  no_checker_pattern svg →
  ∃ d1, head (selectAll defs_selector (ensure_defs svg).1)
        = Some ((ensure_defs svg).2, d1)
        ∧ datum d1 = None
        ∧ selectAll pattern_selector d1 = []
        ∧ ∀ s, sel_tag s ≠ "defs" → count s (ensure_defs svg).1 = count s svg.
Proof.
  unfold no_checker_pattern, ensure_defs, join_one. intros Hno.
  destruct (head (selectAll defs_selector svg)) as [[p d]|] eqn:Hhd; cbn [fst snd].
  - destruct (selectAll_path defs_selector svg p d (head_elem_of _ _ Hhd))
      as (Hp & Hget & Hm).
    exists (set_datum None d). split; [|split; [done|split]].
    + by apply selectAll_update_head.
    + by rewrite selectAll_set_datum.
    + intros s _.
      pose proof (count_update s (set_datum None) p svg d Hp Hget eq_refl) as H.
      rewrite count_set_datum in H. lia.
  - apply head_None in Hhd.
    exists (element "defs" None). split; [|split; [done|split; [done|]]].
    + rewrite selectAll_appendChild_leaf by done. by rewrite Hhd.
    + intros s Hs. rewrite count_appendChild.
      assert (weight s (element "defs" None : node D) = 0%nat) as ->; [|lia].
      unfold weight, matches. cbn [tag element].
      destruct (String.eqb_spec "defs" (sel_tag s)) as [E|_]; [by rewrite <- E in Hs|done].
Qed.

(** When the first [defs] already carries [null], the statements change
    nothing. *)
Lemma ensure_defs_again svg p d :
  head (selectAll defs_selector svg) = Some (p, d) → datum d = None →
  ensure_defs svg = (svg, p).
Proof.
  intros Hhd Hd. unfold ensure_defs, join_one. rewrite Hhd. f_equal.
  destruct (selectAll_path defs_selector svg p d (head_elem_of _ _ Hhd))
    as (Hp & Hget & Hm).
  apply (update_fixed p _ svg d Hget). destruct d. cbn in *. by rewrite Hd.
Qed.

(** Facts about the new pattern element, whatever its id. *)
Lemma new_pattern_facts (id : string) :
  matches pattern_selector (new_pattern id : node D) = true
  ∧ selectAll pattern_selector (new_pattern id : node D) = []
  ∧ datum (new_pattern id : node D) = None
  ∧ getAttribute "id" (new_pattern id : node D) = Some id
  ∧ weight pattern_selector (new_pattern id : node D) = 1%nat
  ∧ weight (Selector "pattern" None) (new_pattern id : node D) = 1%nat.
Proof. by vm_compute. Qed.

(** A call on an element without checker pattern: one pattern with a newly
    generated id is appended to the first [defs]. *)
Lemma ensure_pattern_first svg (ids : SvgIds.table) :
  no_checker_pattern svg →
  let id := (SvgIds.generateSvgID "checkerPattern" ids).1 in
  ∃ svg' p d,
    ensure_pattern svg ids
    = (svg', (SvgIds.generateSvgID "checkerPattern" ids).2, Some id)
    ∧ head (selectAll defs_selector svg') = Some (p, appendChild (new_pattern id) d)
    ∧ datum d = None
    ∧ selectAll pattern_selector d = []
    ∧ ∀ s, sel_tag s ≠ "defs" →
           count s svg' = (count s svg + weight s (new_pattern id : node D))%nat.
Proof.
  intros Hno id.
  destruct (ensure_defs_first svg Hno) as (d1 & Hhd & Hd1 & Hpat & Hcount).
  unfold ensure_pattern.
  destruct (ensure_defs svg) as [svg1 p] eqn:Hdefs. cbn [fst snd] in *.
  destruct (selectAll_path defs_selector svg1 p d1 (head_elem_of _ _ Hhd))
    as (Hp & Hget & Hm).
  rewrite Hget, Hpat. cbn [tail head fmap list_fmap].
  rewrite (update_fixed p (remove_all []) svg1 d1 Hget eq_refl).
  destruct (SvgIds.generateSvgID "checkerPattern" ids) as [id' ids'] eqn:Hgen.
  subst id. cbn [fst snd].
  exists (update p (appendChild (new_pattern id')) svg1), p, d1.
  split; [done|]. split; [|split; [done|split; [done|]]].
  - apply selectAll_update_head; [done|].
    rewrite <- Hm. by apply matches_shell.
  - intros s Hs.
    pose proof (count_update s (appendChild (new_pattern id')) p svg1 d1 Hp Hget) as H.
    rewrite count_appendChild, (Hcount s Hs) in H.
    specialize (H (matches_shell s _ _ eq_refl eq_refl)). lia.
Qed.

(** A call on an element whose first [defs] ends with the pattern made by
    an earlier call: nothing changes, the id of that pattern is returned. *)
Lemma ensure_pattern_again svg (ids : SvgIds.table) p d id :
  head (selectAll defs_selector svg) = Some (p, appendChild (new_pattern id) d) →
  datum d = None → selectAll pattern_selector d = [] →
  ensure_pattern svg ids = (svg, ids, Some id).
Proof.
  intros Hhd Hd Hpat. unfold ensure_pattern.
  destruct (new_pattern_facts id) as (Hm & Hsel & Hdat & Hid & _).
  rewrite (ensure_defs_again svg p _ Hhd) by (by destruct d).
  destruct (selectAll_path defs_selector svg p _ (head_elem_of _ _ Hhd))
    as (Hp & Hget & _).
  rewrite Hget, (selectAll_appendChild_leaf _ _ _ Hsel), Hpat, Hm.
  cbn [app tail head fmap list_fmap fst].
  rewrite (update_fixed p (remove_all []) svg _ Hget eq_refl).
  assert (Hq : get [length (children d)] (appendChild (new_pattern id) d)
               = Some (new_pattern id)).
  { cbn [get appendChild children]. by rewrite lookup_app_r, Nat.sub_diag by lia. }
  assert (Hfix : update p (update [length (children d)] (set_datum None)) svg = svg).
  { apply (update_fixed p _ svg _ Hget).
    apply (update_fixed _ _ _ _ Hq). by vm_compute. }
  rewrite Hfix, get_app, Hget. cbn [mbind option_bind]. rewrite Hq. cbn [from_option].
  by rewrite Hid.
Qed.

End PatternFacts.

Section PatternClaims.
Import Dom Pattern.
Context {D : Type}.

(** C10.  On an SVG element without checker pattern, the first call of
    [ensureCheckerPattern] generates an id, creates exactly one pattern
    element and returns that id; every later call on the result, whatever
    ids have been generated in between, changes nothing and returns the
    same id. *)
Theorem ensureCheckerPattern_idempotent (svg : node D) (ids : SvgIds.table) :
  no_checker_pattern svg →
  let id := (SvgIds.generateSvgID "checkerPattern" ids).1 in
  ∃ svg',
    ensureCheckerPattern [svg] ids
    = (Id (Some id), [svg'], (SvgIds.generateSvgID "checkerPattern" ids).2)
    ∧ count (Selector "pattern" None) svg' = S (count (Selector "pattern" None) svg)
    ∧ count pattern_selector svg' = S (count pattern_selector svg)
    ∧ ∀ ids', ensureCheckerPattern [svg'] ids' = (Id (Some id), [svg'], ids').
Proof.
  intros Hno id.
  destruct (ensure_pattern_first svg ids Hno)
    as (svg' & p & d & Hrun & Hhd & Hd & Hpat & Hcount).
  fold id in Hrun, Hhd, Hcount.
  destruct (new_pattern_facts (D:=D) id) as (_ & _ & _ & _ & Hw1 & Hw2).
  exists svg'. split; [|split; [|split]].
  - unfold ensureCheckerPattern. cbn [ensure_patterns]. by rewrite Hrun.
  - rewrite Hcount by done. fold id. rewrite Hw2. lia.
  - rewrite Hcount by done. fold id. rewrite Hw1. lia.
  - intros ids'. unfold ensureCheckerPattern. cbn [ensure_patterns].
    by rewrite (ensure_pattern_again svg' ids' p d id Hhd Hd Hpat).
Qed.

End PatternClaims.

Lemma ensureCheckerPattern_idempotent_witness :
  let svg : Dom.node unit :=
    Dom.Node "svg" [] None [Dom.Node "defs" [] None [Dom.Node "linearGradient" [("id", "g")] None []]] in
  ∃ svg',
    Pattern.ensureCheckerPattern [svg] ∅ = (Pattern.Id (Some "checkerPattern-1"), [svg'],
                                     {[ "checkerPattern" := SvgIds.JNum 1 ]})
    ∧ ∀ ids', Pattern.ensureCheckerPattern [svg'] ids' = (Pattern.Id (Some "checkerPattern-1"), [svg'], ids').
Proof.
  intros svg.
  destruct (ensureCheckerPattern_idempotent svg ∅) as (svg' & H1 & _ & _ & H2).
  - reflexivity.
  - exists svg'. split; [|exact H2]. rewrite H1. reflexivity.
Defined.

(* ===================================================================== *)
(** * The colour handle *)
(* ===================================================================== *)

Section HandleFacts.
Import Dom Handle.
Context {D : Type}.
Implicit Types (n m c e b tr bb bx : node D) (s : selector).

(** The join on an element without match appends a new element. *)
Lemma join_one_fresh s t d init n :
  selectAll s n = [] →
  join_one s t d init n
  = (appendChild (init (element t d)) n, [length (children n)]).
Proof. intros H. unfold join_one. by rewrite H. Qed.

Lemma update_appended f c n :
  update [length (children n)] f (appendChild c n) = appendChild (f c) n.
Proof.
  destruct n as [t a d cs]. cbn. f_equal.
  rewrite alter_app_r_alt by lia. by rewrite Nat.sub_diag.
Qed.

(** An appended leaf that does not match is not selected. *)
Lemma selectAll_appendChild_other s c n :
  selectAll s c = [] → matches s c = false →
  selectAll s (appendChild c n) = selectAll s n.
Proof.
  intros Hc Hm. rewrite (selectAll_appendChild_leaf s c n Hc), Hm.
  by rewrite app_nil_r.
Qed.

Lemma selectAll_appendChild_match s c n :
  selectAll s c = [] → matches s c = true → selectAll s n = [] →
  selectAll s (appendChild c n) = [([length (children n)], c)].
Proof.
  intros Hc Hm Hn. by rewrite (selectAll_appendChild_leaf s c n Hc), Hm, Hn.
Qed.

(** ** Rendering again *)

Lemma handle_polygon_attr cls k v e :
  k ≠ "class" → handle_polygon cls e → handle_polygon cls (attr k v e).
Proof.
  intros Hk (Ht & Hc & Hch). unfold handle_polygon.
  by rewrite tag_attr, classes_attr, children_attr.
Qed.

Lemma handle_polygon_set_datum cls d e :
  handle_polygon cls e → handle_polygon cls (set_datum d e).
Proof. by intros (Ht & Hc & Hch). Qed.

Lemma handle_polygon_attr_color cls k col e :
  k ≠ "class" → handle_polygon cls e → handle_polygon cls (attr_color k col e).
Proof. intros Hk He. destruct col; by apply handle_polygon_attr. Qed.

Lemma handle_polygon_element cls (d : option D) :
  String.words cls = [cls] →
  handle_polygon cls (attr "class" (Some cls) (element "polygon" d)).
Proof. intros H. repeat split. unfold classes. cbn. exact H. Qed.

Lemma matches_handle_polygon cls cls' e :
  handle_polygon cls e →
  matches (Selector "polygon" (Some cls')) e = String.eqb cls' cls.
Proof.
  intros (Ht & Hc & _). unfold matches. rewrite Ht, Hc. cbn.
  by rewrite orb_false_r.
Qed.

Lemma selectAll_handle_polygon s cls e : handle_polygon cls e → selectAll s e = [].
Proof.
  intros (_ & _ & Hch). unfold selectAll. by rewrite descendants_children, Hch.
Qed.

(** The polygons of a handle are found by their class. *)
Lemma selectAll_rendered t a d cs b tr bb bx cls :
  fresh_container (Node t a d cs) →
  handle_polygon "border" b → handle_polygon "triangle" tr →
  handle_polygon "bbox" bb → handle_polygon "box" bx →
  cls ∈ ["border"; "triangle"; "bbox"; "box"] →
  selectAll (Selector "polygon" (Some cls)) (Node t a d (cs ++ [b; tr; bb; bx]))
  = if String.eqb cls "border" then [([length cs + 0], b)]
    else if String.eqb cls "triangle" then [([length cs + 1], tr)]
    else if String.eqb cls "bbox" then [([length cs + 2], bb)]
    else [([length cs + 3], bx)].
Proof.
  intros (F1 & F2 & F3 & F4) Hb Htr Hbb Hbx Hcls.
  set (s := Selector "polygon" (Some cls)).
  assert (Hfresh : selectAll s (Node t a d cs) = []).
  { repeat (apply elem_of_cons in Hcls as [->|Hcls]); try done.
    by apply elem_of_nil in Hcls. }
  unfold selectAll in *. rewrite descendants_eq in *.
  rewrite descendants_from_app, filter_app, Hfresh. cbn [app Nat.add].
  replace (length cs + 0)%nat with (length cs) by lia.
  replace (length cs + 1)%nat with (S (length cs)) by lia.
  replace (length cs + 2)%nat with (S (S (length cs))) by lia.
  replace (length cs + 3)%nat with (S (S (S (length cs)))) by lia.
  rewrite !selectAll_from_cons.
  rewrite (selectAll_handle_polygon s _ b Hb), (selectAll_handle_polygon s _ tr Htr),
    (selectAll_handle_polygon s _ bb Hbb), (selectAll_handle_polygon s _ bx Hbx).
  unfold s.
  rewrite (matches_handle_polygon _ cls b Hb), (matches_handle_polygon _ cls tr Htr),
    (matches_handle_polygon _ cls bb Hbb), (matches_handle_polygon _ cls bx Hbx).
  repeat (apply elem_of_cons in Hcls as [->|Hcls]); try done.
  by apply elem_of_nil in Hcls.
Qed.

Lemma update_child t a (d : option D) (cs l : list (node D)) k f :
  update [length cs + k] f (Node t a d (cs ++ l)) = Node t a d (cs ++ alter f k l).
Proof. cbn. by rewrite alter_app_r. Qed.

End HandleFacts.

(** Solve that an updated polygon is still a polygon of its class. *)
Ltac poly :=
  repeat first
    [ assumption
    | apply handle_polygon_set_datum
    | apply handle_polygon_attr; [discriminate|]
    | apply handle_polygon_attr_color; [discriminate|]
    | apply handle_polygon_element; reflexivity ].

Section RenderInvariant.
Import Dom Handle.
Context {D : Type}.
Variable fmt : Q → string.

(** Rendering establishes and keeps the polygons of the handle: afterwards
    the element holds exactly one polygon of each class, as its last four
    children. *)
Lemma render_one_rendered (st : state D) (container : node D) :
  fresh_container container ∨ rendered_container container →
  rendered_container (render_one fmt st container).
Proof.
  intros Hcontainer. unfold render_one.
  destruct Hcontainer as [Hfresh|Hrendered].
  - pose proof Hfresh as (Hborder & Htriangle & Hbbox & Hbox).
    rewrite (join_one_fresh border_selector _ _ _ _ Hborder). cbv iota beta.
    rewrite update_appended.
    rewrite join_one_fresh
      by (by rewrite selectAll_appendChild_other by (by vm_compute)).
    cbv iota beta. rewrite update_appended.
    rewrite join_one_fresh
      by (by do 2 (rewrite selectAll_appendChild_other by (by vm_compute))).
    cbv iota beta. rewrite update_appended.
    rewrite join_one_fresh
      by (by do 3 (rewrite selectAll_appendChild_other by (by vm_compute))).
    cbv iota beta. rewrite update_appended.
    eexists container, _, _, _, _. split; [done|]. split.
    { cbn [appendChild children]. rewrite <- !app_assoc. reflexivity. }
    split; [poly|split; [poly|split; poly]].
  - destruct Hrendered as (n0 & b & tr & bb & bx & Hfresh & Hch & Hb & Htr & Hbb & Hbx).
    destruct container as [t a d cs']. cbn [children datum] in *. subst cs'.
    set (cs := children n0).
    assert (Hcs : fresh_container (Node t a d cs)).
    { destruct Hfresh as (F1 & F2 & F3 & F4). unfold fresh_container.
      by rewrite !(selectAll_children _ (Node t a d cs) n0). }
    unfold join_one, border_selector, triangle_selector, bbox_selector, box_selector.
    do 4 (rewrite selectAll_rendered by (poly || set_solver);
          cbn [String.eqb Ascii.eqb Bool.eqb head]; cbv iota beta;
          rewrite !update_child; cbn [alter list_alter]).
    eexists n0, _, _, _, _. split; [done|]. split; [reflexivity|].
    split; [poly|split; [poly|split; poly]].
Qed.

End RenderInvariant.

Section HandleClaims.
Import Dom Handle.
Context {D : Type}.
Variable fmt : Q → string.

(** C8.  Rendering a handle of width [w] and height [h] with the colour
    accessor [f] into a selection puts, into each element of the selection
    (which holds no polygon of a handle yet, or those of an earlier
    rendering), one triangle polygon with points [0 0, w/2 w/2, -w/2 w/2]
    and one box polygon with the points of a [w] by [h] rectangle,
    translated by [(-w/2, w/2)], bound to the datum of the element and
    filled with [f] of that datum. *)
Theorem render_emits (selection : list (node D)) (i : nat) (container : node D)
    (w h bt : Q) (f : option D → option string) :
  selection !! i = Some container →
  fresh_container container ∨ rendered_container container →
  let c := (w / 2)%Q in
  ∃ n' pt t pb b,
    render fmt (State w h bt (ColorFn f)) selection !! i = Some n'
    ∧ selectAll triangle_selector n' = [(pt, t)]
    ∧ getAttribute "points" t
      = Some ("0 0, " +:+ fmt c +:+ " " +:+ fmt c +:+ ", "
              +:+ fmt (- c) +:+ " " +:+ fmt c)
    ∧ selectAll box_selector n' = [(pb, b)]
    ∧ getAttribute "points" b
      = Some ("0 0, " +:+ fmt w +:+ " 0, " +:+ fmt w +:+ " " +:+ fmt h
              +:+ ", 0 " +:+ fmt h)
    ∧ getAttribute "transform" b
      = Some ("translate(" +:+ fmt (- c) +:+ ", " +:+ fmt c +:+ ")")
    ∧ datum b = datum container
    ∧ getAttribute "fill" b = f (datum container).
Proof.
  intros Hi Hcontainer c.
  unfold render. rewrite list_lookup_fmap, Hi. cbn [fmap option_fmap option_map].
  unfold render_one. cbn [st_width st_height st_borderThickness st_color].
  fold c.
  destruct Hcontainer as [(Hborder & Htriangle & Hbbox & Hbox)|Hrendered].
  - (* all four polygons enter *)
    rewrite (join_one_fresh border_selector _ _ _ _ Hborder). cbv iota beta.
    rewrite update_appended.
    rewrite join_one_fresh
      by (by rewrite selectAll_appendChild_other by (by vm_compute)).
    cbv iota beta. rewrite update_appended.
    rewrite join_one_fresh
      by (by do 2 (rewrite selectAll_appendChild_other by (by vm_compute))).
    cbv iota beta. rewrite update_appended.
    rewrite join_one_fresh
      by (by do 3 (rewrite selectAll_appendChild_other by (by vm_compute))).
    cbv iota beta. rewrite update_appended.
    cbn [attr_color]. rewrite !datum_attr. cbn [element datum].
    destruct (f (datum container)) as [colour|] eqn:Hf.
    + eexists _, _, _, _, _. split; [reflexivity|]. split.
      { do 2 (rewrite selectAll_appendChild_other by (by vm_compute)).
        rewrite selectAll_appendChild_match;
          [reflexivity|by vm_compute|by vm_compute|].
        by rewrite selectAll_appendChild_other by (by vm_compute). }
      split; [by vm_compute|]. split.
      { rewrite selectAll_appendChild_match;
          [reflexivity|by vm_compute|by vm_compute|].
        by do 3 (rewrite selectAll_appendChild_other by (by vm_compute)). }
      by vm_compute.
    + eexists _, _, _, _, _. split; [reflexivity|]. split.
      { do 2 (rewrite selectAll_appendChild_other by (by vm_compute)).
        rewrite selectAll_appendChild_match;
          [reflexivity|by vm_compute|by vm_compute|].
        by rewrite selectAll_appendChild_other by (by vm_compute). }
      split; [by vm_compute|]. split.
      { rewrite selectAll_appendChild_match;
          [reflexivity|by vm_compute|by vm_compute|].
        by do 3 (rewrite selectAll_appendChild_other by (by vm_compute)). }
      by vm_compute.
  - (* all four polygons are updated *)
    destruct Hrendered as (n0 & b & tr & bb & bx & Hfresh & Hch & Hb & Htr & Hbb & Hbx).
    destruct container as [t a d cs']. cbn [children datum] in *. subst cs'.
    set (cs := children n0).
    assert (Hcs : fresh_container (Node t a d cs)).
    { destruct Hfresh as (F1 & F2 & F3 & F4). unfold fresh_container.
      by rewrite !(selectAll_children _ (Node t a d cs) n0). }
    unfold join_one, border_selector, triangle_selector, bbox_selector, box_selector.
    rewrite selectAll_rendered by (done || set_solver).
    cbn [String.eqb Ascii.eqb Bool.eqb head]. cbv iota beta.
    rewrite !update_child. cbn [alter list_alter].
    rewrite selectAll_rendered by (poly || set_solver).
    cbn [String.eqb Ascii.eqb Bool.eqb head]. cbv iota beta.
    rewrite !update_child. cbn [alter list_alter].
    rewrite selectAll_rendered by (poly || set_solver).
    cbn [String.eqb Ascii.eqb Bool.eqb head]. cbv iota beta.
    rewrite !update_child. cbn [alter list_alter].
    rewrite selectAll_rendered by (poly || set_solver).
    cbn [String.eqb Ascii.eqb Bool.eqb head]. cbv iota beta.
    rewrite !update_child. cbn [alter list_alter].
    eexists _, _, _, _, _. split; [reflexivity|].
    split; [by rewrite selectAll_rendered by (poly || set_solver)|].
    split; [by rewrite getAttribute_attr_eq|].
    split; [by rewrite selectAll_rendered by (poly || set_solver)|].
    split; [by rewrite getAttribute_attr_ne, getAttribute_attr_eq by done|].
    split; [by rewrite getAttribute_attr_eq|].
    cbn [attr_color]. split; [by rewrite !datum_attr|].
    rewrite !getAttribute_attr_ne by done.
    by rewrite getAttribute_attr_eq.
Qed.

End HandleClaims.

Lemma render_emits_witness :
  let fmt := λ q : Q, pretty (Qnum q) +:+ "/" +:+ pretty (Zpos (Qden q)) in
  let container : Dom.node string := Dom.Node "g" [] (Some "red") [] in
  ∃ n' pt t pb b,
    Handle.render fmt (Handle.State 10 15 1 (Handle.ColorFn Handle.constant))
      [container] !! 0%nat = Some n'
    ∧ Dom.selectAll Handle.triangle_selector n' = [(pt, t)]
    ∧ Dom.getAttribute "points" t = Some "0 0, 10/2 10/2, -10/2 10/2"
    ∧ Dom.selectAll Handle.box_selector n' = [(pb, b)]
    ∧ Dom.getAttribute "fill" b = Some "red".
Proof.
  intros fmt container.
  destruct (render_emits fmt [container] 0%nat container 10 15 1 Handle.constant)
    as (n' & pt & t & pb & b & H1 & H2 & H3 & H4 & _ & _ & _ & H8).
  - reflexivity.
  - left. repeat split; reflexivity.
  - exists n', pt, t, pb, b. repeat split; assumption.
Defined.

Section PropertyClaims.
Import Handle.
Context {D : Type}.

(** C9.  For a handle and each of its properties [color], [width], [height]
    and [borderThickness]: the call with an argument returns the handle
    itself, after it the call without argument returns the argument, and the
    other three properties read as before. *)
Theorem property_set_then_get (hs : handles D) (handle : nat) (st : state D) :
  hs !! handle = Some st →
  (∀ v, ∃ hs',
      color (Some v) handle hs = (Chained handle, hs')
      ∧ color None handle hs' = (ColorValue v, hs')
      ∧ width None handle hs' = (fst (width None handle hs), hs')
      ∧ height None handle hs' = (fst (height None handle hs), hs')
      ∧ borderThickness None handle hs' = (fst (borderThickness None handle hs), hs'))
  ∧ (∀ v, ∃ hs',
      width (Some v) handle hs = (Chained handle, hs')
      ∧ width None handle hs' = (NumberValue v, hs')
      ∧ color None handle hs' = (fst (color None handle hs), hs')
      ∧ height None handle hs' = (fst (height None handle hs), hs')
      ∧ borderThickness None handle hs' = (fst (borderThickness None handle hs), hs'))
  ∧ (∀ v, ∃ hs',
      height (Some v) handle hs = (Chained handle, hs')
      ∧ height None handle hs' = (NumberValue v, hs')
      ∧ color None handle hs' = (fst (color None handle hs), hs')
      ∧ width None handle hs' = (fst (width None handle hs), hs')
      ∧ borderThickness None handle hs' = (fst (borderThickness None handle hs), hs'))
  ∧ (∀ v, ∃ hs',
      borderThickness (Some v) handle hs = (Chained handle, hs')
      ∧ borderThickness None handle hs' = (NumberValue v, hs')
      ∧ color None handle hs' = (fst (color None handle hs), hs')
      ∧ width None handle hs' = (fst (width None handle hs), hs')
      ∧ height None handle hs' = (fst (height None handle hs), hs')).
Proof.
  intros Hst. pose proof (lookup_lt_Some _ _ _ Hst) as Hlt.
  unfold color, width, height, borderThickness, property. rewrite Hst.
  repeat split; intros v; eexists; (split; [reflexivity|]);
    rewrite list_lookup_insert_eq by done; done.
Qed.

End PropertyClaims.

Lemma property_set_then_get_witness :
  let hs := (Handle.colorHandle []).2 in
  ∃ hs',
    Handle.width (Some 20%Q) 0%nat hs = (Handle.Chained 0%nat, hs')
    ∧ Handle.width None 0%nat hs' = (Handle.NumberValue 20, hs')
    ∧ Handle.height None 0%nat hs' = (Handle.NumberValue 15, hs').
Proof.
  intros hs.
  destruct (property_set_then_get hs 0%nat Handle.initial eq_refl)
    as (_ & Hw & _).
  destruct (Hw 20%Q) as (hs' & H1 & H2 & _ & H4 & _).
  exists hs'. repeat split; assumption.
Defined.

(* ===================================================================== *)
(** * The colorbar renderer *)
(* ===================================================================== *)

Section ColorbarFacts.
Import Colorbar.

(** The model reproduces the expected output of the tests. *)
Lemma gradient_expected_vertical :
  gradient vertical 10 30 (λ i, default "" (expected_fills !! i)) = expected_vertical
  ∧ border vertical 10 30 = expected_border_vertical.
Proof. split; reflexivity. Qed.

Lemma gradient_expected_horizontal :
  gradient horizontal 10 8 (λ i, default "" (expected_fills !! i)) = expected_horizontal
  ∧ border horizontal 10 8 = expected_border_horizontal.
Proof. split; reflexivity. Qed.

Lemma gradient_lookup o barLength breadth colour (i : nat) r :
  gradient o barLength breadth colour !! i = Some r ↔
  (i <= barLength)%nat
  ∧ r = match o with
        | vertical =>
            Rect (colour i) 0 (Z.of_nat (barLength - i)) breadth
              (if (i =? 0)%nat then 1 else 2)
        | horizontal =>
            Rect (colour i) (Z.of_nat i) 0
              (if (i =? barLength)%nat then 1 else 2) breadth
        end.
Proof.
  unfold gradient. rewrite list_lookup_fmap, fmap_Some. split.
  - intros (j & Hj & ->). apply lookup_seq in Hj as [-> Hlt]. split; [lia|done].
  - intros [Hle ->]. exists i. split; [|done]. apply lookup_seq. split; [done|lia].
Qed.



End ColorbarFacts.

(* ===================================================================== *)
(** * More about [generateSvgID]: the ids of a whole run *)
(* ===================================================================== *)

Section SvgIdsRun.
Import SvgIds.

Lemma calls_length ps t : length (fst (calls ps t)) = length ps.
Proof.
  revert t. induction ps as [|p ps IH]; intros t; [done|].
  rewrite calls_cons. cbn [fst length]. by rewrite IH.
Qed.

Lemma string_app_nil (s : string) : "" +:+ s = s.
Proof. reflexivity. Qed.

Lemma string_app_cons c (a b : string) : String c a +:+ b = String c (a +:+ b).
Proof. reflexivity. Qed.

(** A decimal numeral holds no dash. *)
Lemma pretty_N_go_no_dash x : ∀ s,
  (∀ a b, s ≠ a +:+ "-" +:+ b) → ∀ a b, pretty_N_go x s ≠ a +:+ "-" +:+ b.
Proof.
  induction (N.lt_wf_0 x) as [x _ IH]. intros s Hs a b.
  assert (x = 0 ∨ 0 < x)%N as [->|Hx] by lia.
  - rewrite pretty_N_go_0. apply Hs.
  - rewrite pretty_N_go_step by done. apply IH; [by apply N.div_lt|].
    intros [|c a'] b';
      repeat first [rewrite string_app_nil | rewrite string_app_cons].
    + unfold pretty_N_char. by repeat case_match.
    + intros [= _ H]. by apply Hs in H.
Qed.

Lemma pretty_N_no_dash (n : N) a b : pretty n ≠ a +:+ "-" +:+ b.
Proof.
  unfold pretty, pretty_N. case_decide.
  - destruct a as [|c [|c' a]];
      repeat first [rewrite string_app_nil | rewrite string_app_cons]; discriminate.
  - apply pretty_N_go_no_dash.
    intros [|c a'] b';
      repeat first [rewrite string_app_nil | rewrite string_app_cons]; discriminate.
Qed.

(** An id determines its prefix and its counter: the counter is what
    follows the last dash. *)
Lemma id_parts_inj p : ∀ q (n m : N),
  p +:+ "-" +:+ pretty n = q +:+ "-" +:+ pretty m → p = q ∧ n = m.
Proof.
  induction p as [|c p IH]; intros [|c' q] n m H;
    repeat first [rewrite string_app_nil in H | rewrite string_app_cons in H].
  - injection H as H. by apply (inj pretty) in H.
  - injection H as _ H. by apply pretty_N_no_dash in H.
  - injection H as _ H. symmetry in H. by apply pretty_N_no_dash in H.
  - injection H as -> H. apply IH in H as [-> ->]. done.
Qed.

Lemma count_prefix_app p l1 l2 :
  count_prefix p (l1 ++ l2) = (count_prefix p l1 + count_prefix p l2)%N.
Proof. unfold count_prefix. rewrite filter_app, length_app. lia. Qed.

(** The count of a prefix has grown by the time of a later call with it. *)
Lemma count_prefix_later p ps i j :
  (i < j)%nat → ps !! j = Some p →
  (count_prefix p (take (S i) ps) < count_prefix p (take (S j) ps))%N.
Proof.
  intros Hij Hj.
  rewrite (take_S_r ps j p Hj), count_prefix_app.
  assert (count_prefix p [p] = 1%N) as ->.
  { unfold count_prefix. by rewrite filter_cons_True. }
  assert (take j ps = take (S i) ps ++ drop (S i) (take j ps)) as ->.
  { rewrite <- (take_drop (S i) (take j ps)) at 1. f_equal.
    rewrite take_take. f_equal. lia. }
  rewrite count_prefix_app. lia.
Qed.

(** X1.  From the empty table of a freshly loaded module, in any run of
    calls, however the prefixes are interleaved: a call with a prefix that
    names no inherited property returns the prefix, a dash and the number of
    calls made with this prefix so far, the call itself included. *)
Theorem generateSvgID_nth_call (prefixes : list string) (k : nat) (prefix : string) :
  plain prefix → prefixes !! k = Some prefix →
  fst (calls prefixes ∅) !! k
  = Some (prefix +:+ "-" +:+ pretty (count_prefix prefix (take (S k) prefixes))).
Proof. apply calls_nth. Qed.

Lemma generateSvgID_nth_call_witness :
  plain "b" ∧ ["a"; "b"; "a"; "b"; "b"] !! 4%nat = Some "b"
  ∧ fst (calls ["a"; "b"; "a"; "b"; "b"] ∅) !! 4%nat = Some "b-3".
Proof.
  split; [reflexivity|]. split; [reflexivity|].
  exact (generateSvgID_nth_call ["a"; "b"; "a"; "b"; "b"] 4 "b" eq_refl eq_refl).
Defined.

(** X2.  In a run of calls from the empty table with prefixes that name no
    inherited property, no id is returned twice, whether the two calls have
    the same prefix or different ones (a prefix may itself end in a dash and
    digits). *)
Theorem generateSvgID_ids_unique (prefixes : list string) :
  Forall plain prefixes → NoDup (fst (calls prefixes ∅)).
Proof.
  intros Hplain. apply NoDup_alt. intros i j id Hi Hj.
  assert (∀ k, fst (calls prefixes ∅) !! k = Some id →
            ∃ p, prefixes !! k = Some p ∧ plain p
                 ∧ id = p +:+ "-" +:+ pretty (count_prefix p (take (S k) prefixes)))
    as Hid.
  { intros k Hk. pose proof (lookup_lt_Some _ _ _ Hk) as Hlt.
    rewrite calls_length in Hlt.
    destruct (lookup_lt_is_Some_2 prefixes k Hlt) as [p Hp].
    pose proof (Forall_lookup_1 _ _ _ _ Hplain Hp) as Hpl.
    exists p. split; [done|]. split; [done|].
    rewrite (calls_nth prefixes p k Hpl Hp) in Hk. by injection Hk as <-. }
  destruct (Hid i Hi) as (p & Hpi & _ & ->).
  destruct (Hid j Hj) as (q & Hqj & _ & Heq).
  apply id_parts_inj in Heq as [-> Hcount].
  destruct (Nat.lt_trichotomy i j) as [Hlt|[->|Hlt]]; [|done|].
  - pose proof (count_prefix_later q prefixes i j Hlt Hqj). lia.
  - pose proof (count_prefix_later q prefixes j i Hlt Hpi). lia.
Qed.

Lemma generateSvgID_ids_unique_witness :
  Forall plain ["a"; "a-1"; "a"; ""; "a-1"]
  ∧ NoDup (fst (calls ["a"; "a-1"; "a"; ""; "a-1"] ∅)).
Proof.
  assert (H : Forall plain ["a"; "a-1"; "a"; ""; "a-1"]).
  { repeat constructor. }
  split; [exact H|]. exact (generateSvgID_ids_unique _ H).
Defined.

(** The names of the properties that are not plain. *)
Lemma not_plain_cases p v :
  Object_prototype p = Some v →
  (p = "__proto__" ∧ v = JObjectPrototype)
  ∨ (p ≠ "__proto__" ∧ ∃ name, v = JNative name).
Proof.
  unfold Object_prototype.
  destruct (String.eqb_spec p "__proto__") as [->|Hp]; [intros [= <-]; by left|].
  intros H. right. split; [done|].
  repeat case_match; simplify_eq; by eexists.
Qed.

(** X3.  The first call with a prefix returns the prefix followed by [-1]
    exactly when the prefix names no property that the table inherits from
    [Object.prototype]. *)
Theorem generateSvgID_first_id (prefix : string) :
  fst (generateSvgID prefix ∅) = prefix +:+ "-1" ↔ plain prefix.
Proof.
  split.
  - intros H. unfold plain.
    destruct (Object_prototype prefix) as [v|] eqn:Hv; [exfalso|done].
    destruct (not_plain_cases prefix v Hv) as [[-> ->]|[Hp [name ->]]].
    + vm_compute in H. discriminate H.
    + rewrite (generateSvgID_entry prefix ∅ Hp) in H. cbn [fst] in H.
      unfold get in H. rewrite lookup_empty, Hv in H.
      apply (inj (String.app prefix)) in H.
      apply (f_equal String.length) in H. vm_compute in H.
      rewrite string_length_app in H. cbn in H. lia.
  - intros Hp. rewrite (generateSvgID_counter prefix ∅ 0 Hp); [done|].
    left. split; [done|]. apply lookup_empty.
Qed.

End SvgIdsRun.

(* ===================================================================== *)
(** * More about the inference and the axis scale *)
(* ===================================================================== *)

Section AxisScaleProperties.
Import D3 Common.

(** X4.  A scale that has a [range] but no [invert] method and is not
    ordinal (a band scale) is not given a linear substitute: the type
    inference calls the missing [invert], so [checkType], [scaleIsOrdinal]
    and [makeAxisScale] throw a [TypeError], leaving the probe copy behind
    and the scale as it was. *)
Theorem makeAxisScale_band_throws (h : heap) (scale : ref) ds r0 r1 extent :
  h !! scale = Some (Band ds r0 r1) →
  checkType scale h = (inl TypeError, h ++ [Band one_two 1 2])
  ∧ scaleIsOrdinal scale h = (inl TypeError, h ++ [Band one_two 1 2])
  ∧ makeAxisScale scale extent h = (inl TypeError, h ++ [Band one_two 1 2]).
Proof.
  intros Hr. split; [|split].
  - by rewrite (checkType_run h scale _ Hr).
  - by rewrite (scaleIsOrdinal_run h scale _ Hr).
  - by apply (makeAxisScale_without_invert_throws h scale ds r0 r1).
Qed.

Lemma makeAxisScale_band_throws_witness :
  let h := [Band [VStr "a"; VStr "b"] 0 10] in
  h !! 0%nat = Some (Band [VStr "a"; VStr "b"] 0 10)
  ∧ makeAxisScale 0%nat [0; 100]%Q h = (inl TypeError, h ++ [Band one_two 1 2]).
Proof.
  intros h. split; [reflexivity|].
  by destruct (makeAxisScale_band_throws h 0%nat [VStr "a"; VStr "b"] 0 10
                 [0; 100]%Q eq_refl) as (_ & _ & H).
Defined.

(** X5.  Whatever the scale and the extent: when [makeAxisScale] returns,
    the scale it returns is an object created by the call, never the colour
    scale itself or another scale that existed before, and the store has
    only grown. *)
Theorem makeAxisScale_returns_new
    (h : heap) (scale : ref) (extent : list Q) (r' : ref) (h' : heap) :
  makeAxisScale scale extent h = (inr r', h') →
  (length h <= r')%nat ∧ r' ≠ scale ∧ ∃ l, h' = h ++ l.
Proof.
  intros Hrun.
  destruct (keeps_makeAxisScale h scale extent []) as (l & Hl & Hnew).
  rewrite app_nil_r, Hrun in Hl, Hnew. cbn [fst snd] in Hl, Hnew.
  specialize (Hnew r' eq_refl). unfold new_in in Hnew.
  split; [done|]. split; [|by exists l].
  intros ->. unfold makeAxisScale, get_domain, bind, read in Hrun.
  destruct (h !! scale) as [sc|] eqn:Hsc; [|done].
  apply lookup_lt_Some in Hsc. lia.
Qed.

Lemma makeAxisScale_returns_new_witness :
  let h := [Sequential 0 1;
            Continuous Linear Value false [0; 1]%Q [VStr "red"; VStr "blue"]] in
  ∃ r' h', makeAxisScale 1%nat [0; 100]%Q h = (inr r', h')
           ∧ (2 <= r')%nat ∧ r' ≠ 1%nat ∧ ∃ l, h' = h ++ l.
Proof.
  intros h.
  destruct (makeAxisScale 1%nat [0; 100]%Q h) as [[e|r'] h'] eqn:E;
    [by vm_compute in E|].
  exists r', h'. split; [done|].
  exact (makeAxisScale_returns_new h 1%nat [0; 100]%Q r' h' E).
Defined.

(** X10.  The inference finds the kind of a scale of the toolkit, whatever
    its domain and range: it answers [linear] for a linear scale and [time]
    for a time scale, whatever its interpolator and clamped or not,
    [linear] for an identity scale as well, [not supported] for the power
    scale with exponent -1, [sequential] for a scale without [range]
    method, and [ordinal] for an ordinal scale whose
    [unknown] value is the implicit one or the number 1; it throws for an
    ordinal scale with another [unknown] value and for a band scale.  So
    [scaleIsOrdinal] is true exactly for the ordinal scales with such an
    [unknown] value.  Each call leaves its probe, a changed copy of the
    scale, in the store (none for a sequential scale). *)
Theorem checkType_by_kind (h : heap) (r : ref) (sc : D3.scale) :
  h !! r = Some sc →
  checkType r h = (type_of sc, h ++ probe_of sc)
  ∧ (fst (scaleIsOrdinal r h) = inr true
     ↔ ∃ ds rg u, sc = Ordinal ds rg u
                  ∧ (u = None ∨ ∃ v, u = Some v ∧ strict_eq_num v 1 = true)).
Proof.
  intros Hr. rewrite (checkType_run h r sc Hr), (scaleIsOrdinal_run h r sc Hr).
  split; [done|]. cbn [fst].
  destruct sc as [k i c ds rg|ds rg [u|]|ds r0 r1|x0 x1|ds]; cbn [type_of].
  - split; [by destruct k|]. by intros (? & ? & ? & [=] & _).
  - destruct (strict_eq_num u 1) eqn:E; split.
    + intros _. exists ds, rg, (Some u). split; [done|]. right. by exists u.
    + done.
    + done.
    + intros (? & ? & ? & [= <- <- <-] & [[=]|(v & [= <-] & Hv)]). congruence.
  - split; [|done]. intros _. exists ds, rg, None. split; [done|]. by left.
  - split; [done|]. by intros (? & ? & ? & [=] & _).
  - split; [done|]. by intros (? & ? & ? & [=] & _).
  - split; [done|]. by intros (? & ? & ? & [=] & _).
Qed.

Lemma checkType_by_kind_witness :
  let sc := Ordinal [VStr "a"] [VStr "red"; VStr "blue"] None in
  let pw := Continuous Reciprocal Value false [1; 10]%Q [VStr "red"; VStr "blue"] in
  checkType 0%nat [sc]
  = (inr "ordinal", [sc; Ordinal [VNum 1; VNum 2; VNum (3 # 2)] one_two None])
  ∧ fst (scaleIsOrdinal 0%nat [sc]) = inr true
  ∧ fst (checkType 0%nat [pw]) = inr "not supported".
Proof.
  intros sc pw.
  destruct (checkType_by_kind [sc] 0%nat sc eq_refl) as (H1 & H2).
  destruct (checkType_by_kind [pw] 0%nat pw eq_refl) as (H3 & _).
  split; [exact H1|]. split.
  - apply H2. exists [VStr "a"], [VStr "red"; VStr "blue"], None. split; [done|]. by left.
  - by rewrite H3.
Defined.

(** X23.  An identity scale with a non-empty domain passes for a linear
    scale, and [makeAxisScale] does not bring the extent into its axis
    scale: the scale it returns is an identity scale with the domain of the
    colour scale, which maps every number to itself, whatever the extent. *)
Theorem makeAxisScale_identity (h : heap) (scale : ref) (ds extent : list Q) :
  h !! scale = Some (Identity ds) → ds ≠ [] →
  ∃ (r' : ref) (h' : heap),
    fst (checkType scale h) = inr "linear"
    ∧ makeAxisScale scale extent h = (inr r', h')
    ∧ h' !! r' = Some (Identity ds)
    ∧ ∀ q, call r' (VNum q) h' = (inr (VNum q), h').
Proof.
  intros Hr Hne.
  assert (Hnum : ∀ l : list Q, map_err number (VNum <$> l) = inr l).
  { induction l as [|a l IH]; [done|]. cbn. by rewrite IH. }
  assert (Hmap : ∀ (l : heap) n e qs, l !! n = Some (Identity e) →
            mapM (λ v, call (length h + n)%nat v) (VNum <$> qs) (h ++ l)
            = (inr (VNum <$> qs), h ++ l)).
  { intros l n e qs Hn. induction qs as [|q qs IH]; [done|].
    cbn [fmap list_fmap mapM].
    erewrite bind_ok.
    2:{ unfold call. rewrite (bind_ok _ _ _ _ _ (read_new h l n _ Hn)). reflexivity. }
    fold (fmap (M:=list) VNum qs). by rewrite (bind_ok _ _ _ _ _ IH). }
  destruct ds as [|d0 ds']; [done|]. set (ds := d0 :: ds') in *.
  destruct (lookup_lt_is_Some_2 ds (length ds - 1)%nat) as [dl Hl]; [cbn; lia|].
  exists (length h + 2)%nat,
    (h ++ [Identity [1; 2]%Q; Identity extent; Identity ds]).
  split; [by rewrite (checkType_run h scale _ Hr)|]. split; [|split].
  - unfold makeAxisScale.
    mstep ltac:(exact (get_domain_plain h scale _ Hr)).
    mstep ltac:(exact (scaleIsOrdinal_run h scale _ Hr)). cbv iota.
    mstep ltac:(exact (read_old h _ scale _ Hr)). cbn [has_range has_invert andb].
    mstep ltac:(exact (copy_old h _ scale _ Hr)).
    cbn [domain_of]. rewrite length_fmap.
    rewrite (at_val_fmap VNum ds 0 d0 eq_refl), (at_val_fmap VNum ds _ _ Hl).
    mstep new_setter.
    mstep ltac:(eapply set_range_new;
                [reflexivity|cbn [with_range with_domain]; rewrite Hnum; reflexivity]).
    mstep ltac:(exact (copy_old h _ scale _ Hr)).
    mstep ltac:(eapply (Hmap _ 1%nat); reflexivity).
    erewrite set_range_new; [reflexivity|reflexivity|].
    cbn [with_range with_domain]. by rewrite Hnum.
  - by rewrite (lookup_app_r h _ (length h + 2)), Nat.add_comm, Nat.add_sub by lia.
  - intros q. unfold call.
    by rewrite (bind_ok _ _ _ _ _
                  (read_new h [Identity [1; 2]%Q; Identity extent; Identity ds] 2
                     (Identity ds) eq_refl)).
Qed.

Lemma makeAxisScale_identity_witness :
  let h := [Identity [0; 10]%Q] in
  ∃ (r' : ref) (h' : heap),
    makeAxisScale 0%nat [0; 100]%Q h = (inr r', h')
    ∧ h' !! r' = Some (Identity [0; 10]%Q)
    ∧ call r' (VNum 10) h' = (inr (VNum 10), h').
Proof.
  intros h.
  destruct (makeAxisScale_identity h 0%nat [0; 10]%Q [0; 100]%Q eq_refl)
    as (r' & h' & _ & H1 & H2 & H3); [done|].
  exists r', h'. split; [exact H1|]. split; [exact H2|]. exact (H3 10%Q).
Defined.

End AxisScaleProperties.

(* ===================================================================== *)
(** * Selections by a test on elements *)
(* ===================================================================== *)

Section SelectByFacts.
Import Dom Gradient.
Context {D : Type}.
Implicit Types (n m c : node D) (cs : list (node D)) (p q : path).

(** The test looks at the tag and the attributes of an element only. *)
Variable test : node D → bool.
Hypothesis test_shell :
  ∀ n n', tag n = tag n' → attrs n = attrs n' → test n = test n'.

Lemma join_one_join_by (s : selector) t (d : option D) init n :
  join_one s t d init n = join_by (matches s) t d init n.
Proof. reflexivity. Qed.

Lemma filter_below_by i (l : list (path * node D)) :
  filter (λ pm, test pm.2 = true) (below i l)
  = below i (filter (λ pm, test pm.2 = true) l).
Proof.
  unfold below. induction l as [|[p m] l IH]; [done|].
  rewrite fmap_cons, !filter_cons. cbn [fst snd].
  case_decide; by rewrite ?fmap_cons, IH.
Qed.

Lemma select_by_children n n' :
  children n = children n' → select_by test n = select_by test n'.
Proof. intros H. unfold select_by. by rewrite !descendants_children, H. Qed.

Lemma select_by_from_cons i c cs :
  filter (λ pm, test pm.2 = true) (descendants_from i (c :: cs))
  = (if test c then [([i], c)] else [])
    ++ below i (select_by test c)
    ++ filter (λ pm, test pm.2 = true) (descendants_from (S i) cs).
Proof.
  cbn [descendants_from].
  rewrite filter_cons, filter_app, filter_below_by.
  cbn [snd].
  unfold select_by. destruct (test c); by case_decide.
Qed.

Lemma select_by_path n p m :
  (p, m) ∈ select_by test n → p ≠ [] ∧ get p n = Some m ∧ test m = true.
Proof.
  unfold select_by. intros [Hm Hin]%list_elem_of_filter.
  destruct (descendants_path n p m Hin). done.
Qed.

Lemma test_update p f n : p ≠ [] → test (update p f n) = test n.
Proof using test_shell. intros Hp. apply test_shell; by apply update_shell. Qed.

(** Changing the first match, so that it still matches, keeps it the first
    match. *)
Lemma select_by_update_head f : ∀ n p m,
  head (select_by test n) = Some (p, m) →
  test (f m) = true →
  head (select_by test (update p f n)) = Some (p, f m).
Proof using test_shell.
  induction n as [t a d cs IH] using node_induction. intros p m Hhd Hf.
  unfold select_by in Hhd. rewrite descendants_eq in Hhd.
  enough (∃ j p', p = (0 + j)%nat :: p'
            ∧ head (filter (λ pm, test pm.2 = true)
                      (descendants_from 0 (alter (update p' f) j cs)))
              = Some (p, f m)) as (j & p' & -> & H).
  { unfold select_by. cbn [update tag attrs datum children Nat.add].
    by rewrite descendants_eq. }
  revert Hhd. generalize 0%nat as i. clear t a d.
  induction cs as [|c cs IHcs]; intros i Hhd; [done|].
  apply Forall_cons in IH as [IHc IH]. specialize (IHcs IH).
  rewrite select_by_from_cons in Hhd.
  destruct (test c) eqn:Hc.
  - injection Hhd as <- <-. exists 0%nat, []. rewrite Nat.add_0_r. split; [done|].
    cbn [alter list_alter update]. rewrite select_by_from_cons. by rewrite Hf.
  - cbn [app] in Hhd. destruct (select_by test c) as [|[p0 m0] rest] eqn:Hsel.
    + cbn [below fmap list_fmap app] in Hhd.
      destruct (IHcs (S i) Hhd) as (j & p' & -> & H).
      exists (S j), p'. split; [f_equal; lia|].
      cbn [alter list_alter]. rewrite select_by_from_cons, Hc, Hsel.
      cbn [below fmap list_fmap app]. by rewrite H.
    + cbn in Hhd. injection Hhd as <- <-.
      assert (Hp0 : p0 ≠ []).
      { apply (select_by_path c p0 m0). rewrite Hsel. by left. }
      exists 0%nat, p0. rewrite Nat.add_0_r. split; [done|].
      cbn [alter list_alter]. rewrite select_by_from_cons.
      rewrite (test_update p0 f c Hp0), Hc. cbn [app].
      specialize (IHc p0 m0 eq_refl Hf).
      destruct (select_by test (update p0 f c)) as [|[p1 m1] rest']; [done|].
      injection IHc as -> ->. done.
Qed.

(** The matches after a child without matching descendants is appended. *)
Lemma select_by_appendChild c n :
  select_by test c = [] →
  select_by test (appendChild c n)
  = select_by test n ++ (if test c then [([length (children n)], c)] else []).
Proof.
  intros Hc. unfold select_by. rewrite !descendants_children.
  cbn [appendChild children].
  rewrite descendants_from_app, filter_app, select_by_from_cons, Hc.
  cbn. by rewrite app_nil_r.
Qed.

End SelectByFacts.

(* ===================================================================== *)
(** * The linear gradient *)
(* ===================================================================== *)

Section GradientFacts.
Import Dom Pattern Gradient.
Context {D : Type}.
Implicit Types (n m c svg d g : node D) (p q : path) (s : selector).

Lemma gradient_matches_shell (id : string) n n' :
  tag n = tag n' → attrs n = attrs n' →
  gradient_matches id n = gradient_matches id n'.
Proof. intros Ht Ha. unfold gradient_matches, getAttribute. by rewrite Ht, Ha. Qed.

Lemma gradient_matches_spec (id : string) n :
  gradient_matches id n = true ↔
  tag n = "linearGradient" ∧ getAttribute "id" n = Some id.
Proof.
  unfold gradient_matches. rewrite andb_true_iff, bool_decide_eq_true.
  by rewrite String.eqb_eq.
Qed.

(** The new gradient element. *)
Lemma new_gradient_eq (id : string) :
  attr "id" (Some id) (element "linearGradient" None : node D)
  = Node "linearGradient" [("id", id)] None [].
Proof. reflexivity. Qed.

Lemma datum_update p f n : p ≠ [] → datum (update p f n) = datum n.
Proof. by destruct p. Qed.

(** The first three statements in general: the first [defs] of the result
    is the one returned, it carries the datum [null]; it is the first
    [defs] of the element, or a new last child when there was none. *)
Lemma ensure_defs_head svg :
  ∃ d1, head (selectAll defs_selector (ensure_defs svg).1)
        = Some ((ensure_defs svg).2, d1)
        ∧ datum d1 = None
        ∧ match head (selectAll defs_selector svg) with
          | Some (_, d0) => d1 = set_datum None d0
          | None => d1 = element "defs" None
          end
        ∧ ∀ s, count s (ensure_defs svg).1
               = (count s svg
                  + match head (selectAll defs_selector svg) with
                    | Some _ => 0
                    | None => if String.eqb "defs" (sel_tag s) then
                                match sel_class s with None => 1 | Some _ => 0 end
                              else 0
                    end)%nat.
Proof.
  unfold ensure_defs, join_one.
  destruct (head (selectAll defs_selector svg)) as [[p d]|] eqn:Hhd; cbn [fst snd].
  - destruct (selectAll_path defs_selector svg p d (head_elem_of _ _ Hhd))
      as (Hp & Hget & Hm).
    exists (set_datum None d). split; [|split; [done|split; [done|]]].
    + by apply selectAll_update_head.
    + intros s.
      pose proof (count_update s (set_datum None) p svg d Hp Hget eq_refl) as H.
      rewrite count_set_datum in H. lia.
  - apply head_None in Hhd.
    exists (element "defs" None). split; [|split; [done|split; [done|]]].
    + rewrite selectAll_appendChild_leaf by done. by rewrite Hhd.
    + intros s. rewrite count_appendChild. f_equal.
      unfold weight, matches, count. cbn [tag element].
      destruct (String.eqb "defs" (sel_tag s)); [|done].
      by destruct (sel_class s).
Qed.

(** The join of the gradient inside a [defs] element [d]. *)
Lemma join_gradient_spec (id : string) d :
  let join :=
    join_by (gradient_matches id) "linearGradient" None (attr "id" (Some id)) in
  tag (join d).1 = tag d ∧ attrs (join d).1 = attrs d ∧ datum (join d).1 = datum d
  ∧ ∃ g, head (select_by (gradient_matches id) (join d).1) = Some ((join d).2, g)
         ∧ get (join d).2 (join d).1 = Some g
         ∧ datum g = None
         ∧ match head (select_by (gradient_matches id) d) with
           | Some (_, g0) => g = set_datum None g0
           | None => g = Node "linearGradient" [("id", id)] None []
                     ∧ (join d).1 = appendChild g d
           end
         ∧ ∀ s, count s (join d).1
                = (count s d
                   + match head (select_by (gradient_matches id) d) with
                     | Some _ => 0
                     | None => if String.eqb "linearGradient" (sel_tag s) then
                                 match sel_class s with None => 1 | Some _ => 0 end
                               else 0
                     end)%nat.
Proof.
  intros join. unfold join, join_by.
  destruct (head (select_by (gradient_matches id) d)) as [[p g0]|] eqn:Hhd;
    cbn [fst snd].
  - destruct (select_by_path (gradient_matches id) d p g0 (head_elem_of _ _ Hhd))
      as (Hp & Hget & Hm).
    destruct (update_shell p (set_datum None) d Hp) as [Ht Ha].
    split; [done|]. split; [done|]. split; [by apply datum_update|].
    exists (set_datum None g0).
    split; [by apply (select_by_update_head _ (gradient_matches_shell id))|].
    split; [by apply get_update|]. split; [done|]. split; [done|].
    intros s.
    pose proof (count_update s (set_datum None) p d g0 Hp Hget eq_refl) as H.
    rewrite count_set_datum in H. lia.
  - apply head_None in Hhd. rewrite new_gradient_eq.
    split; [done|]. split; [done|]. split; [done|].
    exists (Node "linearGradient" [("id", id)] None []).
    split; [|split; [|split; [done|split; [done|]]]].
    + rewrite (select_by_appendChild (gradient_matches id)
                 (Node "linearGradient" [("id", id)] None []) d eq_refl), Hhd.
      cbn [app].
      assert (gradient_matches id (Node "linearGradient" [("id", id)] None [] : node D)
              = true) as ->; [|done].
      apply gradient_matches_spec. split; [done|].
      unfold getAttribute. cbn. done.
    + cbn [get appendChild children]. by rewrite lookup_app_r, Nat.sub_diag by lia.
    + intros s. rewrite count_appendChild. f_equal.
      unfold weight, matches, count. cbn [tag].
      destruct (String.eqb "linearGradient" (sel_tag s)); [|done].
      by destruct (sel_class s).
Qed.

(** The whole function on one element. *)
Lemma create_gradient_spec (id : string) svg :
  ∃ dp d gp g,
    create_gradient id svg = ((create_gradient id svg).1, dp ++ gp)
    ∧ head (selectAll defs_selector (create_gradient id svg).1) = Some (dp, d)
    ∧ datum d = None
    ∧ head (select_by (gradient_matches id) d) = Some (gp, g)
    ∧ get gp d = Some g
    ∧ datum g = None
    ∧ match head (selectAll defs_selector svg) with
      | Some (_, d0) =>
          match head (select_by (gradient_matches id) d0) with
          | Some (_, g0) => g = set_datum None g0
          | None => g = Node "linearGradient" [("id", id)] None []
                    ∧ children d = children d0 ++ [g]
          end
      | None => g = Node "linearGradient" [("id", id)] None []
                ∧ d = Node "defs" [] None [g]
      end
    ∧ (∀ s, sel_tag s ≠ "defs" → sel_tag s ≠ "linearGradient" →
            count s (create_gradient id svg).1 = count s svg)
    ∧ count defs_selector (create_gradient id svg).1
      = Nat.max 1 (count defs_selector svg).
Proof.
  destruct (ensure_defs_head svg) as (d1 & Hhd & Hd1 & Hcase & Hcount).
  unfold create_gradient.
  destruct (ensure_defs svg) as [svg1 dp] eqn:Hdefs. cbn [fst snd] in *.
  destruct (selectAll_path defs_selector svg1 dp d1 (head_elem_of _ _ Hhd))
    as (Hp & Hget & Hm).
  rewrite Hget. cbn [from_option].
  set (join := join_by (gradient_matches id) "linearGradient" None
                 (attr "id" (Some id))).
  destruct (join_gradient_spec id d1)
    as (Ht & Ha & Hdat & g & Hg & Hgget & Hgd & Hgcase & Hgcount).
  fold join in Ht, Ha, Hdat, Hg, Hgget, Hgcase, Hgcount.
  exists dp, (join d1).1, (join d1).2, g.
  split; [done|]. split.
  { apply (selectAll_update_head defs_selector (λ d, (join d).1) svg1 dp d1 Hhd).
    rewrite <- Hm. by apply matches_shell. }
  split; [by rewrite Hdat|]. split; [done|]. split; [done|]. split; [done|].
  split; [|split].
  - destruct (head (selectAll defs_selector svg)) as [[p0 d0]|].
    + subst d1. rewrite (select_by_children _ (set_datum None d0) d0 eq_refl) in Hgcase.
      destruct (head (select_by (gradient_matches id) d0)) as [[q g0]|]; [done|].
      destruct Hgcase as [-> Hj]. split; [done|]. by rewrite Hj.
    + subst d1.
      change (head (select_by (gradient_matches id) (element "defs" None)))
        with (@None (path * node D)) in Hgcase.
      destruct Hgcase as [-> Hj]. split; [done|]. by rewrite Hj.
  - intros s Hs1 Hs2.
    pose proof (count_update s (λ d, (join d).1) dp svg1 d1 Hp Hget) as H.
    rewrite Hgcount, Hcount in H.
    specialize (H (matches_shell s _ _ Ht Ha)).
    destruct (String.eqb_spec "defs" (sel_tag s)) as [E|_]; [by rewrite <- E in Hs1|].
    destruct (String.eqb_spec "linearGradient" (sel_tag s)) as [E|_];
      [by rewrite <- E in Hs2|].
    destruct (head (selectAll defs_selector svg)),
      (head (select_by (gradient_matches id) d1)); lia.
  - pose proof (count_update defs_selector (λ d, (join d).1) dp svg1 d1 Hp Hget) as H.
    rewrite Hgcount, Hcount in H.
    specialize (H (matches_shell defs_selector _ _ Ht Ha)).
    cbn [defs_selector sel_tag sel_class String.eqb Ascii.eqb Bool.eqb] in H.
    unfold count at 3 in H. unfold count at 2.
    destruct (selectAll defs_selector svg) as [|x l] eqn:Hsel; cbn [head length] in *.
    + destruct (head (select_by (gradient_matches id) d1)); lia.
    + destruct (head (select_by (gradient_matches id) d1)); lia.
Qed.

(** A second call finds what the first one left. *)
Lemma create_gradient_again (id : string) svg :
  create_gradient id (create_gradient id svg).1 = create_gradient id svg.
Proof.
  destruct (create_gradient_spec id svg)
    as (dp & d & gp & g & Hrun & Hhd & Hd & Hg & Hgget & Hgd & _).
  rewrite Hrun at 2. set (svg' := (create_gradient id svg).1) in *.
  destruct (selectAll_path defs_selector svg' dp d (head_elem_of _ _ Hhd))
    as (Hp & Hget & Hm).
  unfold create_gradient. rewrite (ensure_defs_again svg' dp d Hhd Hd), Hget.
  cbn [from_option].
  assert (Hjoin : join_by (gradient_matches id) "linearGradient" None
                    (attr "id" (Some id)) d = (d, gp)).
  { unfold join_by. rewrite Hg. f_equal.
    apply (update_fixed gp _ d g Hgget). destruct g. cbn in *. by rewrite Hgd. }
  rewrite Hjoin. cbn [fst snd]. f_equal.
  apply (update_fixed dp _ svg' d Hget). by rewrite Hjoin.
Qed.

End GradientFacts.

Section GradientProperties.
Import Dom Pattern Gradient.
Context {D : Type}.





End GradientProperties.




(*END*)

(* ===================================================================== *)
(** * More about the checker pattern: selections, patterns that exist *)
(* ===================================================================== *)

Section PatternMore.
Import Dom Pattern.
Context {D : Type}.
Implicit Types (n m c svg : node D) (p q : path) (s : selector).

Lemma get_set_datum q (d : option D) n :
  q ≠ [] → get q (set_datum d n) = get q n.
Proof. by destruct q. Qed.

(** The elements of a selection without checker pattern get patterns with
    consecutive ids, in the order of the selection. *)
Lemma ensure_patterns_fresh (selection : list (node D)) : ∀ (ids : SvgIds.table) (k : N),
  Forall no_checker_pattern selection →
  SvgIds.counter_is ids "checkerPattern" k →
  length (ensure_patterns selection ids).1 = length selection
  ∧ SvgIds.counter_is (ensure_patterns selection ids).2 "checkerPattern"
      (k + N.of_nat (length selection))
  ∧ ∀ i svg' id, (ensure_patterns selection ids).1 !! i = Some (svg', id) →
      id = Some ("checkerPattern-" +:+ pretty (k + 1 + N.of_nat i)%N)
      ∧ ∀ ids', ensure_pattern svg' ids' = (svg', ids', id).
Proof.
  induction selection as [|svg rest IH]; intros ids k Hno Hk.
  - cbn. rewrite N.add_0_r. done.
  - apply Forall_cons in Hno as [Hsvg Hrest].
    destruct (ensure_pattern_first svg ids Hsvg)
      as (svg' & p & d & Hrun & Hhd & Hd & Hpat & _).
    rewrite (generateSvgID_counter "checkerPattern" ids k eq_refl Hk) in Hrun, Hhd.
    cbn [fst snd] in Hrun, Hhd.
    cbn [ensure_patterns]. rewrite Hrun.
    specialize (IH (<["checkerPattern" := SvgIds.JNum (k + 1)]> ids) (k + 1)%N Hrest).
    destruct IH as (Hlen & Hcount & Hids); [right; apply lookup_insert_eq|].
    destruct (ensure_patterns rest _) as [done' ids2]. cbn [fst snd] in *.
    split; [cbn [length]; by rewrite Hlen|]. split.
    { cbn [length]. replace (k + N.of_nat (S (length rest)))%N
        with (k + 1 + N.of_nat (length rest))%N by lia. done. }
    intros [|i] svg2 id Hi.
    + injection Hi as <- <-. rewrite N.add_0_r. split; [done|].
      intros ids'. by apply (ensure_pattern_again svg' ids' p d).
    + destruct (Hids i svg2 id Hi) as [-> Hagain]. split; [|done].
      do 3 f_equal. lia.
Qed.

End PatternMore.

Section PatternProperties.
Import Dom Pattern.
Context {D : Type}.



End PatternProperties.



(* ===================================================================== *)
(** * More about the colour handle: what a call changes *)
(* ===================================================================== *)

Section AttrFacts.
Import Dom.
Context {D : Type}.
Implicit Types (n e : node D).

Lemma insert_attr_fixed k v a : lookup_attr k a = Some v → insert_attr k v a = a.
Proof.
  induction a as [|[k' v'] a IH]; cbn; [done|].
  destruct (String.eqb k' k); [by intros [= ->]|]. intros H. by rewrite IH.
Qed.

Lemma remove_attr_fixed k (a : list (string * string)) :
  lookup_attr k a = None → filter (λ kv, kv.1 ≠ k) a = a.
Proof.
  induction a as [|[k' v'] a IH]; [done|]. cbn [lookup_attr].
  destruct (String.eqb_spec k' k) as [->|Hne]; [done|]. intros H.
  rewrite filter_cons_True by done. by rewrite IH.
Qed.

(** Setting an attribute to the value it has changes nothing. *)
Lemma attr_fixed k v n : getAttribute k n = v → attr k v n = n.
Proof.
  destruct n as [t a d cs]. unfold getAttribute, attr, setAttribute, removeAttribute.
  cbn [attrs tag datum children]. intros H. destruct v as [v|]; f_equal.
  - by apply insert_attr_fixed.
  - by apply remove_attr_fixed.
Qed.

Lemma set_datum_fixed (d : option D) n : datum n = d → set_datum d n = n.
Proof. destruct n. cbn. by intros ->. Qed.

End AttrFacts.

(** Remove the settings that a polygon has already. *)
Ltac refix :=
  repeat first
    [ rewrite set_datum_fixed
        by (rewrite ?datum_attr; first [reflexivity | assumption])
    | rewrite attr_fixed
        by (rewrite ?getAttribute_attr_ne by done; apply getAttribute_attr_eq) ].

Section RenderShape.
Import Dom Handle HandleParts.
Context {D : Type}.
Variable fmt : Q → string.
Implicit Types (n e b tr bb bx : node D) (st : state D).

Lemma border_update_polygon st e :
  handle_polygon "border" e → handle_polygon "border" (border_update fmt st e).
Proof. intros H. unfold border_update. poly. Qed.

Lemma triangle_update_polygon st e :
  handle_polygon "triangle" e → handle_polygon "triangle" (triangle_update fmt st e).
Proof. intros H. unfold triangle_update. poly. Qed.

Lemma bbox_update_polygon st e :
  handle_polygon "bbox" e → handle_polygon "bbox" (bbox_update fmt st e).
Proof. intros H. unfold bbox_update. poly. Qed.

Lemma box_update_polygon st e :
  handle_polygon "box" e → handle_polygon "box" (box_update fmt st e).
Proof. intros H. unfold box_update. poly. Qed.

Lemma enter_polygons (d : option D) :
  handle_polygon "border" (border_enter (element "polygon" None : node D))
  ∧ handle_polygon "triangle" (triangle_enter (element "polygon" None : node D))
  ∧ handle_polygon "bbox" (bbox_enter (element "polygon" None : node D))
  ∧ handle_polygon "box" (box_enter (element "polygon" d)).
Proof.
  unfold border_enter, triangle_enter, bbox_enter, box_enter.
  split; [poly|split; [poly|split; poly]].
Qed.

(** A call on an element without polygons appends the four polygons, in
    the order border, triangle, bbox, box. *)
Lemma render_one_fresh_shape st t a (d : option D) cs :
  fresh_container (Node t a d cs) →
  render_one fmt st (Node t a d cs)
  = Node t a d
      (cs ++ [border_update fmt st (border_enter (element "polygon" None));
              triangle_update fmt st (triangle_enter (element "polygon" None));
              bbox_update fmt st (bbox_enter (element "polygon" None));
              box_update fmt st (box_enter (element "polygon" d))]).
Proof.
  intros (Hborder & Htriangle & Hbbox & Hbox). unfold render_one.
  rewrite (join_one_fresh border_selector _ _ _ _ Hborder). cbv iota beta.
  rewrite update_appended.
  rewrite join_one_fresh
    by (by rewrite selectAll_appendChild_other by (by vm_compute)).
  cbv iota beta. rewrite update_appended.
  rewrite join_one_fresh
    by (by do 2 (rewrite selectAll_appendChild_other by (by vm_compute))).
  cbv iota beta. rewrite update_appended.
  rewrite join_one_fresh
    by (by do 3 (rewrite selectAll_appendChild_other by (by vm_compute))).
  cbv iota beta. rewrite update_appended.
  unfold appendChild. cbn [tag attrs datum children]. rewrite <- !app_assoc.
  reflexivity.
Qed.

(** A call on an element that holds the four polygons binds the data
    again and sets the attributes again. *)
Lemma render_one_rendered_shape st t a (d : option D) cs b tr bb bx :
  fresh_container (Node t a d cs) →
  handle_polygon "border" b → handle_polygon "triangle" tr →
  handle_polygon "bbox" bb → handle_polygon "box" bx →
  render_one fmt st (Node t a d (cs ++ [b; tr; bb; bx]))
  = Node t a d
      (cs ++ [border_update fmt st (set_datum None b);
              triangle_update fmt st (set_datum None tr);
              bbox_update fmt st (set_datum None bb);
              box_update fmt st (set_datum d bx)]).
Proof.
  intros Hcs Hb Htr Hbb Hbx. unfold render_one.
  unfold join_one, border_selector, triangle_selector, bbox_selector, box_selector.
  do 4 (rewrite selectAll_rendered by (poly || set_solver);
        cbn [String.eqb Ascii.eqb Bool.eqb head]; cbv iota beta;
        rewrite !update_child; cbn [alter list_alter]).
  reflexivity.
Qed.

(** An element that holds the polygons of a handle is not one without. *)
Lemma rendered_not_fresh n : rendered_container n → ¬ fresh_container n.
Proof.
  intros (n0 & b & tr & bb & bx & Hfresh & Hch & Hb & Htr & Hbb & Hbx) (F1 & _).
  destruct n as [t a d cs']. cbn [children] in Hch. subst cs'.
  assert (Hcs : fresh_container (Node t a d (children n0))).
  { destruct Hfresh as (G1 & G2 & G3 & G4). unfold fresh_container.
    by rewrite !(selectAll_children _ (Node t a d (children n0)) n0). }
  unfold border_selector in F1.
  rewrite (selectAll_rendered t a d (children n0) b tr bb bx "border") in F1
    by first [done | by left].
  discriminate F1.
Qed.

(** The two cases together. *)
Lemma render_one_shape st n :
  fresh_container n ∨ rendered_container n →
  ∃ t a d cs old b tr bb bx,
    n = Node t a d (cs ++ old) ∧ fresh_container (Node t a d cs)
    ∧ (old = [] ∨ ∃ b0 tr0 bb0 bx0, old = [b0; tr0; bb0; bx0])
    ∧ render_one fmt st n
      = Node t a d
          (cs ++ [border_update fmt st b; triangle_update fmt st tr;
                  bbox_update fmt st bb; box_update fmt st bx])
    ∧ handle_polygon "border" b ∧ handle_polygon "triangle" tr
    ∧ handle_polygon "bbox" bb ∧ handle_polygon "box" bx
    ∧ datum b = None ∧ datum tr = None ∧ datum bb = None ∧ datum bx = d
    ∧ (fresh_container n →
       b = border_enter (element "polygon" None)
       ∧ tr = triangle_enter (element "polygon" None)
       ∧ bb = bbox_enter (element "polygon" None)
       ∧ bx = box_enter (element "polygon" d)).
Proof.
  intros [Hfresh|Hrendered].
  - destruct n as [t a d cs].
    destruct (enter_polygons d) as (Hb & Htr & Hbb & Hbx).
    exists t, a, d, cs, [], (border_enter (element "polygon" None)),
      (triangle_enter (element "polygon" None)),
      (bbox_enter (element "polygon" None)), (box_enter (element "polygon" d)).
    split; [by rewrite app_nil_r|]. split; [done|]. split; [by left|].
    split; [by apply render_one_fresh_shape|].
    repeat (split; [done|]). done.
  - destruct Hrendered as (n0 & b & tr & bb & bx & Hfresh & Hch & Hb & Htr & Hbb & Hbx).
    destruct n as [t a d cs']. cbn [children datum] in *. subst cs'.
    assert (Hcs : fresh_container (Node t a d (children n0))).
    { destruct Hfresh as (F1 & F2 & F3 & F4). unfold fresh_container.
      by rewrite !(selectAll_children _ (Node t a d (children n0)) n0). }
    exists t, a, d, (children n0), [b; tr; bb; bx], (set_datum None b),
      (set_datum None tr), (set_datum None bb), (set_datum d bx).
    split; [done|]. split; [done|]. split; [right; by eexists _, _, _, _|].
    split; [by apply render_one_rendered_shape|].
    split; [by apply handle_polygon_set_datum|].
    split; [by apply handle_polygon_set_datum|].
    split; [by apply handle_polygon_set_datum|].
    split; [by apply handle_polygon_set_datum|].
    repeat (split; [done|]). intros Hf. exfalso.
    apply (rendered_not_fresh (Node t a d (children n0 ++ [b; tr; bb; bx]))); [|done].
    by exists n0, b, tr, bb, bx.
Qed.

(** The polygons are found by their class after a call. *)
Lemma selectAll_after st t a (d : option D) cs b tr bb bx cls :
  fresh_container (Node t a d cs) →
  handle_polygon "border" b → handle_polygon "triangle" tr →
  handle_polygon "bbox" bb → handle_polygon "box" bx →
  cls ∈ ["border"; "triangle"; "bbox"; "box"] →
  selectAll (Selector "polygon" (Some cls))
    (Node t a d (cs ++ [border_update fmt st b; triangle_update fmt st tr;
                        bbox_update fmt st bb; box_update fmt st bx]))
  = if String.eqb cls "border" then [([length cs + 0], border_update fmt st b)]
    else if String.eqb cls "triangle" then [([length cs + 1], triangle_update fmt st tr)]
    else if String.eqb cls "bbox" then [([length cs + 2], bbox_update fmt st bb)]
    else [([length cs + 3], box_update fmt st bx)].
Proof.
  intros Hcs Hb Htr Hbb Hbx Hcls.
  apply selectAll_rendered; try done.
  - by apply border_update_polygon.
  - by apply triangle_update_polygon.
  - by apply bbox_update_polygon.
  - by apply box_update_polygon.
Qed.

End RenderShape.

Section HandleProperties.
Import Dom Handle HandleParts.
Context {D : Type}.
Variable fmt : Q → string.


(** X18.  After a call there is one border polygon, with the five points
    of the pointer outline and the stroke width [2 * borderThickness], and
    one bbox polygon, with the points and the translation of the box; none
    of them carries a datum.  The stroke and the fills are given when the
    polygon is created: in an element that held no polygon the border has
    the stroke [currentColor] and the fill [transparent], round line joins,
    and the bbox the fill [url(#checkerPattern)]. *)
Theorem render_border_bbox
    (selection : list (node D)) (i : nat) (container : node D) (st : state D) :
  selection !! i = Some container →
  fresh_container container ∨ rendered_container container →
  let c := (st_width st / 2)%Q in
  let h := st_height st in
  ∃ n' pb b pbb bb,
    render fmt st selection !! i = Some n'
    ∧ selectAll border_selector n' = [(pb, b)]
    ∧ getAttribute "points" b
      = Some ("0 0, " +:+ fmt c +:+ " " +:+ fmt c +:+ ", "
              +:+ fmt c +:+ " " +:+ fmt (c + h) +:+ ", "
              +:+ fmt (- c) +:+ " " +:+ fmt (c + h) +:+ ", "
              +:+ fmt (- c) +:+ " " +:+ fmt c)
    ∧ getAttribute "stroke-width" b = Some (fmt (2 * st_borderThickness st))
    ∧ datum b = None
    ∧ selectAll bbox_selector n' = [(pbb, bb)]
    ∧ getAttribute "points" bb
      = Some ("0 0, " +:+ fmt (st_width st) +:+ " 0, " +:+ fmt (st_width st)
              +:+ " " +:+ fmt h +:+ ", 0 " +:+ fmt h)
    ∧ getAttribute "transform" bb
      = Some ("translate(" +:+ fmt (- c) +:+ ", " +:+ fmt c +:+ ")")
    ∧ datum bb = None
    ∧ (fresh_container container →
       getAttribute "stroke" b = Some "currentColor"
       ∧ getAttribute "fill" b = Some "transparent"
       ∧ getAttribute "stroke-linejoin" b = Some "round"
       ∧ getAttribute "fill" bb = Some "url(#checkerPattern)"
       ∧ getAttribute "stroke-width" bb = Some "0").
Proof.
  intros Hi Hcontainer c h.
  destruct (render_one_shape fmt st container Hcontainer)
    as (t & a & d & cs & old & b & tr & bb & bx & -> & Hcs & Hold & Hrun
        & Hb & Htr & Hbb & Hbx & Hdb & _ & Hdbb & _ & Henter).
  eexists _, _, _, _, _. split.
  { unfold render. rewrite list_lookup_fmap, Hi.
    cbn [fmap option_fmap option_map]. by rewrite Hrun. }
  split.
  { unfold border_selector.
    rewrite (selectAll_after fmt st) by first [done | by left]. reflexivity. }
  split; [unfold border_update; by rewrite getAttribute_attr_eq|].
  split.
  { unfold border_update. by rewrite getAttribute_attr_ne, getAttribute_attr_eq. }
  split; [unfold border_update; by rewrite !datum_attr|].
  split.
  { unfold bbox_selector.
    rewrite (selectAll_after fmt st) by first [done | by do 2 right; left].
    reflexivity. }
  split.
  { unfold bbox_update. by rewrite getAttribute_attr_ne, getAttribute_attr_eq. }
  split; [unfold bbox_update; by rewrite getAttribute_attr_eq|].
  split; [unfold bbox_update; by rewrite !datum_attr|].
  intros Hfresh. destruct (Henter Hfresh) as (-> & _ & -> & _).
  by vm_compute.
Qed.

(** A second call with the same settings finds every polygon as it sets
    it. *)
Lemma render_one_idempotent (st : state D) (n : node D) :
  fresh_container n ∨ rendered_container n →
  render_one fmt st (render_one fmt st n) = render_one fmt st n.
Proof.
  intros Hn.
  destruct (render_one_shape fmt st n Hn)
    as (t & a & d & cs & old & b & tr & bb & bx & -> & Hcs & _ & Hrun
        & Hb & Htr & Hbb & Hbx & Hdb & Hdtr & Hdbb & Hdbx & _).
  rewrite Hrun.
  rewrite (render_one_rendered_shape fmt st t a d cs);
    [|done|by apply border_update_polygon|by apply triangle_update_polygon
     |by apply bbox_update_polygon|by apply box_update_polygon].
  do 2 f_equal. f_equal; [|f_equal; [|f_equal; [|f_equal]]].
  - unfold border_update. by refix.
  - unfold triangle_update. by refix.
  - unfold bbox_update. by refix.
  - unfold box_update. destruct (st_color st) as [f|colour]; cbn [attr_color].
    + change (datum (set_datum d ?x)) with d. rewrite Hdbx. by refix.
    + by refix.
Qed.

(** X19.  Calling the handle a second time with the same settings changes
    nothing: the document after two calls is the document after one. *)
Theorem render_idempotent (selection : list (node D)) (st : state D) :
  Forall (λ n, fresh_container n ∨ rendered_container n) selection →
  render fmt st (render fmt st selection) = render fmt st selection.
Proof.
  intros Hsel. unfold render. rewrite <- list_fmap_compose.
  apply Forall_fmap_ext_1. eapply Forall_impl; [exact Hsel|].
  intros n Hn. by apply render_one_idempotent.
Qed.

(** X20.  With a colour given as a string, the box of every element is
    filled with that colour, whatever the datum of the element, which is
    still bound to the box. *)
Theorem render_color_string
    (selection : list (node D)) (i : nat) (container : node D)
    (w h bt : Q) (colour : string) :
  selection !! i = Some container →
  fresh_container container ∨ rendered_container container →
  ∃ n' pb b,
    render fmt (State w h bt (ColorStr colour)) selection !! i = Some n'
    ∧ selectAll box_selector n' = [(pb, b)]
    ∧ getAttribute "fill" b = Some colour
    ∧ datum b = datum container.
Proof.
  intros Hi Hcontainer.
  destruct (render_one_shape fmt (State w h bt (ColorStr colour)) container Hcontainer)
    as (t & a & d & cs & old & b & tr & bb & bx & -> & Hcs & _ & Hrun
        & Hb & Htr & Hbb & Hbx & _ & _ & _ & Hdbx & _).
  eexists _, _, _. split.
  { unfold render. rewrite list_lookup_fmap, Hi.
    cbn [fmap option_fmap option_map]. by rewrite Hrun. }
  split.
  { unfold box_selector.
    rewrite (selectAll_after fmt _) by first [done | by do 3 right; left].
    reflexivity. }
  unfold box_update. cbn [st_color attr_color]. split.
  - do 2 rewrite getAttribute_attr_ne by done. by rewrite getAttribute_attr_eq.
  - by rewrite !datum_attr.
Qed.

(** X21.  The bbox polygon of a handle refers to the pattern with the id
    [checkerPattern], and that is never the id of a pattern that
    [ensureCheckerPattern] creates, whatever the state of the id table:
    the ids it generates are [checkerPattern-] followed by the counter. *)
Theorem bbox_pattern_reference
    (svg container : node D) (ids : SvgIds.table) (st : state D) :
  Pattern.no_checker_pattern svg → fresh_container container →
  ∃ id svg' ids' n' p bb,
    Pattern.ensureCheckerPattern [svg] ids = (Pattern.Id (Some id), [svg'], ids')
    ∧ render fmt st [container] = [n']
    ∧ selectAll bbox_selector n' = [(p, bb)]
    ∧ getAttribute "fill" bb = Some "url(#checkerPattern)"
    ∧ "url(#" +:+ id +:+ ")" ≠ "url(#checkerPattern)".
Proof.
  intros Hsvg Hfresh.
  destruct (ensure_pattern_first svg ids Hsvg) as (svg' & p & d & Hrun & _).
  pose proof (render_one_shape fmt st container (or_introl Hfresh))
    as (t & a & dd & cs & old & b & tr & bb & bx & -> & Hcs & _ & Hrender
        & Hb & Htr & Hbb & Hbx & _ & _ & _ & _ & Henter).
  destruct (Henter Hfresh) as (_ & _ & -> & _).
  eexists _, svg', _, _, _, _. split.
  { unfold Pattern.ensureCheckerPattern. cbn [Pattern.ensure_patterns].
    rewrite Hrun. reflexivity. }
  split; [cbn [render fmap list_fmap]; by rewrite Hrender|].
  split.
  { unfold bbox_selector.
    rewrite (selectAll_after fmt _) by first [done | by do 2 right; left].
    reflexivity. }
  split; [by vm_compute|].
  unfold SvgIds.generateSvgID. cbn [fst].
  generalize (SvgIds.to_string
                (SvgIds.get (SvgIds.set ids "checkerPattern"
                   (SvgIds.or_zero_plus_one (SvgIds.get ids "checkerPattern")))
                   "checkerPattern")).
  intros x H. vm_compute in H. discriminate H.
Qed.

End HandleProperties.

Section HandleStore.
Import Handle.

(** X22.  Handles do not share their settings: setting a property of one
    handle leaves every other handle as it is, and [colorHandle()] makes a
    handle that is none of the existing ones, leaves those as they are, and
    starts from the defaults whatever was set on them. *)
Theorem handles_independent (hs : handles string) (handle other : nat) :
  handle ≠ other →
  (∀ v, snd (color (Some v) handle hs) !! other = hs !! other)
  ∧ (∀ v, snd (width (Some v) handle hs) !! other = hs !! other)
  ∧ (∀ v, snd (height (Some v) handle hs) !! other = hs !! other)
  ∧ (∀ v, snd (borderThickness (Some v) handle hs) !! other = hs !! other)
  ∧ hs !! fst (colorHandle hs) = None
  ∧ snd (colorHandle hs) !! fst (colorHandle hs) = Some initial
  ∧ (∀ st, hs !! other = Some st → snd (colorHandle hs) !! other = Some st).
Proof.
  intros Hne. unfold color, width, height, borderThickness, property, colorHandle.
  cbn [fst snd].
  repeat split; try (intros v; destruct (hs !! handle); cbn [snd];
                     [by rewrite list_lookup_insert_ne|done]).
  - by apply lookup_ge_None_2.
  - by rewrite lookup_app_r, Nat.sub_diag.
  - intros st Hst. by apply lookup_app_l_Some.
Qed.

End HandleStore.


Lemma render_border_bbox_witness :
  let fmt := λ q : Q, pretty (Qnum q) +:+ "/" +:+ pretty (Zpos (Qden q)) in
  let container : Dom.node string := Dom.Node "g" [] (Some "red") [] in
  ∃ n' pb b pbb bb,
    Handle.render fmt Handle.initial [container] !! 0%nat = Some n'
    ∧ Dom.selectAll Handle.border_selector n' = [(pb, b)]
    ∧ Dom.getAttribute "stroke-width" b = Some "2/1"
    ∧ Dom.selectAll Handle.bbox_selector n' = [(pbb, bb)]
    ∧ Dom.getAttribute "fill" bb = Some "url(#checkerPattern)".
Proof.
  intros fmt container.
  destruct (render_border_bbox fmt [container] 0%nat container Handle.initial eq_refl)
    as (n' & pb & b & pbb & bb & H1 & H2 & _ & H4 & _ & H6 & _ & _ & _ & H10).
  - left. repeat split; reflexivity.
  - exists n', pb, b, pbb, bb. split; [done|]. split; [done|].
    split; [by rewrite H4|]. split; [done|].
    apply H10. repeat split; reflexivity.
Defined.

Lemma render_idempotent_witness :
  let fmt := λ q : Q, pretty (Qnum q) +:+ "/" +:+ pretty (Zpos (Qden q)) in
  let container : Dom.node string := Dom.Node "g" [] (Some "red") [] in
  Forall (λ n, Handle.fresh_container n ∨ Handle.rendered_container n) [container]
  ∧ Handle.render fmt Handle.initial (Handle.render fmt Handle.initial [container])
    = Handle.render fmt Handle.initial [container].
Proof.
  intros fmt container.
  assert (H : Forall (λ n, Handle.fresh_container n ∨ Handle.rendered_container n)
                [container]).
  { constructor; [|constructor]. left. repeat split; reflexivity. }
  split; [exact H|]. exact (render_idempotent fmt [container] Handle.initial H).
Defined.

Lemma render_color_string_witness :
  let fmt := λ q : Q, pretty (Qnum q) +:+ "/" +:+ pretty (Zpos (Qden q)) in
  let container : Dom.node string := Dom.Node "g" [] (Some "red") [] in
  ∃ n' pb b,
    Handle.render fmt (Handle.State 10 15 1 (Handle.ColorStr "blue")) [container]
      !! 0%nat = Some n'
    ∧ Dom.selectAll Handle.box_selector n' = [(pb, b)]
    ∧ Dom.getAttribute "fill" b = Some "blue"
    ∧ Dom.datum b = Some "red".
Proof.
  intros fmt container.
  destruct (render_color_string fmt [container] 0%nat container 10 15 1 "blue" eq_refl)
    as (n' & pb & b & H1 & H2 & H3 & H4).
  - left. repeat split; reflexivity.
  - by exists n', pb, b.
Defined.

Lemma bbox_pattern_reference_witness :
  let fmt := λ q : Q, pretty (Qnum q) +:+ "/" +:+ pretty (Zpos (Qden q)) in
  let svg : Dom.node string := Dom.Node "svg" [] None [] in
  let container : Dom.node string := Dom.Node "g" [] (Some "red") [] in
  ∃ id svg' ids' (bb : Dom.node string),
    Pattern.ensureCheckerPattern [svg] ∅ = (Pattern.Id (Some id), [svg'], ids')
    ∧ Dom.getAttribute "fill" bb = Some "url(#checkerPattern)"
    ∧ "url(#" +:+ id +:+ ")" ≠ "url(#checkerPattern)".
Proof.
  intros fmt svg container.
  destruct (bbox_pattern_reference fmt svg container ∅ Handle.initial)
    as (id & svg' & ids' & n' & p & bb & H1 & _ & _ & H4 & H5).
  - reflexivity.
  - repeat split; reflexivity.
  - by exists id, svg', ids', bb.
Defined.

Lemma handles_independent_witness :
  let hs := (Handle.colorHandle (Handle.colorHandle []).2).2 in
  0%nat ≠ 1%nat
  ∧ snd (Handle.width (Some 20%Q) 0%nat hs) !! 1%nat = hs !! 1%nat
  ∧ snd (Handle.colorHandle (snd (Handle.width (Some 20%Q) 0%nat hs))) !! 2%nat
    = Some Handle.initial.
Proof.
  intros hs. split; [discriminate|].
  destruct (handles_independent hs 0 1) as (_ & Hw & _); [discriminate|].
  split; [exact (Hw 20%Q)|reflexivity].
Defined.
